(** * EdgeDB IR utilities ([edgedb/lang/ir/utils.py]): a shallow embedding

    The development follows the layout of the Python module:
    - [Py]: the Python-level values, exceptions and the error monad;
    - [Infer]: [infer_type] and [infer_arg_types] over the IR seen as a tree;
    - [Linear]: the [LinearPath] list subclass;
    - [Graph]: the object store (nodes with identity, mutable attributes and
      mutable sets) and the path utilities that mutate or allocate in it:
      [flatten_path_combination], [PathExtractor], [extract_prefixes] and
      [copy_path];
    - [GraphSpec]: the notions the statements about the store are phrased in;
    - [InferSpec]: more notions for the statements about type inference;
    - [PathId]: [walk_path_towards_root], [get_path_id] and
      [LinearPath.__str__];
    - [Index]: [PathIndex.__setitem__] and [PathIndex.update];
    - [GraphMore]: [visit_EntityLink] and [extend_binop], with the notions
      the statements about them and about [copy_path] are phrased in;
    - [PathJoin]: the notions for path identities with a join point.
    Definitions come first; the facts follow in [InferFacts], [LinearFacts]
    and [GraphFacts], and then in [InferExtra], [LinearExtra], [IndexFacts],
    [GraphExtra], [PrefixFacts] and [CopyFacts]. *)

From stdpp Require Import gmap strings list.

Set Warnings "-register-all".

(** ** Python values and exceptions *)

Module Py.

(** The values type inference passes around.  [Proto] stands for an instance
    of [s_obj.ProtoObject] or [s_obj.PrototypeClass] (a schema type handle),
    [SetType] for [s_obj.Set(element_type=...)], [PySeq] for a tuple or a list,
    [PyObj] for an object of any other class. *)
Inductive pyval :=
| PyNone
| Proto (name : string)
| SetType (element_type : pyval)
| PySeq (items : list pyval)
| PyObj (tag : nat).

Fixpoint pyval_eq_dec (x y : pyval) {struct x} : Decision (x = y).
Proof.
  refine (match x, y with
          | PyNone, PyNone => left eq_refl
          | Proto a, Proto b => cast_if (decide (a = b))
          | SetType a, SetType b => cast_if (pyval_eq_dec a b)
          | PySeq l, PySeq k => cast_if (@list_eq_dec _ pyval_eq_dec l k)
          | PyObj a, PyObj b => cast_if (decide (a = b))
          | _, _ => right _
          end); abstract congruence.
Defined.

#[global] Instance pyval_eq_decision : EqDecision pyval := pyval_eq_dec.

(** Which assertion of the module failed. *)
Inductive assertion :=
| NotAProperty        (* assert prop, '"%s" is not a property of "%s"' *)
| NotAPrototype       (* "infer_type(...) retured ... instead of a prototype" *)
| UnexpectedNode.     (* assert False, 'unexpected node: ...' *)

(** The three [ValueError]s of [infer_arg_types]. *)
Inductive value_error :=
| UnsupportedOperator
| CannotInfer
| AmbiguousResolution (existing typ : pyval).

Inductive exn :=
| LookupError
| AttributeError
| IndexError
| TypeError
| AssertionError (a : assertion)
| ValueError (v : value_error)
| LibraryError (tag : nat).   (* raised inside code that is not part of utils.py *)

(** A call either returns or raises. *)
Inductive result (A : Type) :=
| Ok (a : A)
| Raise (e : exn).
Arguments Ok {A} a.
Arguments Raise {A} e.

Definition result_bind {A B} (f : A → result B) (m : result A) : result B :=
  match m with
  | Ok a => f a
  | Raise e => Raise e
  end.

#[global] Instance result_mbind : MBind result := @result_bind.
#[global] Instance result_mret : MRet result := @Ok.

End Py.
Export Py.

(** ** Type inference: [infer_type] and [infer_arg_types] *)

Module Infer.

(** An operator object of [ast.ops] / [irast].  The class hierarchy of the
    operators is declared outside utils.py; the record carries the answer of
    every [isinstance] test utils.py performs on an operator, and the three
    weak operators are told apart by [op_name]. *)
Record operator := Operator {
  op_name : string;
  is_ComparisonOperator : bool;
  is_TypeCheckOperator : bool;
  is_MembershipOperator : bool;
  is_ArithmeticOperator : bool;
  is_BooleanOperator : bool;
  is_EdgeDBMatchOperator : bool
}.

#[global] Instance operator_eq_dec : EqDecision operator.
Proof. solve_decision. Defined.

Inductive combination := Disjunction | Conjunction.

#[global] Instance combination_eq_dec : EqDecision combination.
Proof. solve_decision. Defined.

(** The IR as [infer_type] reads it: the attributes it follows form a tree.
    Sets ([PathCombination.paths]) are listed in their iteration order. *)
Inductive ir :=
| MetaRef (ref : ir) (name : string)
| AtomicRefSimple (ref : ir) (name : string)
| LinkPropRefSimple (ref : ir) (name : string)
| AtomicRefExpr (expr : ir)
| LinkPropRefExpr (expr : ir)
| Record_ (concept : pyval) (elements : list ir)
| FunctionCall (name : string) (args : list ir)
| Constant (expr : option ir) (type : pyval) (index : option nat)
| BinOp (left : ir) (op : operator) (right : ir)
| UnaryOp (op : operator) (expr : ir)
| EntitySet (concept : pyval)
| EntityLink (link_proto : pyval)
| PathCombination (cls : combination) (paths : list ir)
| TypeCast (expr : ir) (maintype : string) (subtypes : list string)
| GraphExpr (generator : option ir) (selector grouper sorter : list ir)
| SelectorExpr (expr : ir)
| SubgraphRef (ref : ir)
| ExistPred (expr : ir)
| NoneTest (expr : ir)
| Sequence (elements : list ir)
| InlineFilter (ref expr : ir).

(** [ptr.target] / [prop.target] *)
Record pointer := Pointer { target : pyval }.

(** The key of a type rule: [op] or [(op, 'reversed')]. *)
Inductive rule_key :=
| Forward (op : operator)
| Reversed (op : operator).

(** What utils.py calls in the schema packages ([schema], [s_obj], [s_utils],
    [s_types.TypeRules]); none of it is defined in utils.py, so the analysis
    is parameterised by it.
    - [schema_get name] is [schema.get(name)];
    - [resolve_pointer c name] is
      [c.resolve_pointer(schema, name, look_in_children=True)];
    - [getptr l name] is [l.getptr(schema, name)];
    - [nearest_common_ancestor] is
      [s_utils.get_prototype_nearest_common_ancestor];
    - [returntype f] is [f.returntype];
    - [from_subtypes m ts] is
      [s_obj.Collection.get_class(m).from_subtypes(ts)];
    - [get_result k args] is [s_types.TypeRules.get_result(k, args, schema)],
      [PyNone] when no rule applies. *)
Record Schema := {
  schema_get : string → result pyval;
  resolve_pointer : pyval → string → result (option pointer);
  getptr : pyval → string → result (option pointer);
  nearest_common_ancestor : list pyval → result pyval;
  returntype : pyval → result pyval;
  from_subtypes : string → list pyval → result pyval;
  get_result : rule_key → list pyval → pyval
}.

(** [n.concept] and [n.link_proto]: an [AttributeError] on a node whose class
    has no such field. *)
Definition attr_concept (n : ir) : result pyval :=
  match n with
  | EntitySet c | Record_ c _ => Ok c
  | _ => Raise AttributeError
  end.

Definition attr_link_proto (n : ir) : result pyval :=
  match n with
  | EntityLink l => Ok l
  | _ => Raise AttributeError
  end.

(** [isinstance(result, (s_obj.ProtoObject, s_obj.PrototypeClass))] *)
Definition is_prototype (v : pyval) : bool :=
  match v with
  | Proto _ | SetType _ => true
  | _ => false
  end.

(** The closing block of [infer_type]:
    [if result is not None: assert (isinstance(result, allowed) or
       (isinstance(result, (tuple, list)) and isinstance(result[1], allowed)))].
    [result[1]] is evaluated for every tuple or list, also a short one. *)
Definition check_result (r : pyval) : result pyval :=
  match r with
  | PyNone => Ok r
  | PySeq items =>
      match items !! 1 with
      | Some x => if is_prototype x then Ok r
                  else Raise (AssertionError NotAPrototype)
      | None => Raise IndexError
      end
  | _ => if is_prototype r then Ok r else Raise (AssertionError NotAPrototype)
  end.

Definition bool_like_operator (op : operator) : bool :=
  is_ComparisonOperator op || is_TypeCheckOperator op || is_MembershipOperator op.

Fixpoint infer_type (schema : Schema) (n : ir) {struct n} : result pyval :=
  r ← match n with
      | MetaRef _ _ => schema_get schema "std::str"
      | AtomicRefSimple ref name =>
          concept ← match ref with
                    | PathCombination _ paths =>
                        targets ← mapM attr_concept paths;
                        nearest_common_ancestor schema targets
                    | _ => attr_concept ref
                    end;
          ptr ← resolve_pointer schema concept name;
          match ptr with
          | None => Raise LookupError
          | Some p => Ok (target p)
          end
      | LinkPropRefSimple ref name =>
          link ← match ref with
                 | PathCombination _ paths =>
                     targets ← mapM attr_link_proto paths;
                     nearest_common_ancestor schema targets
                 | _ => attr_link_proto ref
                 end;
          prop ← getptr schema link name;
          match prop with
          | None => Raise (AssertionError NotAProperty)
          | Some p => Ok (target p)
          end
      | AtomicRefExpr e | LinkPropRefExpr e => infer_type schema e
      | Record_ concept _ => Ok concept
      | FunctionCall name _ =>
          func_obj ← schema_get schema name;
          returntype schema func_obj
      | Constant (Some e) _ _ => infer_type schema e
      | Constant None type _ => Ok type
      | BinOp lhs op rhs =>
          if bool_like_operator op then schema_get schema "std::bool"
          else
            left_type ← infer_type schema lhs;
            right_type ← infer_type schema rhs;
            match get_result schema (Forward op) [left_type; right_type] with
            | PyNone =>
                Ok (get_result schema (Reversed op) [right_type; left_type])
            | res => Ok res
            end
      | UnaryOp op e =>
          operand_type ← infer_type schema e;
          Ok (get_result schema (Forward op) [operand_type])
      | EntitySet concept => Ok concept
      | PathCombination _ paths =>
          match paths with
          | p :: _ => infer_type schema p
          | [] => Ok PyNone
          end
      | TypeCast _ maintype subtypes =>
          match subtypes with
          | [] => schema_get schema maintype
          | _ :: _ =>
              ts ← mapM (schema_get schema) subtypes;
              from_subtypes schema maintype ts
          end
      | GraphExpr _ selector _ _ =>
          match selector with
          | [s] =>
              match s with
              | SelectorExpr e => infer_type schema e
              | _ => Raise AttributeError
              end
          | _ => Ok PyNone
          end
      | SubgraphRef ref => infer_type schema ref
      | ExistPred _ => schema_get schema "std::bool"
      | _ => Ok PyNone
      end;
  check_result r.

(** [isinstance(n, irast.Constant)] *)
Definition is_Constant (n : ir) : bool :=
  match n with
  | Constant _ _ _ => true
  | _ => false
  end.

(** [arg.index] *)
Definition attr_index (n : ir) : result (option nat) :=
  match n with
  | Constant _ _ index => Ok index
  | _ => Raise AttributeError
  end.

(** The filter [flt] of [infer_arg_types]; Python's implicit [None] for a node
    that is no [BinOp] counts as false. *)
Definition flt (n : ir) : bool :=
  match n with
  | BinOp lhs _ rhs => is_Constant lhs || is_Constant rhs
  | _ => false
  end.

(** The body of the loop of [infer_arg_types] up to the dictionary update:
    [Ok None] is the [continue] taken when [arg.index is None], [Ok (Some (i,
    typ))] the parameter index and the type inferred for it at this operator. *)
Definition arg_occurrence (schema : Schema) (binop : ir)
  : result (option (nat * pyval)) :=
  match binop with
  | BinOp lhs op rhs =>
      let '(expr, arg, reversed) :=
        if is_Constant rhs then (lhs, rhs, false) else (rhs, lhs, true) in
      index ← attr_index arg;
      match index with
      | None => Ok None
      | Some i =>
          typ ← (if is_EdgeDBMatchOperator op then schema_get schema "std::str"
                 else if is_ComparisonOperator op || is_ArithmeticOperator op
                 then infer_type schema expr
                 else if is_MembershipOperator op && negb reversed
                 then elem_type ← infer_type schema expr; Ok (SetType elem_type)
                 else if is_BooleanOperator op then schema_get schema "std::bool"
                 else Raise (ValueError UnsupportedOperator));
          if decide (typ = PyNone) then Raise (ValueError CannotInfer)
          else Ok (Some (i, typ))
      end
  | _ => Raise AttributeError
  end.

(** The [try: existing = arg_types[arg.index] ... else: if existing != typ]
    block. *)
Definition record_arg (arg_types : gmap nat pyval) (i : nat) (typ : pyval)
  : result (gmap nat pyval) :=
  match arg_types !! i with
  | None => Ok (<[i := typ]> arg_types)
  | Some existing =>
      if decide (existing ≠ typ)
      then Raise (ValueError (AmbiguousResolution existing typ))
      else Ok arg_types
  end.

Fixpoint infer_arg_loop (schema : Schema) (ops : list ir)
    (arg_types : gmap nat pyval) : result (gmap nat pyval) :=
  match ops with
  | [] => Ok arg_types
  | binop :: ops' =>
      o ← arg_occurrence schema binop;
      match o with
      | None => infer_arg_loop schema ops' arg_types
      | Some (i, typ) =>
          arg_types' ← record_arg arg_types i typ;
          infer_arg_loop schema ops' arg_types'
      end
  end.

(** [ast.find_children] lives in [edgedb.lang.common.ast], outside utils.py:
    it is a parameter, and every statement below holds for any list of nodes
    it may return. *)
Definition infer_arg_types (find_children : ir → (ir → bool) → list ir)
    (schema : Schema) (tree : ir) : result (gmap nat pyval) :=
  infer_arg_loop schema (find_children tree flt) ∅.

(** *** Vocabulary of the statements about type rules *)

(** The rule table with the direction of the rules of [op] swapped: what was
    registered under [(op, 'reversed')] is found under [op] and conversely. *)
Definition swap_direction (op : operator) (schema : Schema) : Schema :=
  {| schema_get := schema_get schema;
     resolve_pointer := resolve_pointer schema;
     getptr := getptr schema;
     nearest_common_ancestor := nearest_common_ancestor schema;
     returntype := returntype schema;
     from_subtypes := from_subtypes schema;
     get_result := λ k args,
       match k with
       | Forward o =>
           if decide (o = op) then get_result schema (Reversed o) args
           else get_result schema (Forward o) args
       | Reversed o =>
           if decide (o = op) then get_result schema (Forward o) args
           else get_result schema (Reversed o) args
       end |}.

(** Only a [(op, 'reversed')] rule is registered: the lookup under [op]
    finds nothing, whatever the operand types. *)
Definition only_reversed (schema : Schema) (op : operator) : Prop :=
  ∀ args, get_result schema (Forward op) args = PyNone.

(** What the closing assertion of [infer_type] lets through. *)
Definition acceptable (v : pyval) : Prop :=
  v = PyNone ∨ is_prototype v = true ∨
  ∃ items x, v = PySeq items ∧ items !! 1 = Some x ∧ is_prototype x = true.

(** A stand-in for [ast.find_children] used in the examples: the proper
    descendants of the tree that pass the test, in pre-order. *)
Fixpoint descendants (n : ir) : list ir :=
  let sub (c : ir) := c :: descendants c in
  match n with
  | MetaRef r _ | AtomicRefSimple r _ | LinkPropRefSimple r _
  | SubgraphRef r => sub r
  | AtomicRefExpr e | LinkPropRefExpr e | SelectorExpr e | ExistPred e
  | NoneTest e | UnaryOp _ e | TypeCast e _ _ => sub e
  | Record_ _ l | FunctionCall _ l | PathCombination _ l | Sequence l =>
      flat_map sub l
  | Constant (Some e) _ _ => sub e
  | Constant None _ _ | EntitySet _ | EntityLink _ => []
  | BinOp lhs _ rhs => sub lhs ++ sub rhs
  | InlineFilter r e => sub r ++ sub e
  | GraphExpr g sel grp srt =>
      match g with Some e => sub e | None => [] end
      ++ flat_map sub sel ++ flat_map sub grp ++ flat_map sub srt
  end.

Definition find_in_tree (tree : ir) (test : ir → bool) : list ir :=
  filter (λ n, test n = true) (descendants tree).

(** [n] is no [BinOp] or [UnaryOp] node with operator [op], and neither is
    any node below it. *)
Definition operator_of (n : ir) : option operator :=
  match n with
  | BinOp _ o _ | UnaryOp o _ => Some o
  | _ => None
  end.

Definition op_free (op : operator) (n : ir) : Prop :=
  ∀ m, m ∈ n :: descendants n → operator_of m ≠ Some op.

(** The shapes on which [infer_type] makes no recursive call. *)
Definition no_subcall (n : ir) : Prop :=
  match n with
  | AtomicRefExpr _ | LinkPropRefExpr _ | Constant (Some _) _ _ | BinOp _ _ _
  | UnaryOp _ _ | PathCombination _ (_ :: _)
  | GraphExpr _ [SelectorExpr _] _ _ | SubgraphRef _ => False
  | _ => True
  end.






(** *** Example data *)

Definition plus : operator :=
  {| op_name := "+"; is_ComparisonOperator := false;
     is_TypeCheckOperator := false; is_MembershipOperator := false;
     is_ArithmeticOperator := true; is_BooleanOperator := false;
     is_EdgeDBMatchOperator := false |}.

Definition gt : operator :=
  {| op_name := ">"; is_ComparisonOperator := true;
     is_TypeCheckOperator := false; is_MembershipOperator := false;
     is_ArithmeticOperator := false; is_BooleanOperator := false;
     is_EdgeDBMatchOperator := false |}.

Definition eq : operator :=
  {| op_name := "="; is_ComparisonOperator := true;
     is_TypeCheckOperator := false; is_MembershipOperator := false;
     is_ArithmeticOperator := false; is_BooleanOperator := false;
     is_EdgeDBMatchOperator := false |}.

Definition and_ : operator :=
  {| op_name := "and"; is_ComparisonOperator := false;
     is_TypeCheckOperator := false; is_MembershipOperator := false;
     is_ArithmeticOperator := false; is_BooleanOperator := true;
     is_EdgeDBMatchOperator := false |}.

(** A schema in which [Person] has the pointers [age : std::int] and
    [name : std::str], every name resolves to the type of that name, and
    type-rule lookups are answered from [rules]. *)
Definition schema_with_rules (rules : rule_key → list pyval → pyval) : Schema :=
  {| schema_get := λ name, Ok (Proto name);
     resolve_pointer := λ _ name,
       Ok (if decide (name = "age") then Some (Pointer (Proto "std::int"))
           else if decide (name = "name") then Some (Pointer (Proto "std::str"))
           else None);
     getptr := λ _ name, Ok None;
     nearest_common_ancestor := λ ts, Ok (List.hd PyNone ts);
     returntype := λ _, Ok (Proto "std::int");
     from_subtypes := λ m _, Ok (Proto m);
     get_result := rules |}.

(** [str + int] is registered under [('+', 'reversed')] only, in both operand
    orders, with different results. *)
Definition asymmetric_rules (k : rule_key) (args : list pyval) : pyval :=
  match k with
  | Reversed o =>
      if decide (o = plus) then
        if decide (args = [Proto "str"; Proto "int"]) then Proto "str"
        else if decide (args = [Proto "int"; Proto "str"]) then Proto "int"
        else PyNone
      else PyNone
  | Forward _ => PyNone
  end.

Definition int_const : ir := Constant None (Proto "int") None.
Definition str_const : ir := Constant None (Proto "str") None.

Definition person : ir := EntitySet (Proto "Person").
Definition param (i : nat) : ir := Constant None PyNone (Some i).

(** [age > $0 and name = $0] and [age > $0 and age = $0] *)
Definition ambiguous_tree : ir :=
  BinOp (BinOp (AtomicRefSimple person "age") gt (param 0)) and_
        (BinOp (AtomicRefSimple person "name") eq (param 0)).

Definition agreeing_tree : ir :=
  BinOp (BinOp (AtomicRefSimple person "age") gt (param 0)) and_
        (BinOp (AtomicRefSimple person "age") eq (param 0)).

Definition in_ : operator :=
  {| op_name := "in"; is_ComparisonOperator := false;
     is_TypeCheckOperator := false; is_MembershipOperator := true;
     is_ArithmeticOperator := false; is_BooleanOperator := false;
     is_EdgeDBMatchOperator := false |}.

(** [age > 18] and [age in $0] *)
Definition simple_comparison : ir :=
  BinOp (AtomicRefSimple person "age") gt (Constant None (Proto "std::int") None).

Definition membership_tree : ir :=
  BinOp (ExistPred (BinOp (AtomicRefSimple person "age") in_ (param 0))) and_
        (ExistPred person).

End Infer.

(** ** Path identity: [LinearPath] *)

Module Linear.

(** A link prototype of the schema, as far as [LinearPath.add] looks at it:
    [link.generic()] and [link.bases]. *)
Inductive link := Link {
  link_name : string;
  generic : bool;
  bases : list link
}.

Fixpoint link_eq_dec (x y : link) {struct x} : Decision (x = y).
Proof.
  refine (match x, y with
          | Link n g b, Link n' g' b' =>
              cast_if_and3 (decide (n = n')) (decide (g = g'))
                           (@list_eq_dec _ link_eq_dec b b')
          end); abstract congruence.
Defined.

#[global] Instance link_eq_decision : EqDecision link := link_eq_dec.

(** [step._class_metadata.link_direction] *)
Inductive direction := Outbound | Inbound.

#[global] Instance direction_eq_dec : EqDecision direction.
Proof. solve_decision. Defined.

(** The elements a [LinearPath] holds: a concept (a node type), [None] for a
    missing target, or a [(link, direction)] tuple. *)
Inductive item :=
| Node (concept : string)
| Null
| Step (l : link) (d : direction).

#[global] Instance item_eq_dec : EqDecision item.
Proof. solve_decision. Defined.

(** [class LinearPath(list)]: any list of items, whatever its shape. *)
Definition LinearPath := list item.

(** [range(start, stop, step)] for a positive [step]. *)
Definition range_step (start stop step : nat) : list nat :=
  (λ k, start + step * k) <$> seq 0 ((stop - start + (step - 1)) / step).

(** The [for ... else] of [__eq__]: a [break] leaves the loop for
    [return False], the [else] branch of a loop that ran to its end is
    [return True]. *)
Fixpoint eq_loop (self other : LinearPath) (indices : list nat) : bool :=
  match indices with
  | [] => true
  | i :: indices' =>
      if bool_decide (self !! i ≠ other !! i) then false
      else if bool_decide (self !! (i + 1) ≠ other !! (i + 1)) then false
      else eq_loop self other indices'
  end.

(** [LinearPath.__eq__] on two [LinearPath]s. *)
Definition LinearPath_eq (self other : LinearPath) : bool :=
  if bool_decide (length other ≠ length self) then false
  else if bool_decide (length self = 0) then true
  else if bool_decide (self !! 0 ≠ other !! 0) then false
  else eq_loop self other (range_step 1 (length self - 1) 2).

(** [LinearPath.add]: [link.bases[0]] raises on a link without bases. *)
Definition add (self : LinearPath) (l : link) (d : direction) (target : item)
  : result LinearPath :=
  l' ← (if negb (generic l)
        then match bases l with
             | b :: _ => Ok b
             | [] => Raise IndexError
             end
        else Ok l);
  Ok (self ++ [Step l' d; target]).

(** The documented shape: [<concept> <link> <concept> <link> ... <concept>]. *)
Fixpoint alternating (p : LinearPath) : bool :=
  match p with
  | [Node _] | [Null] => true
  | (Node _ | Null) :: Step _ _ :: p' => alternating p'
  | _ => false
  end.

(** How many leading elements [__eq__] compares on lists of length [n]: all
    of them when [n] is odd, all but the last when [n] is even. *)
Definition compared (n : nat) : nat := if Nat.even n then n - 1 else n.

(** *** Example data *)

(** The root link [std::link], the generic link [owns] derived from it, the
    link [Person.owns] specialised for one concept, and another generic
    link. *)
Definition std_link : link := Link "std::link" true [].
Definition owns : link := Link "owns" true [std_link].
Definition person_owns : link := Link "Person.owns" false [owns].
Definition likes : link := Link "likes" true [std_link].

End Linear.

(** ** The object store and the path utilities *)

Module Graph.
Import Linear.

(** Objects have identity: a node or a mutable set is known by its reference
    into the store, and two attributes holding the same reference alias. *)
Definition ref := nat.

(** The elements of the [users], [joins] and [rewrite_flags] sets. *)
Definition atom := nat.

Inductive combination := Disjunction | Conjunction.

#[global] Instance combination_eq_dec : EqDecision combination.
Proof. solve_decision. Defined.

(** The value of [node.id] / [node.get_id()]. *)
Inductive path_id :=
| IdNone
| IdStr (s : string)
| IdPath (p : LinearPath)
| IdObj (tag : nat).

#[global] Instance path_id_eq_dec : EqDecision path_id.
Proof. solve_decision. Defined.

(** [if key:] *)
Definition id_truthy (k : path_id) : bool :=
  match k with
  | IdNone => false
  | IdStr s => bool_decide (s ≠ "")
  | IdPath p => bool_decide (p ≠ [])
  | IdObj _ => true
  end.

Record entity_set := {
  es_id : path_id;
  es_context : pyval;
  es_pathvar : pyval;
  es_concept : pyval;
  es_users : ref;
  es_joins : ref;
  es_rewrite_flags : ref;
  es_anchor : pyval;
  es_show_as_anchor : pyval;
  es_backend_rel_suffix : pyval;
  es_rlink : option ref;
  es_origin : option ref;
  es_disjunction : option ref
}.

Record entity_link := {
  el_context : pyval;
  el_target : option ref;
  el_source : option ref;
  el_link_proto : pyval;
  el_direction : pyval;
  el_propfilter : option ref;
  el_users : ref;
  el_pathvar : pyval;
  el_anchor : pyval;
  el_show_as_anchor : pyval;
  el_rewrite_flags : ref;
  el_pathspec_trigger : pyval
}.

(** The concrete classes below [irast.BaseRef] ([MetaRef] is handled as the
    [AtomicRefSimple] it derives from). *)
Inductive base_ref_class :=
| AtomicRefSimple
| LinkPropRefSimple
| AtomicRefExpr
| LinkPropRefExpr.

Record base_ref := {
  br_class : base_ref_class;
  br_id : path_id;
  br_context : pyval;
  br_ref : option ref;
  br_ptr_proto : pyval;
  br_rewrite_flags : ref;
  br_pathvar : pyval;
  br_anchor : pyval;
  br_show_as_anchor : pyval;
  br_expr : option ref;
  br_inline : pyval;
  br_name : pyval;
  br_rlink : option ref
}.

(** [isinstance(path, irast.BaseRefExpr)] and
    [isinstance(path, (irast.AtomicRefSimple, irast.LinkPropRefSimple))] *)
Definition is_BaseRefExpr (c : base_ref_class) : bool :=
  match c with
  | AtomicRefExpr | LinkPropRefExpr => true
  | _ => false
  end.

Definition is_simple_ref (c : base_ref_class) : bool :=
  match c with
  | AtomicRefSimple | LinkPropRefSimple => true
  | _ => false
  end.

(** The IR node classes utils.py tells apart, with the attributes its path
    utilities read or write.  Attributes holding nodes hold references. *)
Inductive node :=
| EntitySet (e : entity_set)
| EntityLink (l : entity_link)
| BaseRef (b : base_ref)
| PathCombination (cls : combination) (paths : gset ref)
| BinOp (left : ref) (op : string) (right : ref)
| UnaryOp (expr : ref)
| ExistPred (expr : ref)
| InlineFilter (ref_ : ref) (expr : ref)
| InlinePropFilter (ref_ : ref) (expr : ref)
| FunctionCall (args : list ref) (agg_sort : list ref)
               (agg_filter : option ref) (partition : list ref)
| SortExpr (expr : ref)
| TypeCast (expr : ref)
| NoneTest (expr : ref)
| Sequence (elements : list ref)
| Record_ (elements : list ref)
| Constant
| GraphExpr
| SubgraphRef (ref_ : ref)
| Other.

Record store := Store {
  nodes : list node;
  sets : list (gset atom)
}.

(** A reference the store does not hold denotes an object of a class utils.py
    knows nothing about. *)
Definition node_at (s : store) (r : ref) : node := default Other (nodes s !! r).

Definition set_at (s : store) (r : ref) : gset atom := default ∅ (sets s !! r).

(** *** The monad: a call returns, raises, or is cut off by the fuel that
    bounds recursion depth and loop iterations. *)
Inductive outcome (A : Type) :=
| Done (a : A)
| Fail (e : exn)
| OutOfFuel.
Arguments Done {A} a.
Arguments Fail {A} e.
Arguments OutOfFuel {A}.

Definition outcome_bind {A B} (f : A → outcome B) (m : outcome A) : outcome B :=
  match m with
  | Done a => f a
  | Fail e => Fail e
  | OutOfFuel => OutOfFuel
  end.

#[global] Instance outcome_mbind : MBind outcome := @outcome_bind.
#[global] Instance outcome_mret : MRet outcome := @Done.

(** Code that mutates or allocates threads the store. *)
Definition M (A : Type) : Type := store → outcome (A * store).

Definition M_bind {A B} (f : A → M B) (m : M A) : M B :=
  λ s, match m s with
       | Done (a, s') => f a s'
       | Fail e => Fail e
       | OutOfFuel => OutOfFuel
       end.

#[global] Instance M_mbind : MBind M := @M_bind.
#[global] Instance M_mret : MRet M := λ A a s, Done (a, s).

Definition raise {A} (e : exn) : M A := λ _, Fail e.
Definition out_of_fuel {A} : M A := λ _, OutOfFuel.
Definition get_node (r : ref) : M node := λ s, Done (node_at s r, s).

(** A constructor call: the new object gets the next free reference. *)
Definition alloc (n : node) : M ref :=
  λ s, Done (length (nodes s), Store (nodes s ++ [n]) (sets s)).

(** Attribute assignment on the object [r]. *)
Definition put_node (r : ref) (n : node) : M unit :=
  λ s, Done ((), Store (<[r := n]> (nodes s)) (sets s)).

(** [x.copy()] on a set. *)
Definition set_copy (r : ref) : M ref :=
  λ s, Done (length (sets s), Store (nodes s) (sets s ++ [set_at s r])).

(** [x.add(a)] on a set. *)
Definition set_add (r : ref) (a : atom) : M unit :=
  λ s, Done ((), Store (nodes s) (<[r := {[a]} ∪ set_at s r]> (sets s))).

(** [for x in xs: acc = body(acc, x)] *)
Fixpoint for_in {A B} (xs : list A) (body : B → A → M B) (acc : B) : M B :=
  match xs with
  | [] => mret acc
  | x :: xs' => acc' ← body acc x; for_in xs' body acc'
  end.

(** *** [flatten_path_combination] *)

(** [expr.paths] with [expr.__class__]: only combinations have [paths]. *)
Definition get_combination (r : ref) : M (combination * gset ref) :=
  n ← get_node r;
  match n with
  | PathCombination cls paths => mret (cls, paths)
  | _ => raise AttributeError
  end.

(** [isinstance(path, cls)] for a combination class [cls], and
    [isinstance(path, irast.PathCombination)]. *)
Definition isinstance_cls (n : node) (cls : combination) : bool :=
  match n with
  | PathCombination c _ => bool_decide (c = cls)
  | _ => false
  end.

Definition is_PathCombination (n : node) : bool :=
  match n with
  | PathCombination _ _ => true
  | _ => false
  end.

Fixpoint flatten_path_combination (fuel : nat) (expr : ref) (recursive : bool)
    {struct fuel} : M ref :=
  match fuel with
  | 0 => out_of_fuel
  | S fuel' =>
      '(cls, members) ← get_combination expr;
      paths ← for_in (elements members)
                (λ (paths : gset ref) (path : ref),
                   n ← get_node path;
                   if isinstance_cls n cls || (recursive && is_PathCombination n)
                   then
                     if recursive then
                       _ ← flatten_path_combination fuel' path true;
                       '(_, sub) ← get_combination path;
                       mret (paths ∪ sub)
                     else
                       '(_, sub) ← get_combination path;
                       mret (paths ∪ sub)
                   else mret (paths ∪ {[path]}))
                ∅;
      put_node expr (PathCombination cls paths);;
      mret expr
  end.

(** *** [PathExtractor] *)

Record PathExtractor := {
  reverse : bool;
  resolve_arefs : bool;
  recurse_subqueries : Z;
  all_fragments : bool;
  extract_subgraph_refs : bool
}.

(** [PathExtractor.combine_field_results].  [results] holds the references
    handed in: the function drops nothing itself, its callers hand it no
    [None] ([visit_GraphExpr] adds a result only [if normalized]).  Their set
    is what [set(results)] builds, and [next(iter(paths))] on a one-element
    set is its only element.  The non-recursive flattening makes no nested
    call, so one unit of fuel is all it takes. *)
Definition combine_field_results (self : PathExtractor) (results : list ref)
    (combination_ : combination) (flatten : bool) : M (option ref) :=
  let paths : gset ref := list_to_set results in
  if bool_decide (size paths = 1) then mret (head (elements paths))
  else if bool_decide (size paths = 0) then mret None
  else
    result ← alloc (PathCombination combination_ paths);
    if flatten then
      r ← flatten_path_combination 1 result false;
      mret (Some r)
    else mret (Some result).

(** Python's [None] is an object as well, and a set of results can hold it.
    Where results may be [None], the [None] object is the reference [none],
    an object of no IR class; [as_object] and [as_result] pass between a
    result and the object it is. *)
Definition as_object (none : ref) (r : option ref) : ref := default none r.

Definition as_result (none : ref) (x : ref) : option ref :=
  if decide (x = none) then None else Some x.

(** [PathExtractor.combine_field_results] on results that may be [None]:
    [set(results)] keeps [None] as an element like any other, a one-element
    set gives its element back, [None] or not, and a combination built of
    more elements has [None] among its members. *)
Definition combine_field_results_any (none : ref) (self : PathExtractor)
    (results : list (option ref)) (combination_ : combination)
    (flatten : bool) : M (option ref) :=
  let paths : gset ref := list_to_set (as_object none <$> results) in
  if bool_decide (size paths = 1)
  then mret (head (elements paths) ≫= as_result none)
  else if bool_decide (size paths = 0) then mret None
  else
    result ← alloc (PathCombination combination_ paths);
    if flatten then
      r ← flatten_path_combination 1 result false;
      mret (Some r)
    else mret (Some result).

(** [node.rlink]: entity sets and references have the attribute. *)
Definition attr_rlink (n : node) : M (option ref) :=
  match n with
  | EntitySet e => mret (es_rlink e)
  | BaseRef b => mret (br_rlink b)
  | _ => raise AttributeError
  end.

(** [link.source] *)
Definition attr_source (n : node) : M (option ref) :=
  match n with
  | EntityLink l => mret (el_source l)
  | _ => raise AttributeError
  end.

(** The loop [while result.rlink: result = result.rlink.source;
    paths.append(result)] of [visit_EntitySet]; it returns [paths].  A link
    without source makes [result] [None], and the next test of the loop
    raises. *)
Fixpoint walk_rlinks (fuel : nat) (result : ref) (paths : list ref)
    {struct fuel} : M (list ref) :=
  match fuel with
  | 0 => out_of_fuel
  | S fuel' =>
      n ← get_node result;
      rlink ← attr_rlink n;
      match rlink with
      | None => mret paths
      | Some l =>
          ln ← get_node l;
          source ← attr_source ln;
          match source with
          | None => raise AttributeError
          | Some result' => walk_rlinks fuel' result' (paths ++ [result'])
          end
      end
  end.

(** [PathExtractor.visit_EntitySet] *)
Definition visit_EntitySet (fuel : nat) (self : PathExtractor) (path : ref)
  : M ref :=
  if reverse self then
    paths ← walk_rlinks fuel path [path];
    if bool_decide (length paths = 1) || negb (all_fragments self)
    then mret (List.last paths path)
    else alloc (PathCombination Disjunction (list_to_set paths))
  else mret path.

(** *** [PathIndex] and [extract_prefixes] *)

(** [class PathIndex(dict)]: keys in insertion order, each with its set of
    nodes. *)
Definition PathIndex := list (path_id * gset ref).

Fixpoint index_get (idx : PathIndex) (k : path_id) : option (gset ref) :=
  match idx with
  | [] => None
  | (k', v) :: idx' => if decide (k' = k) then Some v else index_get idx' k
  end.

Fixpoint index_put (idx : PathIndex) (k : path_id) (v : gset ref) : PathIndex :=
  match idx with
  | [] => [(k, v)]
  | (k', v') :: idx' =>
      if decide (k' = k) then (k', v) :: idx' else (k', v') :: index_put idx' k v
  end.

(** [PathIndex.__setitem__] with a value that is a set already. *)
Definition PathIndex_setitem (idx : PathIndex) (key : path_id) (value : gset ref)
  : outcome PathIndex :=
  match key with
  | IdPath _ | IdStr _ => Done (index_put idx key value)
  | _ => Fail TypeError
  end.

(** [x.expr] on the classes that have the field. *)
Definition attr_expr (n : node) : outcome (option ref) :=
  match n with
  | UnaryOp e | ExistPred e | InlineFilter _ e | InlinePropFilter _ e
  | SortExpr e | TypeCast e | NoneTest e => Done (Some e)
  | BaseRef b => Done (br_expr b)
  | _ => Fail AttributeError
  end.

Fixpoint for_each {A B} (xs : list A) (body : B → A → outcome B) (acc : B)
  : outcome B :=
  match xs with
  | [] => Done acc
  | x :: xs' => acc' ← body acc x; for_each xs' body acc'
  end.

(** [extract_prefixes(expr, prefixes)].  The store is only read; the index is
    the dictionary the calls pass on and update.  [get_id] stands for the
    [get_id()] methods of the node classes (declared in [irast]).  A [None]
    in the place of a node falls through every [isinstance] test to the final
    [assert False]. *)
Fixpoint extract_prefixes (get_id : store → ref → outcome path_id)
    (fuel : nat) (s : store) (expr : ref) (prefixes : option PathIndex)
    {struct fuel} : outcome PathIndex :=
  match fuel with
  | 0 => OutOfFuel
  | S fuel' =>
      let prefixes := default [] prefixes in
      let recur (prefixes : PathIndex) (e : option ref) : outcome PathIndex :=
        match e with
        | Some r => extract_prefixes get_id fuel' s r (Some prefixes)
        | None => Fail (AssertionError UnexpectedNode)
        end in
      let record_id (prefixes : PathIndex) : outcome PathIndex :=
        key ← get_id s expr;
        if id_truthy key then
          match index_get prefixes key with
          | None => PathIndex_setitem prefixes key {[expr]}
          | Some v => Done (index_put prefixes key (v ∪ {[expr]}))
          end
        else Done prefixes in
      match node_at s expr with
      | PathCombination _ paths =>
          for_each (elements paths) (λ p path, recur p (Some path)) prefixes
      | EntitySet e =>
          prefixes ← record_id prefixes;
          match es_rlink e with
          | Some rlink =>
              match node_at s rlink with
              | EntityLink l => recur prefixes (el_source l)
              | _ => Fail AttributeError
              end
          | None => Done prefixes
          end
      | BaseRef b =>
          match br_class b with
          | AtomicRefSimple =>
              prefixes ← record_id prefixes;
              recur prefixes (br_ref b)
          | LinkPropRefSimple => recur prefixes (br_ref b)
          | AtomicRefExpr | LinkPropRefExpr => recur prefixes (br_expr b)
          end
      | EntityLink l =>
          recur prefixes (match el_target l with
                          | Some t => Some t
                          | None => el_source l
                          end)
      | BinOp lhs _ rhs =>
          prefixes ← recur prefixes (Some lhs);
          recur prefixes (Some rhs)
      | UnaryOp e | ExistPred e | TypeCast e | NoneTest e =>
          recur prefixes (Some e)
      | InlineFilter r e | InlinePropFilter r e =>
          prefixes ← recur prefixes (Some r);
          recur prefixes (Some e)
      | FunctionCall args agg_sort agg_filter partition =>
          prefixes ← for_each args (λ p arg, recur p (Some arg)) prefixes;
          prefixes ← for_each agg_sort
                       (λ p sortexpr,
                          e ← attr_expr (node_at s sortexpr); recur p e)
                       prefixes;
          prefixes ← match agg_filter with
                     | Some f => recur prefixes (Some f)
                     | None => Done prefixes
                     end;
          for_each partition (λ p partition_expr, recur p (Some partition_expr))
                   prefixes
      | Sequence elements_ | Record_ elements_ =>
          for_each elements_ (λ p path, recur p (Some path)) prefixes
      | Constant => Done prefixes
      | GraphExpr => Done prefixes
      | SubgraphRef r => recur prefixes (Some r)
      | SortExpr _ | Other => Fail (AssertionError UnexpectedNode)
      end
  end.

(** *** [copy_path] *)

Definition with_rlink (n : node) (rlink : option ref) : node :=
  match n with
  | EntitySet e =>
      EntitySet {| es_id := es_id e; es_context := es_context e;
                   es_pathvar := es_pathvar e; es_concept := es_concept e;
                   es_users := es_users e; es_joins := es_joins e;
                   es_rewrite_flags := es_rewrite_flags e;
                   es_anchor := es_anchor e;
                   es_show_as_anchor := es_show_as_anchor e;
                   es_backend_rel_suffix := es_backend_rel_suffix e;
                   es_rlink := rlink; es_origin := es_origin e;
                   es_disjunction := es_disjunction e |}
  | BaseRef b =>
      BaseRef {| br_class := br_class b; br_id := br_id b;
                 br_context := br_context b; br_ref := br_ref b;
                 br_ptr_proto := br_ptr_proto b;
                 br_rewrite_flags := br_rewrite_flags b;
                 br_pathvar := br_pathvar b; br_anchor := br_anchor b;
                 br_show_as_anchor := br_show_as_anchor b;
                 br_expr := br_expr b; br_inline := br_inline b;
                 br_name := br_name b; br_rlink := rlink |}
  | _ => n
  end.

Definition with_source (l : entity_link) (source : option ref) : entity_link :=
  {| el_context := el_context l; el_target := el_target l; el_source := source;
     el_link_proto := el_link_proto l; el_direction := el_direction l;
     el_propfilter := el_propfilter l; el_users := el_users l;
     el_pathvar := el_pathvar l; el_anchor := el_anchor l;
     el_show_as_anchor := el_show_as_anchor l;
     el_rewrite_flags := el_rewrite_flags l;
     el_pathspec_trigger := el_pathspec_trigger l |}.

(** The [irast.EntitySet(...)] call of [copy_path] on the entity set [e]
    stored at [path], followed by the assignments to [origin] and
    [disjunction] that come before the node is linked.  Attributes the call
    does not pass start as [None]. *)
Definition copy_entity_set (path : ref) (e : entity_set)
    (connect_to_origin : bool) (disjunction : option ref)
    (rewrite_flags : ref) : entity_set :=
  {| es_id := es_id e; es_context := es_context e; es_pathvar := es_pathvar e;
     es_concept := es_concept e;
     es_users := es_users e;
     es_joins := es_joins e;
     es_rewrite_flags := rewrite_flags;
     es_anchor := es_anchor e; es_show_as_anchor := es_show_as_anchor e;
     es_backend_rel_suffix := es_backend_rel_suffix e;
     es_rlink := None;
     es_origin := if connect_to_origin
                  then match es_origin e with
                       | Some o => Some o
                       | None => Some path
                       end
                  else None;
     es_disjunction := disjunction |}.

(** The body of [while rlink:]. *)
Fixpoint copy_links (fuel : nat) (connect_to_origin : bool)
    (result current rlink : option ref) {struct fuel} : M (option ref) :=
  match rlink with
  | None => mret result
  | Some rl =>
      match fuel with
      | 0 => out_of_fuel
      | S fuel' =>
          n ← get_node rl;
          match n with
          | EntityLink r =>
              users ← set_copy (el_users r);
              rewrite_flags ← set_copy (el_rewrite_flags r);
              link ← alloc (EntityLink
                {| el_context := el_context r; el_target := current;
                   el_source := None;
                   el_link_proto := el_link_proto r;
                   el_direction := el_direction r;
                   el_propfilter := el_propfilter r;
                   el_users := users;
                   el_pathvar := el_pathvar r; el_anchor := el_anchor r;
                   el_show_as_anchor := el_show_as_anchor r;
                   el_rewrite_flags := rewrite_flags;
                   el_pathspec_trigger := el_pathspec_trigger r |});
              let result := match result with
                            | None => Some link
                            | Some _ => result
                            end in
              match el_source r with
              | Some parent_path =>
                  pn ← get_node parent_path;
                  match pn with
                  | EntitySet pe =>
                      flags ← set_copy (es_rewrite_flags pe);
                      parent ← alloc (EntitySet
                        (copy_entity_set parent_path pe false None flags));
                      disjunction ← alloc (PathCombination Disjunction {[link]});
                      put_node parent (EntitySet
                        (copy_entity_set parent_path pe connect_to_origin
                                         (Some disjunction) flags));;
                      ln ← get_node link;
                      match ln with
                      | EntityLink l =>
                          put_node link (EntityLink (with_source l (Some parent)))
                      | _ => raise AttributeError
                      end;;
                      match current with
                      | Some c =>
                          cn ← get_node c;
                          put_node c (with_rlink cn (Some link))
                      | None => mret ()
                      end;;
                      copy_links fuel' connect_to_origin result (Some parent)
                                 (es_rlink pe)
                  | _ => raise AttributeError
                  end
              | None => mret result
              end
          | _ => raise AttributeError
          end
      end
  end.

(** [copy_path(path, connect_to_origin)]; [None] is returned as [None]. *)
Definition copy_path (fuel : nat) (path : ref) (connect_to_origin : bool)
  : M (option ref) :=
  n ← get_node path;
  match n with
  | EntitySet e =>
      flags ← set_copy (es_rewrite_flags e);
      result ← alloc (EntitySet
                        (copy_entity_set path e connect_to_origin None flags));
      copy_links fuel connect_to_origin (Some result) (Some result) (es_rlink e)
  | BaseRef b =>
      flags ← set_copy (br_rewrite_flags b);
      result ← alloc (BaseRef
        {| br_class := br_class b; br_id := br_id b;
           br_context := br_context b; br_ref := br_ref b;
           br_ptr_proto := br_ptr_proto b;
           br_rewrite_flags := flags;
           br_pathvar := br_pathvar b; br_anchor := br_anchor b;
           br_show_as_anchor := br_show_as_anchor b;
           br_expr := if is_BaseRefExpr (br_class b) then br_expr b else None;
           br_inline := if is_BaseRefExpr (br_class b) then br_inline b
                        else PyNone;
           br_name := if is_simple_ref (br_class b) then br_name b else PyNone;
           br_rlink := None |});
      copy_links fuel connect_to_origin (Some result) (Some result) (br_rlink b)
  | _ => copy_links fuel connect_to_origin None None (Some path)
  end.

(** What a later pass does to a node's metadata: [node.users.add(a)] and
    [node.rewrite_flags.add(a)]; and what it reads. *)
Definition attr_users (n : node) : option ref :=
  match n with
  | EntitySet e => Some (es_users e)
  | EntityLink l => Some (el_users l)
  | _ => None
  end.

Definition attr_rewrite_flags (n : node) : option ref :=
  match n with
  | EntitySet e => Some (es_rewrite_flags e)
  | EntityLink l => Some (el_rewrite_flags l)
  | BaseRef b => Some (br_rewrite_flags b)
  | _ => None
  end.

Definition users_add (r : ref) (a : atom) : M unit :=
  n ← get_node r;
  match attr_users n with
  | Some u => set_add u a
  | None => raise AttributeError
  end.

Definition rewrite_flags_add (r : ref) (a : atom) : M unit :=
  n ← get_node r;
  match attr_rewrite_flags n with
  | Some u => set_add u a
  | None => raise AttributeError
  end.

Definition users_of (s : store) (r : ref) : gset atom :=
  match attr_users (node_at s r) with
  | Some u => set_at s u
  | None => ∅
  end.

Definition rewrite_flags_of (s : store) (r : ref) : gset atom :=
  match attr_rewrite_flags (node_at s r) with
  | Some u => set_at s u
  | None => ∅
  end.

End Graph.

(** ** Vocabulary of the statements about the object store *)

Module GraphSpec.
Import Graph.

(** [r] is allocated and is no combination: a plain path. *)
Definition plain (s : store) (r : ref) : Prop :=
  ∃ n, nodes s !! r = Some n ∧ is_PathCombination n = false.

(** [x] is what the one-level flattening of a combination of class [cls]
    with the given members puts into the new member set: a member of a member
    of class [cls], or a member of another class. *)
Definition absorbed_once (s : store) (cls : combination) (members : gset ref)
    (x : ref) : Prop :=
  ∃ m, m ∈ members ∧
       ((∃ sub, node_at s m = PathCombination cls sub ∧ x ∈ sub) ∨
        (isinstance_cls (node_at s m) cls = false ∧ x = m)).

(** [l] is a node that is no combination and is reached from [x] through
    member sets of combinations of either class. *)
Inductive leaf_of (s : store) : ref → ref → Prop :=
| leaf_here x :
    is_PathCombination (node_at s x) = false → leaf_of s x x
| leaf_member x cls members m l :
    node_at s x = PathCombination cls members →
    m ∈ members → leaf_of s m l → leaf_of s x l.

(** Combinations nest at most [d] deep below [r]; a cyclic nesting has no
    bound. *)
Fixpoint bounded (d : nat) (s : store) (r : ref) : Prop :=
  match node_at s r with
  | PathCombination _ members =>
      match d with
      | 0 => False
      | S d' => ∀ m, m ∈ members → bounded d' s m
      end
  | _ => True
  end.

(** [s'] is [s] with some combinations flattened recursively: every node is
    as it was, or is a combination whose member set has become the set of its
    leaves. *)
Definition flattened (s s' : store) : Prop :=
  sets s' = sets s ∧ length (nodes s') = length (nodes s) ∧
  ∀ x, node_at s' x = node_at s x ∨
       ∃ cls members members',
         node_at s x = PathCombination cls members ∧
         node_at s' x = PathCombination cls members' ∧
         ∀ l, l ∈ members' ↔ leaf_of s x l.

(** The [rlink] of an entity set or a reference. *)
Definition rlink_of (n : node) : option ref :=
  match n with
  | EntitySet e => es_rlink e
  | BaseRef b => br_rlink b
  | _ => None
  end.

Definition has_rlink_attr (n : node) : bool :=
  match n with
  | EntitySet _ | BaseRef _ => true
  | _ => false
  end.

(** [ancestors] are the nodes met from [path] by following [rlink.source]
    until a node without [rlink], nearest first; the last one is the root. *)
Inductive rlink_chain (s : store) : ref → list ref → Prop :=
| chain_root path :
    has_rlink_attr (node_at s path) = true →
    rlink_of (node_at s path) = None →
    rlink_chain s path []
| chain_step path l ln parent ancestors :
    has_rlink_attr (node_at s path) = true →
    rlink_of (node_at s path) = Some l →
    node_at s l = EntityLink ln →
    el_source ln = Some parent →
    rlink_chain s parent ancestors →
    rlink_chain s path (parent :: ancestors).

(** The store holds the [None] object at [none]. *)
Definition none_object (s : store) (none : ref) : Prop :=
  nodes s !! none = Some Other.

(** A result is [None] or a node, which is not the [None] object. *)
Definition is_result (none : ref) (r : option ref) : Prop := r ≠ Some none.

(** The body of the loop of [flatten_path_combination], named. *)
Definition flatten_visit (fuel' : nat) (cls : combination) (recursive : bool)
    (paths : gset ref) (path : ref) : M (gset ref) :=
  n ← get_node path;
  if isinstance_cls n cls || (recursive && is_PathCombination n)
  then
    if recursive then
      _ ← flatten_path_combination fuel' path true;
      '(_, sub) ← get_combination path;
      mret (paths ∪ sub)
    else
      '(_, sub) ← get_combination path;
      mret (paths ∪ sub)
  else mret (paths ∪ {[path]}).

(** *** Example data *)

(** An entity set of the given concept, with its three sets at the given
    references. *)
Definition entity (concept : string) (rlink : option ref)
    (users joins rewrite_flags : ref) : node :=
  EntitySet {| es_id := IdStr concept; es_context := PyNone;
               es_pathvar := PyNone; es_concept := Proto concept;
               es_users := users; es_joins := joins;
               es_rewrite_flags := rewrite_flags;
               es_anchor := PyNone; es_show_as_anchor := PyNone;
               es_backend_rel_suffix := PyNone;
               es_rlink := rlink; es_origin := None;
               es_disjunction := None |}.

Definition link_to (link_proto : string) (source target : option ref)
    (users rewrite_flags : ref) : node :=
  EntityLink {| el_context := PyNone; el_target := target;
                el_source := source; el_link_proto := Proto link_proto;
                el_direction := PyObj 0; el_propfilter := None;
                el_users := users; el_pathvar := PyNone;
                el_anchor := PyNone; el_show_as_anchor := PyNone;
                el_rewrite_flags := rewrite_flags;
                el_pathspec_trigger := PyNone |}.

(** Two entity sets [0] and [1], their conjunction [2], and the disjunction
    [3] whose only member is that conjunction. *)
Definition mixed_store : store :=
  Store [entity "A" None 0 1 2; entity "B" None 3 4 5;
         PathCombination Conjunction {[0; 1]};
         PathCombination Disjunction {[2]}]
        [∅; ∅; ∅; ∅; ∅; ∅].

(** An entity set [0] under three nested disjunctions [1], [2], [3]. *)
Definition nested_store : store :=
  Store [entity "A" None 0 1 2;
         PathCombination Disjunction {[0]};
         PathCombination Disjunction {[1]};
         PathCombination Disjunction {[2]}]
        [∅; ∅; ∅].

(** [Person -> owns -> Pet]: the root [Person] at [0], the link [owns] at
    [1], the leaf [Pet] at [2]; the sets of users hold [7], [8] and [9]. *)
Definition pet_store : store :=
  Store [entity "Person" None 0 1 2;
         link_to "owns" (Some 0) (Some 2) 3 4;
         entity "Pet" (Some 1) 5 6 7]
        [{[7]}; ∅; ∅; {[8]}; ∅; {[9]}; ∅; ∅].

(** The same, with the [None] object at [3]. *)
Definition pet_store_with_none : store :=
  Store (nodes pet_store ++ [Other]) (sets pet_store).

Definition extractor (reverse_ all_fragments_ : bool) : PathExtractor :=
  {| reverse := reverse_; resolve_arefs := true; recurse_subqueries := 0;
     all_fragments := all_fragments_; extract_subgraph_refs := false |}.

(** A query with a constant and a reference to a subquery: the full query
    expression at [0], the constant at [1], the subquery reference at [2]. *)
Definition query_store : store :=
  Store [GraphExpr; Constant; SubgraphRef 0] [].

(** [get_id] on the example stores: the [id] attribute of an entity set. *)
Definition id_attr (s : store) (r : ref) : outcome path_id :=
  match node_at s r with
  | EntitySet e => Done (es_id e)
  | BaseRef b => Done (br_id b)
  | _ => Fail AttributeError
  end.

End GraphSpec.

(** ** More vocabulary for type inference *)

Module InferSpec.
Import Infer.

(** The operator a rule key is about. *)
Definition rule_operator (k : rule_key) : operator :=
  match k with
  | Forward o | Reversed o => o
  end.

(** Two schemas that answer alike, except perhaps for the type rules of
    [op]. *)
Record same_but_rules_of (op : operator) (s1 s2 : Schema) : Prop := {
  same_schema_get : ∀ name, schema_get s1 name = schema_get s2 name;
  same_resolve_pointer :
    ∀ c name, resolve_pointer s1 c name = resolve_pointer s2 c name;
  same_getptr : ∀ l name, getptr s1 l name = getptr s2 l name;
  same_nearest :
    ∀ ts, nearest_common_ancestor s1 ts = nearest_common_ancestor s2 ts;
  same_returntype : ∀ f, returntype s1 f = returntype s2 f;
  same_from_subtypes : ∀ m ts, from_subtypes s1 m ts = from_subtypes s2 m ts;
  same_get_result :
    ∀ k args, rule_operator k ≠ op → get_result s1 k args = get_result s2 k args
}.

(** The shapes that only pass on the type of one inner expression. *)
Inductive passes_type : ir → ir → Prop :=
| passes_AtomicRefExpr e : passes_type (AtomicRefExpr e) e
| passes_LinkPropRefExpr e : passes_type (LinkPropRefExpr e) e
| passes_SubgraphRef e : passes_type (SubgraphRef e) e
| passes_Constant e t i : passes_type (Constant (Some e) t i) e
| passes_PathCombination c e ps : passes_type (PathCombination c (e :: ps)) e
| passes_GraphExpr g e grp srt :
    passes_type (GraphExpr g [SelectorExpr e] grp srt) e.

(** *** Example data *)

(** [name + 1 > $1], [age + $0]: the parameter [0] sits under an arithmetic
    operator and gets the type of [age]. *)
Definition arithmetic_tree : ir :=
  BinOp (AtomicRefSimple person "age") plus (param 0).

(** A tree whose second scanned operator is unsupported: its class is none of
    those [infer_arg_types] knows. *)
Definition odd_operator : operator :=
  {| op_name := "??"; is_ComparisonOperator := false;
     is_TypeCheckOperator := false; is_MembershipOperator := false;
     is_ArithmeticOperator := false; is_BooleanOperator := false;
     is_EdgeDBMatchOperator := false |}.

Definition unsupported_tree : ir :=
  BinOp (BinOp (AtomicRefSimple person "age") gt (param 0)) and_
        (BinOp (AtomicRefSimple person "name") odd_operator (param 1)).

(** [name ?? $1 and (age > $0 and name = $0)]: the parameter [0] gets two
    types, after an operator of an unsupported class.
    [(age > $0 and name = $0) and name ?? $1]: the same, with the unsupported
    operator last. *)
Definition masked_conflict_tree : ir :=
  BinOp (BinOp (AtomicRefSimple person "name") odd_operator (param 1)) and_
        ambiguous_tree.

Definition conflict_first_tree : ir :=
  BinOp ambiguous_tree and_
        (BinOp (AtomicRefSimple person "name") odd_operator (param 1)).

(** The scan of [find_in_tree] in the opposite order. *)
Definition find_in_tree_rev (tree : ir) (test : ir → bool) : list ir :=
  reverse (find_in_tree tree test).

End InferSpec.

(** ** Building and printing path identities *)

Module PathId.
Import Linear.

(** An expression of the query-building layer, as far as
    [walk_path_towards_root] looks at it: its concept
    ([step.__sx_prototype__], known by its name), the link direction of its
    class ([step._class_metadata.link_direction]) and what [step.as_link()]
    returns: [None] ([SxRoot]), or a link with its prototype
    ([link.__sx_prototype__]) and its [source], which is another expression
    ([SxStep]) or [None] ([SxLoose]). *)
Inductive sx :=
| SxRoot (prototype : string) (dir : direction)
| SxLoose (prototype : string) (dir : direction) (l : link)
| SxStep (prototype : string) (dir : direction) (l : link) (source : sx).

Definition sx_prototype (e : sx) : string :=
  match e with
  | SxRoot c _ | SxLoose c _ _ | SxStep c _ _ _ => c
  end.

(** [walk_path_towards_root(expr, trail)]; [None] for [expr] ends the loop at
    once.  The arguments of [trail.add] are evaluated before the call, so a
    link without source raises on [link.source.__sx_prototype__]. *)
Fixpoint walk_steps (step : sx) (trail : LinearPath) : result LinearPath :=
  match step with
  | SxRoot _ _ => Ok trail
  | SxLoose _ _ _ => Raise AttributeError
  | SxStep _ direction_ link_proto source =>
      trail' ← add trail link_proto direction_ (Node (sx_prototype source));
      walk_steps source trail'
  end.

Definition walk_path_towards_root (expr : option sx) (trail : LinearPath)
  : result LinearPath :=
  match expr with
  | Some step => walk_steps step trail
  | None => Ok trail
  end.

(** [x.name] on an element of a path. *)
Definition item_name (x : item) : result string :=
  match x with
  | Node c => Ok c
  | Null | Step _ _ => Raise AttributeError
  end.

(** [get_path_id(node, join)] *)
Definition get_path_id (node : sx) (join : option (string → option sx))
  : result LinearPath :=
  path ← walk_path_towards_root (Some node) [Node (sx_prototype node)];
  path ← match join with
          | Some join_ =>
              name ← item_name (List.last path Null);
              walk_path_towards_root (join_ name) path
          | None => Ok path
          end;
  Ok (reverse path).

(** [LinearPath.__str__].  [direction_str] is the text of a direction in a
    ['%s'] format; subscripting a concept or [None] raises [TypeError]. *)
Definition step_parts (x : item) : result (link * direction) :=
  match x with
  | Step l d => Ok (l, d)
  | _ => Raise TypeError
  end.

Definition concept_text (direction_str : direction → string) (x : item)
  : string :=
  match x with
  | Null => "NULL"
  | Step l d => link_name l +:+ "(" +:+ direction_str d +:+ ")"
  | Node c => c
  end.

Fixpoint str_loop (direction_str : direction → string) (self : LinearPath)
    (indices : list nat) (result_ : string) : result string :=
  match indices with
  | [] => Ok result_
  | i :: indices' =>
      '(l, d) ← match self !! i with
                | Some x => step_parts x
                | None => Raise IndexError
                end;
      concept ← match self !! (i + 1) with
                 | Some x => Ok (concept_text direction_str x)
                 | None => Raise IndexError
                 end;
      str_loop direction_str self indices'
        (result_ +:+ "[" +:+ direction_str d +:+ link_name l +:+ "]" +:+ concept)
  end.

Definition LinearPath_str (direction_str : direction → string)
    (self : LinearPath) : result string :=
  match self with
  | [] => Ok ""
  | first :: _ =>
      name ← item_name first;
      str_loop direction_str self (range_step 1 (length self - 1) 2) name
  end.

(** The link [add] stores for [l]: [l] itself when it is generic, else its
    first base; none when [l.bases[0]] raises. *)
Definition stored_link (l : link) : option link :=
  if generic l then Some l else head (bases l).

(** *** Example data *)

(** [Person] reached from [Pet] through the specialised link
    [Person.owns]. *)
Definition person_sx : sx := SxRoot "Person" Outbound.
Definition pet_sx : sx := SxStep "Pet" Outbound person_owns person_sx.
Definition toy_sx : sx := SxStep "Toy" Inbound likes pet_sx.

Definition arrow (d : direction) : string :=
  match d with
  | Outbound => ">"
  | Inbound => "<"
  end.

End PathId.

(** ** [PathIndex]: insertion and merging *)

Module Index.
Import Linear Graph.

(** What [__setitem__] may be given as a value: a set of nodes, or a single
    node. *)
Inductive index_value :=
| ASet (v : gset ref)
| ANode (r : ref).

(** [if not isinstance(value, set): value = {value}] *)
Definition as_set (value : index_value) : gset ref :=
  match value with
  | ASet v => v
  | ANode r => {[r]}
  end.

(** [PathIndex.__setitem__(key, value)] *)
Definition PathIndex_setitem_value (idx : PathIndex) (key : path_id)
    (value : index_value) : outcome PathIndex :=
  PathIndex_setitem idx key (as_set value).

(** An index as [update] sees it: every key with the set object that is its
    value.  The sets are objects of the store, so two keys, or two indices,
    can hold one and the same set. *)
Definition PathIndexObj := list (path_id * ref).

Fixpoint obj_get (idx : PathIndexObj) (k : path_id) : option ref :=
  match idx with
  | [] => None
  | (k', v) :: idx' => if decide (k' = k) then Some v else obj_get idx' k
  end.

Fixpoint obj_put (idx : PathIndexObj) (k : path_id) (v : ref) : PathIndexObj :=
  match idx with
  | [] => [(k, v)]
  | (k', v') :: idx' =>
      if decide (k' = k) then (k', v) :: idx' else (k', v') :: obj_put idx' k v
  end.

(** [x.update(v)] on a set [x], with the set [v]. *)
Definition set_update (r v : ref) : M unit :=
  λ s, Done ((), Store (nodes s) (<[r := set_at s r ∪ set_at s v]> (sets s))).

(** [PathIndex.__setitem__(key, value)] with a value that is a set: the set
    object itself becomes the value, it is not copied. *)
Definition PathIndex_setitem_obj (idx : PathIndexObj) (key : path_id)
    (value : ref) : M PathIndexObj :=
  match key with
  | IdPath _ | IdStr _ => mret (obj_put idx key value)
  | _ => raise TypeError
  end.

(** [PathIndex.update(other)]: [other.items()] is listed in iteration order,
    its values being sets.  A key already present has its set object extended
    in place, a new key goes through [__setitem__], which stores the set
    object of [other]. *)
Definition PathIndex_update (self other : PathIndexObj) : M PathIndexObj :=
  for_in other
    (λ (self : PathIndexObj) '(k, v),
       match obj_get self k with
       | Some current => set_update current v;; mret self
       | None => PathIndex_setitem_obj self k v
       end)
    self.

(** The nodes [idx] holds under [k], in the store [s]. *)
Definition contents (s : store) (idx : PathIndexObj) (k : path_id)
  : option (gset ref) :=
  set_at s <$> obj_get idx k.

(** [isinstance(key, (LinearPath, str))] *)
Definition valid_key (k : path_id) : bool :=
  match k with
  | IdPath _ | IdStr _ => true
  | _ => false
  end.

(** The union of two optional sets. *)
Definition merge (a b : option (gset ref)) : option (gset ref) :=
  match a, b with
  | Some x, Some y => Some (x ∪ y)
  | Some x, None => Some x
  | None, b => b
  end.

(** *** Example data *)

(** Two set objects: [{7}] at [0] and [{5}] at [1]. *)
Definition two_sets : store := Store [] [{[7]}; {[5]}].

(** Three set objects: [{0}] at [0], [{5}] at [1] and [{2}] at [2]. *)
Definition three_sets : store := Store [] [{[0]}; {[5]}; {[2]}].

End Index.

(** ** More of the path utilities: [visit_EntityLink] and [extend_binop] *)

Module GraphMore.
Import Linear Graph GraphSpec Index.

(** The loop [while result.rlink: result = result.rlink.source] of
    [visit_EntityLink].  A link without source makes [result] [None], and the
    next test of the loop raises. *)
Fixpoint to_root (fuel : nat) (result : ref) {struct fuel} : M ref :=
  match fuel with
  | 0 => out_of_fuel
  | S fuel' =>
      n ← get_node result;
      rlink ← attr_rlink n;
      match rlink with
      | None => mret result
      | Some l =>
          ln ← get_node l;
          source ← attr_source ln;
          match source with
          | None => raise AttributeError
          | Some result' => to_root fuel' result'
          end
      end
  end.

(** [PathExtractor.visit_EntityLink] *)
Definition visit_EntityLink (fuel : nat) (self : PathExtractor) (path : ref)
  : M ref :=
  if reverse self then
    n ← get_node path;
    source ← attr_source n;
    match source with
    | Some src => to_root fuel src
    | None => mret path
    end
  else mret path.

(** [extend_binop(binop, *exprs, op, reversed, cls)].  In [binop or
    exprs.pop(0)] a node counts as true and [None] as false.  [cls] is called
    with keywords, so it is a function of [left], [op] and [right]; [expr is
    not binop] compares identities, that is, references. *)
Definition extend_binop (cls : ref → string → ref → node)
    (binop : option ref) (exprs : list ref) (op : string) (reversed : bool)
  : M ref :=
  '(binop, exprs) ← match binop with
                    | Some b => mret (b, exprs)
                    | None =>
                        match exprs with
                        | e :: rest => mret (e, rest)
                        | [] => raise IndexError
                        end
                    end;
  for_in exprs
    (λ (binop : ref) (expr : ref),
       if decide (expr ≠ binop) then
         if reversed then alloc (cls expr op binop)
         else alloc (cls binop op expr)
       else mret binop)
    binop.

(** *** Vocabulary *)

(** [path] and its [ancestors] are entity sets. *)
Definition is_EntitySet (n : node) : bool :=
  match n with
  | EntitySet _ => true
  | _ => false
  end.

(** The expression a reference stands for, over the nodes that existed
    before a call (those below [old]), which are its leaves. *)
Inductive tree :=
| Leaf (r : ref)
| Bin (lhs : tree) (op : string) (rhs : tree).

Inductive denotes (s : store) (old : nat) : ref → tree → Prop :=
| denotes_leaf r :
    r < old → denotes s old r (Leaf r)
| denotes_bin r lhs op rhs tl tr :
    old ≤ r →
    node_at s r = BinOp lhs op rhs →
    denotes s old lhs tl →
    denotes s old rhs tr →
    denotes s old r (Bin tl op tr).

(** The chain [((first op e1) op e2) ...], or [... (e2 op (e1 op first))]
    when reversed. *)
Definition chain (op : string) (reversed : bool) (first : ref)
    (rest : list ref) : tree :=
  foldl (λ acc e, if reversed then Bin (Leaf e) op acc
                  else Bin acc op (Leaf e))
        (Leaf first) rest.

(** [exprs] without its leading occurrences of [b]. *)
Fixpoint skip_same (b : ref) (exprs : list ref) : list ref :=
  match exprs with
  | e :: rest => if decide (e = b) then skip_same b rest else exprs
  | [] => []
  end.

(** Every entry of [p] is in [p'], with at least the same nodes. *)
Definition index_le (p p' : PathIndex) : Prop :=
  ∀ k v, index_get p k = Some v →
         ∃ v', index_get p' k = Some v' ∧ v ⊆ v'.

(** [s'] is [s] with more nodes and more sets: what [s] holds is as it
    was. *)
Definition extends (s s' : store) : Prop :=
  length (nodes s) ≤ length (nodes s') ∧
  length (sets s) ≤ length (sets s') ∧
  (∀ x, x < length (nodes s) → node_at s' x = node_at s x) ∧
  (∀ y, y < length (sets s) → set_at s' y = set_at s y).

(** From [s] to [s'] the nodes below [base] and all the sets are kept. *)
Definition keeps_below (base : nat) (s s' : store) : Prop :=
  length (nodes s) ≤ length (nodes s') ∧
  length (sets s) ≤ length (sets s') ∧
  (∀ x, x < base → node_at s' x = node_at s x) ∧
  (∀ y, y < length (sets s) → set_at s' y = set_at s y).

(** The set of rewrite flags of the entity set [x] is in the store. *)
Definition flags_allocated (s : store) (x : ref) : Prop :=
  match node_at s x with
  | EntitySet e => es_rewrite_flags e < length (sets s)
  | _ => True
  end.

(** [x'] is, in [s'], a copy of the entity set [x] of [s] made by a call
    that started in [s]: a new node with the identity and the concept of
    [x], holding the very sets of users and joins of [x] and a new set of
    rewrite flags with the elements of that of [x]; its origin is the origin
    of [x], or [x] itself, when the copy is connected to its origin. *)
Definition copy_of (connect_to_origin : bool) (s s' : store) (x x' : ref)
  : Prop :=
  ∃ e e',
    node_at s x = EntitySet e ∧
    node_at s' x' = EntitySet e' ∧
    length (nodes s) ≤ x' ∧
    es_id e' = es_id e ∧
    es_concept e' = es_concept e ∧
    es_users e' = es_users e ∧
    es_joins e' = es_joins e ∧
    length (sets s) ≤ es_rewrite_flags e' ∧
    set_at s' (es_rewrite_flags e') = set_at s (es_rewrite_flags e) ∧
    es_origin e' = (if connect_to_origin
                    then Some (default x (es_origin e))
                    else None).

(** *** Example data *)

(** Three constants. *)
Definition operand_store : store := Store [Constant; Constant; Constant] [].

(** [Person -> owns -> Pet -> likes -> Toy]: the store of the pets with the
    link [likes] at [3] and the leaf [Toy] at [4]. *)
Definition toy_store : store :=
  Store [entity "Person" None 0 1 2;
         link_to "owns" (Some 0) (Some 2) 3 4;
         entity "Pet" (Some 1) 5 6 7;
         link_to "likes" (Some 2) (Some 4) 8 9;
         entity "Toy" (Some 3) 10 11 12]
        [{[7]}; ∅; ∅; {[8]}; ∅; {[9]}; ∅; ∅; ∅; ∅; ∅; ∅; ∅].

End GraphMore.

(** ** Vocabulary for path identities with a join point *)

Module PathJoin.
Import Linear PathId.

(** The concept the walk from [e] ends on: that of the expression without
    link at the end of the [source] chain; none when the chain ends on a link
    without source. *)
Fixpoint sx_root (e : sx) : option string :=
  match e with
  | SxRoot c _ => Some c
  | SxLoose _ _ _ => None
  | SxStep _ _ _ source => sx_root source
  end.

(** *** Example data *)

(** A query over [Person] is joined below [Company -> employs -> Person]. *)
Definition employs : link := Link "employs" true [std_link].
Definition company_sx : sx := SxRoot "Company" Outbound.
Definition employee_sx : sx := SxStep "Person" Outbound employs company_sx.

Definition join_person (name : string) : option sx :=
  if decide (name = "Person") then Some employee_sx else None.

End PathJoin.


(** * Facts about type inference *)

Module InferFacts.
Import Infer.

Lemma result_bind_Ok {A B} (f : A → result B) (m : result A) (b : B) :
  m ≫= f = Ok b → ∃ a, m = Ok a ∧ f a = Ok b.
Proof. destruct m as [a|e]; [eauto | discriminate]. Qed.

(** Every call of [infer_type] ends in the closing check. *)
Lemma infer_type_checked schema n :
  ∃ m, infer_type schema n = m ≫= check_result.
Proof. destruct n; eexists; reflexivity. Qed.

Lemma check_result_Ok r v : check_result r = Ok v → v = r ∧ acceptable v.
Proof.
  unfold check_result, acceptable.
  destruct r as [|name|t|items|tag]; simpl; intros H;
    try (injection H as <-; auto; fail); try discriminate.
  destruct (items !! 1) as [x|] eqn:Hx; [|discriminate].
  destruct (is_prototype x) eqn:Hp; [|discriminate].
  injection H as <-. split; [done|]. right; right. eauto.
Qed.

(** The post-condition of [infer_type]: what it returns is [None], a
    prototype, or a tuple or list with a prototype at position 1. *)
Lemma infer_type_acceptable schema n v :
  infer_type schema n = Ok v → acceptable v.
Proof.
  destruct (infer_type_checked schema n) as [m ->].
  intros (r & _ & H)%result_bind_Ok. by apply check_result_Ok in H as [_ ?].
Qed.

(** What the closing check does with a result it does not let through: the
    assertion fails, except on a tuple or list with fewer than two elements,
    where evaluating [result[1]] raises [IndexError] first. *)
Lemma check_result_rejects r :
  ¬ acceptable r →
  check_result r = Raise (AssertionError NotAPrototype) ∨
  (∃ items, r = PySeq items ∧ length items < 2 ∧ check_result r = Raise IndexError).
Proof.
  unfold acceptable, check_result. intros Hn.
  destruct r as [|name|t|items|tag]; simpl in *; try tauto.
  destruct (items !! 1) as [x|] eqn:Hx.
  - destruct (is_prototype x) eqn:Hp; [|by left].
    exfalso. apply Hn. right; right; eauto.
  - right. exists items. apply lookup_ge_None in Hx. split_and!; [done|lia|done].
Qed.

(** *** The reversed-operator fallback *)

Lemma infer_type_BinOp schema A op B :
  bool_like_operator op = false →
  infer_type schema (BinOp A op B) =
    (left_type ← infer_type schema A;
     right_type ← infer_type schema B;
     match get_result schema (Forward op) [left_type; right_type] with
     | PyNone => Ok (get_result schema (Reversed op) [right_type; left_type])
     | res => Ok res
     end) ≫= check_result.
Proof. intros H. cbn [infer_type]. by rewrite H. Qed.

(** With only a reversed rule, [A op B] gets the type the reversed rule gives
    for the operand types in swapped order. *)
Lemma infer_type_reversed_only schema A op B tA tB :
  bool_like_operator op = false →
  only_reversed schema op →
  infer_type schema A = Ok tA →
  infer_type schema B = Ok tB →
  infer_type schema (BinOp A op B)
    = check_result (get_result schema (Reversed op) [tB; tA]).
Proof.
  intros Hop Hrev HA HB. rewrite infer_type_BinOp, HA, HB by done.
  simpl. by rewrite Hrev.
Qed.

(** The same expression with its operands exchanged, under the table with the
    rule direction of [op] swapped. *)
Lemma infer_type_swapped schema A op B tA tB :
  bool_like_operator op = false →
  only_reversed schema op →
  infer_type (swap_direction op schema) A = Ok tA →
  infer_type (swap_direction op schema) B = Ok tB →
  infer_type (swap_direction op schema) (BinOp B op A)
    = check_result (get_result schema (Reversed op) [tB; tA]).
Proof.
  intros Hop Hrev HA HB. rewrite infer_type_BinOp, HA, HB by done.
  simpl. rewrite !decide_True by done. rewrite Hrev.
  by destruct (get_result schema (Reversed op) [tB; tA]).
Qed.

(** C4 (counterexample).  The equation fails for operands that themselves
    use [op]: with the rules above, [(1 + 's') + 1] has type [int] while
    [1 + (1 + 's')] has no type in the table with the direction swapped. *)
Lemma C4_counterexample :
  ¬ (∀ schema op A B,
       bool_like_operator op = false →
       only_reversed schema op →
       infer_type schema (BinOp A op B)
         = infer_type (swap_direction op schema) (BinOp B op A)).
Proof.
  intros H.
  specialize (H (schema_with_rules asymmetric_rules) plus
                (BinOp int_const plus str_const) int_const eq_refl
                (λ _, eq_refl)).
  vm_compute in H. discriminate.
Qed.

(** Read without any change of table, the equation fails as soon as the
    reversed rule is not symmetric in its operand types. *)
Lemma reversed_fallback_not_commutative :
  infer_type (schema_with_rules asymmetric_rules) (BinOp int_const plus str_const)
    = Ok (Proto "str") ∧
  infer_type (schema_with_rules asymmetric_rules) (BinOp str_const plus int_const)
    = Ok (Proto "int").
Proof. by vm_compute. Qed.

(** C4 (amended).  For an operator that is no comparison, type check or
    membership test and has only a reversed rule, and operands whose own
    types are [tA] and [tB] in the table and in the table with the direction
    of [op] swapped: [A op B] is typed by the reversed rule applied to
    [(tB, tA)], which is the type of [B op A] once the rule direction is
    swapped. *)
Theorem C4_reversed_operator_fallback schema op A B tA tB :
  bool_like_operator op = false →
  only_reversed schema op →
  infer_type schema A = Ok tA →
  infer_type schema B = Ok tB →
  infer_type (swap_direction op schema) A = Ok tA →
  infer_type (swap_direction op schema) B = Ok tB →
  infer_type schema (BinOp A op B)
    = check_result (get_result schema (Reversed op) [tB; tA]) ∧
  infer_type schema (BinOp A op B)
    = infer_type (swap_direction op schema) (BinOp B op A).
Proof.
  intros Hop Hrev HA HB HA' HB'.
  rewrite (infer_type_reversed_only schema A op B tA tB) by done.
  by rewrite (infer_type_swapped schema A op B tA tB).
Qed.

Lemma C4_reversed_operator_fallback_witness :
  infer_type (schema_with_rules asymmetric_rules) (BinOp int_const plus str_const)
    = check_result (Proto "str") ∧
  infer_type (schema_with_rules asymmetric_rules) (BinOp int_const plus str_const)
    = infer_type (swap_direction plus (schema_with_rules asymmetric_rules))
        (BinOp str_const plus int_const).
Proof.
  apply (C4_reversed_operator_fallback (schema_with_rules asymmetric_rules) plus
           int_const str_const (Proto "int") (Proto "str"));
    first [reflexivity | intros ?; reflexivity].
Defined.

(** Induction along the recursive calls of [infer_type]. *)
Lemma infer_type_ind (P : ir → Prop) :
  (∀ e, P e → P (AtomicRefExpr e)) →
  (∀ e, P e → P (LinkPropRefExpr e)) →
  (∀ e t i, P e → P (Constant (Some e) t i)) →
  (∀ l op r, P l → P r → P (BinOp l op r)) →
  (∀ op e, P e → P (UnaryOp op e)) →
  (∀ c p ps, P p → P (PathCombination c (p :: ps))) →
  (∀ g e grp srt, P e → P (GraphExpr g [SelectorExpr e] grp srt)) →
  (∀ r, P r → P (SubgraphRef r)) →
  (∀ n, no_subcall n → P n) →
  ∀ n, P n.
Proof.
  intros H1 H2 H3 H4 H5 H6 H7 H8 H0.
  fix IH 1. intros n.
  refine (match n with
          | AtomicRefExpr e => H1 e (IH e)
          | LinkPropRefExpr e => H2 e (IH e)
          | Constant (Some e) t i => H3 e t i (IH e)
          | BinOp l op r => H4 l op r (IH l) (IH r)
          | UnaryOp op e => H5 op e (IH e)
          | PathCombination c (p :: ps) => H6 c p ps (IH p)
          | GraphExpr g [SelectorExpr e] grp srt => H7 g e grp srt (IH e)
          | SubgraphRef r => H8 r (IH r)
          | n' => H0 n' _
          end); exact I.
Qed.

Lemma check_result_acceptable v : acceptable v → check_result v = Ok v.
Proof.
  intros [->|[Hp|(items & x & -> & Hx & Hp)]]; [done| |].
  - by destruct v.
  - unfold check_result. by rewrite Hx, Hp.
Qed.












(** C9 (evaluation at the failing input).  A constant whose declared type is a
    one-element tuple makes the inferred result a non-null value that is
    neither a type handle nor a sequence with a type handle at position 1;
    [infer_type] then raises [IndexError] out of the asserted condition
    instead of failing the assertion. *)
Theorem C9_short_sequence_escapes_assertion schema :
  ¬ acceptable (PySeq [Proto "std::int"]) ∧
  infer_type schema (Constant None (PySeq [Proto "std::int"]) None)
    = Raise IndexError.
Proof.
  split; [|reflexivity].
  intros [H|[H|(items & x & H & Hx & _)]]; try discriminate.
  injection H as <-. discriminate.
Qed.

Lemma op_free_incl op n m :
  op_free op n → m :: descendants m ⊆ n :: descendants n → op_free op m.
Proof. intros Hn Hsub k Hk. apply Hn, Hsub, Hk. Qed.

Lemma op_free_head op n : op_free op n → operator_of n ≠ Some op.
Proof. intros H. apply H. by left. Qed.

Local Ltac child_free Hf :=
  apply (op_free_incl _ _ _ Hf); cbn [descendants flat_map];
  intros k Hk;
  repeat first [rewrite elem_of_cons in Hk | rewrite elem_of_app in Hk];
  repeat first [rewrite elem_of_cons | rewrite elem_of_app]; tauto.

(** Operands in which [op] does not occur are typed alike whichever way the
    rules of [op] are registered. *)
Lemma swap_direction_op_free op schema n :
  op_free op n →
  infer_type (swap_direction op schema) n = infer_type schema n.
Proof.
  induction n using infer_type_ind; intros Hfree; cbn [infer_type].
  - rewrite IHn; [done | child_free Hfree].
  - rewrite IHn; [done | child_free Hfree].
  - rewrite IHn; [done | child_free Hfree].
  - destruct (bool_like_operator op0); [done|].
    rewrite IHn1, IHn2 by child_free Hfree.
    apply op_free_head in Hfree. cbn [operator_of] in Hfree.
    unfold swap_direction; cbn [get_result].
    destruct (decide (op0 = op)) as [->|]; [done|]. done.
  - rewrite IHn by child_free Hfree.
    apply op_free_head in Hfree. cbn [operator_of] in Hfree.
    unfold swap_direction; cbn [get_result].
    destruct (decide (op0 = op)) as [->|]; [done|]. done.
  - rewrite IHn; [done | child_free Hfree].
  - rewrite IHn; [done | child_free Hfree].
  - rewrite IHn; [done | child_free Hfree].
  - clear Hfree. destruct n; try done; simpl in *; repeat case_match; done.
Qed.

(** For operands free of [op] the side conditions on the swapped table come
    for free. *)
Lemma reversed_fallback_op_free schema op A B tA tB :
  bool_like_operator op = false →
  only_reversed schema op →
  op_free op A → op_free op B →
  infer_type schema A = Ok tA →
  infer_type schema B = Ok tB →
  infer_type schema (BinOp A op B)
    = infer_type (swap_direction op schema) (BinOp B op A).
Proof.
  intros Hop Hrev HfA HfB HA HB.
  rewrite (infer_type_reversed_only schema A op B tA tB) by done.
  rewrite (infer_type_swapped schema A op B tA tB); try done.
  - by rewrite swap_direction_op_free.
  - by rewrite swap_direction_op_free.
Qed.

(** *** [infer_arg_types] *)

Lemma record_arg_Ok m i t m' :
  record_arg m i t = Ok m' →
  m' !! i = Some t ∧ ∀ j v, m !! j = Some v → m' !! j = Some v.
Proof.
  unfold record_arg. destruct (m !! i) as [existing|] eqn:Hi.
  - case_decide as Hne; [discriminate|]. intros [= <-]. subst. auto.
  - intros [= <-]. split; [apply lookup_insert_eq|].
    intros j v Hj. rewrite lookup_insert_ne; [done|congruence].
Qed.

Lemma record_arg_Ok_inv m i t m' k v :
  record_arg m i t = Ok m' →
  m' !! k = Some v →
  (k = i ∧ v = t) ∨ m !! k = Some v.
Proof.
  unfold record_arg. destruct (m !! i) as [existing|] eqn:Hi.
  - case_decide; [discriminate|]. intros [= <-]. auto.
  - intros [= <-]. destruct (decide (k = i)) as [->|Hne].
    + rewrite lookup_insert_eq. intros [= <-]. auto.
    + rewrite lookup_insert_ne by done. auto.
Qed.

Lemma record_arg_Raise m i t e :
  record_arg m i t = Raise e →
  ∃ existing, m !! i = Some existing ∧ existing ≠ t ∧
              e = ValueError (AmbiguousResolution existing t).
Proof.
  unfold record_arg. destruct (m !! i) as [existing|] eqn:Hi; [|discriminate].
  case_decide; [|discriminate]. intros [= <-]. eauto.
Qed.

(** A mapping the loop returns keeps what was recorded before ... *)
Lemma infer_arg_loop_keeps schema ops m m' :
  infer_arg_loop schema ops m = Ok m' →
  ∀ j v, m !! j = Some v → m' !! j = Some v.
Proof.
  revert m. induction ops as [|b ops IH]; intros m; simpl.
  - by intros [= <-].
  - destruct (arg_occurrence schema b) as [[[i t]|]|e]; simpl; [| by apply IH | done].
    destruct (record_arg m i t) as [m1|e] eqn:Hrec; simpl; [|done].
    intros Hloop j v Hj. apply (IH _ Hloop).
    by apply (proj2 (record_arg_Ok _ _ _ _ Hrec)).
Qed.

(** ... and holds, for every scanned operator, the type inferred there. *)
Lemma infer_arg_loop_lookup schema ops m m' b k t :
  infer_arg_loop schema ops m = Ok m' →
  b ∈ ops →
  arg_occurrence schema b = Ok (Some (k, t)) →
  m' !! k = Some t.
Proof.
  revert m. induction ops as [|b0 ops IH]; intros m; simpl.
  - by intros _ ?%elem_of_nil.
  - intros Hloop [->|Hin]%elem_of_cons Hocc.
    + rewrite Hocc in Hloop. simpl in Hloop.
      destruct (record_arg m k t) as [m1|e] eqn:Hrec; simpl in Hloop; [|done].
      apply (infer_arg_loop_keeps _ _ _ _ Hloop).
      apply (proj1 (record_arg_Ok _ _ _ _ Hrec)).
    + destruct (arg_occurrence schema b0) as [[[i t0]|]|e]; simpl in Hloop;
        [| by eapply IH | done].
      destruct (record_arg m i t0) as [m1|e]; simpl in Hloop; [|done].
      by eapply IH.
Qed.

(** Two different types for one index: no mapping is returned, whatever else
    the tree holds. *)
Lemma infer_arg_types_conflict_raises find_children schema tree b1 b2 k t1 t2 :
  b1 ∈ find_children tree flt →
  b2 ∈ find_children tree flt →
  arg_occurrence schema b1 = Ok (Some (k, t1)) →
  arg_occurrence schema b2 = Ok (Some (k, t2)) →
  t1 ≠ t2 →
  ∃ e, infer_arg_types find_children schema tree = Raise e.
Proof.
  intros H1 H2 Ho1 Ho2 Hne. unfold infer_arg_types.
  destruct (infer_arg_loop _ _ _) as [m|e] eqn:Hloop; [|eauto].
  pose proof (infer_arg_loop_lookup _ _ _ _ _ _ _ Hloop H1 Ho1).
  pose proof (infer_arg_loop_lookup _ _ _ _ _ _ _ Hloop H2 Ho2).
  congruence.
Qed.

(** When every scanned operator gets a type, the only error left is the
    conflict, and it names two different types inferred for one index. *)
Lemma infer_arg_loop_error schema ops m e :
  Forall (λ b, ∃ o, arg_occurrence schema b = Ok o) ops →
  infer_arg_loop schema ops m = Raise e →
  ∃ b k existing typ,
    e = ValueError (AmbiguousResolution existing typ) ∧ existing ≠ typ ∧
    b ∈ ops ∧ arg_occurrence schema b = Ok (Some (k, typ)) ∧
    (m !! k = Some existing ∨
     ∃ b', b' ∈ ops ∧ arg_occurrence schema b' = Ok (Some (k, existing))).
Proof.
  intros Hall. revert m.
  induction Hall as [|b ops [o Ho] Hall IH]; intros m; simpl; [done|].
  rewrite Ho. simpl. destruct o as [[i t]|].
  - destruct (record_arg m i t) as [m1|e1] eqn:Hrec; simpl.
    + intros (b' & k & ex & typ & -> & Hne & Hin & Hocc & Hex)%IH.
      exists b', k, ex, typ. split_and!; [done|done|by right|done|].
      destruct Hex as [Hm1|(b'' & ? & ?)]; [|right; exists b''; split; [by right|done]].
      destruct (record_arg_Ok_inv _ _ _ _ _ _ Hrec Hm1) as [[-> ->]|?]; [|by left].
      right. exists b. split; [by left|done].
    + intros [= <-]. apply record_arg_Raise in Hrec as (ex & Hm & Hne & ->).
      exists b, i, ex, t. split_and!; [done|done|by left|done|by left].
  - intros (b' & k & ex & typ & -> & Hne & Hin & Hocc & Hex)%IH.
    exists b', k, ex, typ. split_and!; [done|done|by right|done|].
    destruct Hex as [?|(b'' & ? & ?)]; [by left|].
    right. exists b''. split; [by right|done].
Qed.

(** Whatever a returned mapping holds was inferred at a scanned operator. *)
Lemma infer_arg_loop_source schema ops m m' k t :
  infer_arg_loop schema ops m = Ok m' →
  m' !! k = Some t →
  m !! k = Some t ∨
  ∃ b, b ∈ ops ∧ arg_occurrence schema b = Ok (Some (k, t)).
Proof.
  revert m. induction ops as [|b ops IH]; intros m; simpl.
  - intros [= <-]. auto.
  - destruct (arg_occurrence schema b) as [[[i t0]|]|e] eqn:Hocc; simpl; [| |done].
    + destruct (record_arg m i t0) as [m1|e] eqn:Hrec; simpl; [|done].
      intros Hloop Hk. destruct (IH _ Hloop Hk) as [Hm1|(b' & ? & ?)].
      * destruct (record_arg_Ok_inv _ _ _ _ _ _ Hrec Hm1) as [[-> ->]|?]; [|by left].
        right. exists b. split; [by left|done].
      * right. exists b'. split; [by right|done].
    + intros Hloop Hk. destruct (IH _ Hloop Hk) as [?|(b' & ? & ?)]; [by left|].
      right. exists b'. split; [by right|done].
Qed.

(** When every scanned operator gets a type and the types agree index by
    index, a mapping is returned. *)
Lemma infer_arg_types_agree find_children schema tree :
  Forall (λ b, ∃ o, arg_occurrence schema b = Ok o) (find_children tree flt) →
  (∀ b1 b2 k t1 t2,
     b1 ∈ find_children tree flt → b2 ∈ find_children tree flt →
     arg_occurrence schema b1 = Ok (Some (k, t1)) →
     arg_occurrence schema b2 = Ok (Some (k, t2)) → t1 = t2) →
  ∃ m, infer_arg_types find_children schema tree = Ok m.
Proof.
  intros Hall Hagree. unfold infer_arg_types.
  destruct (infer_arg_loop schema (find_children tree flt) ∅) as [m|e] eqn:Hloop;
    [eauto|].
  destruct (infer_arg_loop_error _ _ _ _ Hall Hloop)
    as (b & k & ex & typ & -> & Hne & Hin & Hocc & [Hempty|(b' & Hin' & Hocc')]).
  - by rewrite lookup_empty in Hempty.
  - destruct Hne. by apply (Hagree b' b k).
Qed.

Lemma infer_arg_loop_app schema ops1 ops2 m :
  infer_arg_loop schema (ops1 ++ ops2) m
    = infer_arg_loop schema ops1 m ≫= infer_arg_loop schema ops2.
Proof.
  revert m. induction ops1 as [|b ops1 IH]; intros m; simpl; [done|].
  destruct (arg_occurrence schema b) as [[[i t]|]|e]; simpl; [| by apply IH | done].
  destruct (record_arg m i t) as [m1|e]; simpl; [by apply IH|done].
Qed.

(** C8 (counterexample).  In [name ?? $1 and (age > $0 and name = $0)] the
    parameter [0] gets the type [std::int] at [age > $0] and the type
    [std::str] at [name = $0], two scanned operators; yet the error is not
    the ambiguous-resolution error: the scan meets the operator [??] first,
    and the call raises the unsupported-operator error. *)
Lemma C8_counterexample :
  BinOp (AtomicRefSimple person "age") gt (param 0)
    ∈ find_in_tree InferSpec.masked_conflict_tree flt ∧
  BinOp (AtomicRefSimple person "name") eq (param 0)
    ∈ find_in_tree InferSpec.masked_conflict_tree flt ∧
  arg_occurrence (schema_with_rules asymmetric_rules)
      (BinOp (AtomicRefSimple person "age") gt (param 0))
    = Ok (Some (0, Proto "std::int")) ∧
  arg_occurrence (schema_with_rules asymmetric_rules)
      (BinOp (AtomicRefSimple person "name") eq (param 0))
    = Ok (Some (0, Proto "std::str")) ∧
  Proto "std::int" ≠ Proto "std::str" ∧
  infer_arg_types find_in_tree (schema_with_rules asymmetric_rules)
      InferSpec.masked_conflict_tree
    = Raise (ValueError UnsupportedOperator).
Proof.
  split_and!.
  - vm_compute. right. by left.
  - vm_compute. right. right. by left.
  - reflexivity.
  - reflexivity.
  - discriminate.
  - reflexivity.
Qed.

(** C8 (amended).  Let the parameter index [k] get the type [t1] at one
    scanned operator and [t2] at another.  If the two types differ,
    [infer_arg_types] raises and returns no mapping.  The error is the
    ambiguous-resolution error naming [t1] and [t2] when the second of the
    two operators is the first place where the scan fails: every operator
    scanned before it gets a type, and these types agree index by index;
    what comes after it in the scan does not matter.  If a mapping is
    returned, the two types are the same and the mapping sends [k] to that
    type; and a mapping is returned whenever every scanned operator gets a
    type and the types agree index by index.  When an operator fails on its
    own and is the first place where the scan fails, its error is the one
    raised. *)
Theorem C8_ambiguous_parameter find_children schema tree b1 b2 k t1 t2 :
  b1 ∈ find_children tree flt →
  b2 ∈ find_children tree flt →
  arg_occurrence schema b1 = Ok (Some (k, t1)) →
  arg_occurrence schema b2 = Ok (Some (k, t2)) →
  (t1 ≠ t2 →
   (∃ e, infer_arg_types find_children schema tree = Raise e) ∧
   (∀ pre post,
      find_children tree flt = pre ++ b2 :: post →
      b1 ∈ pre →
      Forall (λ b, ∃ o, arg_occurrence schema b = Ok o) pre →
      (∀ c1 c2 i u1 u2,
         c1 ∈ pre → c2 ∈ pre →
         arg_occurrence schema c1 = Ok (Some (i, u1)) →
         arg_occurrence schema c2 = Ok (Some (i, u2)) → u1 = u2) →
      infer_arg_types find_children schema tree
        = Raise (ValueError (AmbiguousResolution t1 t2)))) ∧
  (∀ m, infer_arg_types find_children schema tree = Ok m →
        t1 = t2 ∧ m !! k = Some t1) ∧
  (Forall (λ b, ∃ o, arg_occurrence schema b = Ok o) (find_children tree flt) →
   (∀ c1 c2 i u1 u2,
      c1 ∈ find_children tree flt → c2 ∈ find_children tree flt →
      arg_occurrence schema c1 = Ok (Some (i, u1)) →
      arg_occurrence schema c2 = Ok (Some (i, u2)) → u1 = u2) →
   ∃ m, infer_arg_types find_children schema tree = Ok m ∧ m !! k = Some t1) ∧
  (∀ pre b post e,
     find_children tree flt = pre ++ b :: post →
     Forall (λ b, ∃ o, arg_occurrence schema b = Ok o) pre →
     (∀ c1 c2 i u1 u2,
        c1 ∈ pre → c2 ∈ pre →
        arg_occurrence schema c1 = Ok (Some (i, u1)) →
        arg_occurrence schema c2 = Ok (Some (i, u2)) → u1 = u2) →
     arg_occurrence schema b = Raise e →
     infer_arg_types find_children schema tree = Raise e).
Proof.
  intros H1 H2 Ho1 Ho2. split_and!.
  4:{ intros pre b post e Hscan Hall Hagree Hb.
      destruct (infer_arg_types_agree (λ _ _, pre) schema tree Hall Hagree)
        as [m Hm].
      unfold infer_arg_types in *. rewrite Hscan, infer_arg_loop_app, Hm.
      cbn [mbind result_mbind result_bind infer_arg_loop]. by rewrite Hb. }
  - intros Hne.
    split; [exact (infer_arg_types_conflict_raises _ _ _ _ _ _ _ _ H1 H2 Ho1 Ho2 Hne)|].
    intros pre post Hscan Hpre Hall Hagree.
    destruct (infer_arg_types_agree (λ _ _, pre) schema tree Hall Hagree)
      as [m Hm].
    unfold infer_arg_types in *. rewrite Hscan, infer_arg_loop_app, Hm.
    pose proof (infer_arg_loop_lookup _ _ _ _ _ _ _ Hm Hpre Ho1) as Hk.
    cbn [mbind result_mbind result_bind infer_arg_loop]. rewrite Ho2.
    cbn [mbind result_mbind result_bind]. unfold record_arg. rewrite Hk.
    by rewrite decide_True.
  - intros m Hm. unfold infer_arg_types in Hm.
    pose proof (infer_arg_loop_lookup _ _ _ _ _ _ _ Hm H1 Ho1) as Hk1.
    pose proof (infer_arg_loop_lookup _ _ _ _ _ _ _ Hm H2 Ho2) as Hk2.
    split; [congruence|done].
  - intros Hall Hagree.
    destruct (infer_arg_types_agree _ _ _ Hall Hagree) as [m Hm].
    exists m. split; [done|].
    by apply (infer_arg_loop_lookup _ _ _ _ _ _ _ Hm H1 Ho1).
Qed.

Lemma C8_ambiguous_parameter_witness :
  infer_arg_types find_in_tree (schema_with_rules asymmetric_rules)
      InferSpec.conflict_first_tree
    = Raise (ValueError (AmbiguousResolution (Proto "std::int") (Proto "std::str"))).
Proof.
  destruct (C8_ambiguous_parameter find_in_tree (schema_with_rules asymmetric_rules)
              InferSpec.conflict_first_tree
              (BinOp (AtomicRefSimple person "age") gt (param 0))
              (BinOp (AtomicRefSimple person "name") eq (param 0))
              0 (Proto "std::int") (Proto "std::str"))
    as [Hconflict _].
  - vm_compute. by left.
  - vm_compute. right. by left.
  - reflexivity.
  - reflexivity.
  - destruct Hconflict as [_ Herror]; [discriminate|].
    apply (Herror [BinOp (AtomicRefSimple person "age") gt (param 0)]
                  [BinOp (AtomicRefSimple person "name") InferSpec.odd_operator
                         (param 1)]).
    + reflexivity.
    + by left.
    + repeat constructor. by eexists.
    + intros c1 c2 i u1 u2 ->%list_elem_of_singleton ->%list_elem_of_singleton.
      congruence.
Defined.

(** The scenarios of the specification. *)
Example simple_comparison_is_bool :
  infer_type (schema_with_rules asymmetric_rules) simple_comparison
    = Ok (Proto "std::bool").
Proof. reflexivity. Qed.

Example membership_infers_set :
  infer_arg_types find_in_tree (schema_with_rules asymmetric_rules) membership_tree
    = Ok {[0 := SetType (Proto "std::int")]}.
Proof. by vm_compute. Qed.

Example agreeing_occurrences :
  infer_arg_types find_in_tree (schema_with_rules asymmetric_rules) agreeing_tree
    = Ok {[0 := Proto "std::int"]}.
Proof. by vm_compute. Qed.

End InferFacts.

(** * Facts about [LinearPath] *)

Module LinearFacts.
Import Linear.

Lemma elem_of_odd_indices i stop :
  i ∈ range_step 1 stop 2 ↔ (∃ k, i = 1 + 2 * k) ∧ i < stop.
Proof.
  unfold range_step. rewrite list_elem_of_fmap. split.
  - intros (k & -> & Hk). apply elem_of_seq in Hk. split; [eauto|].
    assert (stop - 1 + (2 - 1) = stop - 1 + 1) as Heq by lia.
    rewrite Heq in Hk. clear Heq.
    pose proof (Nat.div_mod_eq (stop - 1 + 1) 2).
    pose proof (Nat.mod_upper_bound (stop - 1 + 1) 2). lia.
  - intros [[k ->] Hlt]. exists k. split; [done|]. apply elem_of_seq.
    pose proof (Nat.div_mod_eq (stop - 1 + (2 - 1)) 2).
    pose proof (Nat.mod_upper_bound (stop - 1 + (2 - 1)) 2). lia.
Qed.

Lemma eq_loop_true self other indices :
  eq_loop self other indices = true ↔
  ∀ i, i ∈ indices →
       self !! i = other !! i ∧ self !! (i + 1) = other !! (i + 1).
Proof.
  induction indices as [|i indices IH]; simpl.
  - split; [|done]. by intros _ i ?%elem_of_nil.
  - case_bool_decide as Hi.
    { split; [done|]. intros Hall. destruct (Hall i) as [? _]; [by left|done]. }
    case_bool_decide as Hi'.
    { split; [done|]. intros Hall. destruct (Hall i) as [_ ?]; [by left|done]. }
    rewrite IH. split.
    + intros Hall j [->|?]%elem_of_cons; [|by apply Hall].
      by split.
    + intros Hall j Hj. apply Hall. by right.
Qed.

(** The exact extent of [__eq__]: equal lengths, and equal elements at the
    positions it compares. *)
Lemma LinearPath_eq_true self other :
  LinearPath_eq self other = true ↔
  length self = length other ∧
  ∀ i, i < compared (length self) → self !! i = other !! i.
Proof.
  unfold LinearPath_eq, compared.
  case_bool_decide as Hlen; [split; [done|intros [? _]; congruence]|].
  case_bool_decide as Hnil.
  { rewrite Hnil. simpl. split; [|done]. intros _. split; [lia|]. intros i. lia. }
  case_bool_decide as H0.
  { split; [done|]. intros [_ H]. destruct H0. apply H.
    destruct (Nat.even (length self)) eqn:He; [|lia].
    apply Nat.even_spec in He as [k Hk]. lia. }
  rewrite eq_loop_true. split.
  - intros Hloop. split; [lia|]. intros i Hi.
    destruct (decide (i = 0)) as [->|Hi0]; [done|].
    destruct (Nat.Even_or_Odd i) as [[k Hk]|[k Hk]].
    + destruct (Hloop (i - 1)) as [_ Heq].
      * apply elem_of_odd_indices. split; [exists (k - 1); lia|].
        destruct (Nat.even (length self)); lia.
      * by replace (i - 1 + 1) with i in Heq by lia.
    + destruct (Hloop i) as [Heq _]; [|done].
      apply elem_of_odd_indices. split; [exists k; lia|].
      destruct (Nat.even (length self)) eqn:He; [lia|].
      assert (Nat.odd (length self) = true) as [m Hm]%Nat.odd_spec
        by (rewrite <- Nat.negb_even, He; done).
      lia.
  - intros [_ H] i [[k ->] Hi]%elem_of_odd_indices.
    destruct (Nat.even (length self)) eqn:He.
    + apply Nat.even_spec in He as [m Hm]. split; apply H; lia.
    + split; apply H; lia.
Qed.

Lemma LinearPath_eq_refl p : LinearPath_eq p p = true.
Proof. by apply LinearPath_eq_true. Qed.

Lemma LinearPath_eq_sym p q : LinearPath_eq p q = LinearPath_eq q p.
Proof.
  apply eq_true_iff_eq. rewrite !LinearPath_eq_true. split.
  - intros [Hlen H]. split; [done|]. intros i Hi. symmetry. apply H. by rewrite Hlen.
  - intros [Hlen H]. split; [done|]. intros i Hi. symmetry. apply H. by rewrite Hlen.
Qed.

(** On a path of odd length every position is compared. *)
Lemma LinearPath_eq_odd p q :
  Nat.Odd (length p) → LinearPath_eq p q = true ↔ p = q.
Proof.
  intros Hodd. split; [|intros <-; apply LinearPath_eq_refl].
  intros [Hlen H]%LinearPath_eq_true. apply list_eq. intros i.
  unfold compared in H.
  assert (Nat.even (length p) = false) as He.
  { rewrite <- Nat.negb_odd. apply Nat.odd_spec in Hodd. by rewrite Hodd. }
  rewrite He in H.
  destruct (decide (i < length p)) as [Hi|Hi]; [by apply H|].
  rewrite !lookup_ge_None_2; [done|lia|lia].
Qed.

(** A path of the documented shape has odd length. *)
Lemma alternating_odd : ∀ p, alternating p = true → Nat.Odd (length p).
Proof.
  fix IH 1. intros [|a [|b p]].
  - done.
  - intros _. by exists 0.
  - destruct a, b; try done; simpl.
    + intros [k Hk]%IH. exists (S k). simpl. lia.
    + intros [k Hk]%IH. exists (S k). simpl. lia.
Qed.

(** [add] keeps the length odd, so the paths built by appending a concept
    and adding steps all have the documented shape. *)
Lemma add_length p l d t p' :
  add p l d t = Ok p' → length p' = length p + 2.
Proof.
  unfold add. destruct (generic l); simpl.
  - intros [= <-]. rewrite length_app. simpl. lia.
  - destruct (bases l); simpl; [done|]. intros [= <-]. rewrite length_app. simpl. lia.
Qed.

(** C5 (counterexample).  Two paths of length 2 that differ in their step are
    equal for [__eq__]; and [add] stores a generic link as it is, so a path
    through the generic link [owns] differs from the path through the topmost
    base [std::link], while the specialised link [Person.owns] is replaced by
    its first base. *)
Lemma C5_counterexample :
  (LinearPath_eq [Node "Person"; Step owns Outbound]
                 [Node "Person"; Step likes Outbound] = true ∧
   [Node "Person"; Step owns Outbound] !! 1
     ≠ [Node "Person"; Step likes Outbound] !! 1) ∧
  (add [Node "Person"] owns Outbound (Node "Pet")
     = Ok [Node "Person"; Step owns Outbound; Node "Pet"] ∧
   LinearPath_eq [Node "Person"; Step owns Outbound; Node "Pet"]
                 [Node "Person"; Step std_link Outbound; Node "Pet"] = false ∧
   add [Node "Person"] person_owns Outbound (Node "Pet")
     = Ok [Node "Person"; Step owns Outbound; Node "Pet"]).
Proof. by vm_compute. Qed.

(** C5 (amended).  For a path of odd length, which is what the documented
    shape and the construction by [add] give, equality with another path
    holds exactly when the two are the same sequence: same length and every
    element equal pairwise.  [add] appends the step and its target, keeps the
    length odd, stores a generic link unchanged and stores the first base of a
    link that is not generic. *)
Theorem C5_linear_path_equality (p q : LinearPath) (l : link) (d : direction)
    (t : item) :
  Nat.Odd (length p) →
  (LinearPath_eq p q = true ↔
     length p = length q ∧ ∀ i, p !! i = q !! i) ∧
  (generic l = true → add p l d t = Ok (p ++ [Step l d; t])) ∧
  (∀ b bs, generic l = false → bases l = b :: bs →
           add p l d t = Ok (p ++ [Step b d; t])) ∧
  (∀ p', add p l d t = Ok p' → Nat.Odd (length p')).
Proof.
  intros Hodd. split_and!.
  - rewrite (LinearPath_eq_odd p q Hodd). split.
    + by intros <-.
    + intros [_ H]. by apply list_eq.
  - intros Hg. unfold add. by rewrite Hg.
  - intros b bs Hg Hb. unfold add. by rewrite Hg, Hb.
  - intros p' Hadd%add_length. destruct Hodd as [k Hk].
    exists (k + 1). lia.
Qed.

Lemma C5_linear_path_equality_witness :
  (LinearPath_eq [Node "Person"; Step owns Outbound; Node "Pet"]
                 [Node "Person"; Step likes Outbound; Node "Pet"] = true ↔
   length [Node "Person"; Step owns Outbound; Node "Pet"]
     = length [Node "Person"; Step likes Outbound; Node "Pet"] ∧
   ∀ i, [Node "Person"; Step owns Outbound; Node "Pet"] !! i
        = [Node "Person"; Step likes Outbound; Node "Pet"] !! i).
Proof.
  apply (C5_linear_path_equality
           [Node "Person"; Step owns Outbound; Node "Pet"]
           [Node "Person"; Step likes Outbound; Node "Pet"]
           owns Outbound Null).
  exists 1. reflexivity.
Defined.

End LinearFacts.

(** * Facts about the path utilities *)

Module GraphFacts.
Import Graph GraphSpec.

(** ** The monad *)

Lemma M_bind_Done {A B} (m : M A) (f : A → M B) s a s' :
  m s = Done (a, s') → (m ≫= f) s = f a s'.
Proof. unfold mbind, M_mbind, M_bind. by intros ->. Qed.

Lemma M_bind_inv {A B} (m : M A) (f : A → M B) s b s2 :
  (m ≫= f) s = Done (b, s2) →
  ∃ a s1, m s = Done (a, s1) ∧ f a s1 = Done (b, s2).
Proof.
  unfold mbind, M_mbind, M_bind. destruct (m s) as [[a s1]|e|]; [eauto|done|done].
Qed.

(** A loop whose body always returns and keeps an invariant returns, with
    the invariant. *)
Lemma for_in_inv {A B} (I : list A → B → store → Prop) (body : B → A → M B)
    (xs : list A) :
  (∀ seen x acc s, x ∈ xs → I seen acc s →
     ∃ acc' s', body acc x s = Done (acc', s') ∧ I (seen ++ [x]) acc' s') →
  ∀ seen acc s, I seen acc s →
  ∃ acc' s', for_in xs body acc s = Done (acc', s') ∧ I (seen ++ xs) acc' s'.
Proof.
  induction xs as [|x xs IH]; intros Hbody seen acc s HI; simpl.
  - exists acc, s. by rewrite app_nil_r.
  - destruct (Hbody seen x acc s) as (acc1 & s1 & Hx & HI1); [by left|done|].
    rewrite (M_bind_Done _ _ _ _ _ Hx).
    destruct (IH (λ seen x acc s Hin, Hbody seen x acc s (list_elem_of_further _ _ _ Hin))
                 (seen ++ [x]) acc1 s1 HI1) as (acc2 & s2 & Hloop & HI2).
    exists acc2, s2. split; [done|]. by rewrite <- app_assoc in HI2.
Qed.

(** ** Reading and writing the store *)

Lemma node_at_put s r n x :
  r < length (nodes s) →
  node_at (Store (<[r := n]> (nodes s)) (sets s)) x
    = if decide (x = r) then n else node_at s x.
Proof.
  intros Hr. unfold node_at. simpl. case_decide as Hx.
  - subst. by rewrite list_lookup_insert_eq.
  - by rewrite list_lookup_insert_ne.
Qed.

Lemma node_at_allocated s r :
  node_at s r ≠ Other → r < length (nodes s).
Proof.
  unfold node_at. intros H.
  destruct (nodes s !! r) as [n|] eqn:Hr; [|done].
  by apply lookup_lt_Some in Hr.
Qed.

Lemma node_at_Some s x :
  node_at s x ≠ Other → nodes s !! x = Some (node_at s x).
Proof.
  unfold node_at. by destruct (nodes s !! x) as [n|] eqn:Hr.
Qed.

Lemma node_at_alloc s ss n x :
  node_at (Store (nodes s ++ [n]) ss) x
    = if decide (x = length (nodes s)) then n
      else node_at s x.
Proof.
  unfold node_at. simpl. case_decide as Hx.
  - subst. by rewrite lookup_app_r, Nat.sub_diag.
  - destruct (decide (x < length (nodes s))).
    + by rewrite lookup_app_l.
    + rewrite !lookup_ge_None_2; [done|lia|]. rewrite length_app. simpl. lia.
Qed.

(** ** [flatten_path_combination] *)

Lemma get_combination_Done s r cls members :
  node_at s r = PathCombination cls members →
  get_combination r s = Done ((cls, members), s).
Proof.
  intros Hn. unfold get_combination, get_node, mbind, M_mbind, M_bind.
  by rewrite Hn.
Qed.

Lemma get_combination_Fail s r :
  is_PathCombination (node_at s r) = false →
  get_combination r s = Fail AttributeError.
Proof.
  intros Hn. unfold get_combination, get_node, mbind, M_mbind, M_bind.
  by destruct (node_at s r).
Qed.

Lemma flatten_S fuel expr recursive s cls members :
  node_at s expr = PathCombination cls members →
  flatten_path_combination (S fuel) expr recursive s
    = (paths ← for_in (elements members) (flatten_visit fuel cls recursive) ∅;
       put_node expr (PathCombination cls paths);;
       mret expr) s.
Proof.
  intros Hn. cbn [flatten_path_combination].
  by rewrite (M_bind_Done _ _ _ _ _ (get_combination_Done _ _ _ _ Hn)).
Qed.

Lemma flatten_not_combination fuel expr recursive s :
  is_PathCombination (node_at s expr) = false →
  flatten_path_combination (S fuel) expr recursive s = Fail AttributeError.
Proof.
  intros Hn. cbn [flatten_path_combination].
  unfold mbind, M_mbind, M_bind. by rewrite get_combination_Fail.
Qed.

(** One visit of the non-recursive loop: the store is left alone. *)
Lemma flatten_visit_once fuel s cls paths path :
  flatten_visit fuel cls false paths path s
    = Done (paths ∪ match node_at s path with
                    | PathCombination c sub =>
                        if bool_decide (c = cls) then sub else {[path]}
                    | _ => {[path]}
                    end, s).
Proof.
  unfold flatten_visit. rewrite (M_bind_Done _ _ s (node_at s path) s) by done.
  rewrite andb_false_l, orb_false_r.
  destruct (node_at s path) as [| | |c sub| | | | | | | | | | | | | | |] eqn:Hn;
    try reflexivity.
  simpl. case_bool_decide; [|done].
  by rewrite (M_bind_Done _ _ _ _ _ (get_combination_Done _ _ _ _ Hn)).
Qed.

(** The non-recursive flattening: it returns [expr] itself, and the store
    differs only in the member set of [expr], which is what one level of
    absorption gives. *)
Lemma flatten_once fuel s expr cls members :
  node_at s expr = PathCombination cls members →
  ∃ paths,
    flatten_path_combination (S fuel) expr false s
      = Done (expr, Store (<[expr := PathCombination cls paths]> (nodes s)) (sets s)) ∧
    ∀ x, x ∈ paths ↔ absorbed_once s cls members x.
Proof.
  intros Hn. rewrite (flatten_S _ _ _ _ _ _ Hn).
  destruct (for_in_inv
              (λ seen acc s', s' = s ∧
                 ∀ x, x ∈ acc ↔
                      ∃ m, m ∈ seen ∧
                        ((∃ sub, node_at s m = PathCombination cls sub ∧ x ∈ sub) ∨
                         (isinstance_cls (node_at s m) cls = false ∧ x = m)))
              (flatten_visit fuel cls false) (elements members))
    with (seen := @nil ref) (acc := (∅ : gset ref)) (s := s)
    as (paths & s' & Hloop & -> & Hpaths).
  - intros seen m acc s' _ [-> Hacc].
    eexists _, s. split; [apply flatten_visit_once|]. split; [done|].
    intros x. rewrite elem_of_union, Hacc. setoid_rewrite elem_of_app.
    setoid_rewrite list_elem_of_singleton. split.
    + intros [(m' & Hm' & H)|Hx]; [exists m'; auto|].
      exists m. split; [auto|].
      destruct (node_at s m) as [| | |c sub| | | | | | | | | | | | | | |] eqn:Hm;
        try (right; split; [done|by apply elem_of_singleton in Hx]).
      simpl. destruct (decide (c = cls)) as [->|Hc].
      * rewrite bool_decide_eq_true_2 in Hx by done. left. eauto.
      * rewrite bool_decide_eq_false_2 in Hx by done.
        rewrite bool_decide_eq_false_2 by done.
        right. split; [done|by apply elem_of_singleton in Hx].
    + intros (m' & [Hm'| ->] & H); [left; eauto|]. right.
      destruct H as [(sub & Hm & Hx)|[Hm ->]].
      * rewrite Hm. by rewrite bool_decide_eq_true_2.
      * destruct (node_at s m) as [| | |c sub| | | | | | | | | | | | | | |];
          try by apply elem_of_singleton.
        simpl in Hm. rewrite Hm. by apply elem_of_singleton.
  - split; [done|]. intros x. split; [set_solver|].
    by intros (m & ?%elem_of_nil & _).
  - exists paths. split.
    + by rewrite (M_bind_Done _ _ _ _ _ Hloop).
    + intros x. rewrite Hpaths. unfold absorbed_once. simpl.
      by setoid_rewrite elem_of_elements.
Qed.

(** *** Leaves, and stores that differ by flattening *)

Lemma is_PathCombination_true n :
  is_PathCombination n = true → ∃ cls members, n = PathCombination cls members.
Proof. destruct n; try done. eauto. Qed.

Lemma isinstance_cls_comb n cls :
  isinstance_cls n cls = true → is_PathCombination n = true.
Proof. by destruct n. Qed.

Lemma leaf_of_plain s x l :
  leaf_of s x l → is_PathCombination (node_at s l) = false.
Proof. by induction 1. Qed.

Lemma leaf_of_plain_inv s x l :
  is_PathCombination (node_at s x) = false → leaf_of s x l → l = x.
Proof.
  intros Hx Hl. destruct Hl as [|x cls members m l Hn]; [done|].
  by rewrite Hn in Hx.
Qed.

Lemma leaf_of_comb s x cls members l :
  node_at s x = PathCombination cls members →
  leaf_of s x l ↔ ∃ m, m ∈ members ∧ leaf_of s m l.
Proof.
  intros Hn. split.
  - intros Hl. destruct Hl as [x Hx|x cls' members' m l Hn' Hm Hl].
    + by rewrite Hn in Hx.
    + rewrite Hn in Hn'. injection Hn' as <- <-. eauto.
  - intros (m & Hm & Hl). by eapply leaf_member.
Qed.

Lemma flattened_refl s : flattened s s.
Proof. split_and!; [done|done|]. by left. Qed.

Lemma flattened_kind s s' x :
  flattened s s' →
  is_PathCombination (node_at s' x) = is_PathCombination (node_at s x).
Proof.
  intros (_ & _ & H). destruct (H x) as [->|(c & ms & ms' & -> & -> & _)]; done.
Qed.

Lemma flattened_leaf s s' x l :
  flattened s s' → leaf_of s' x l ↔ leaf_of s x l.
Proof.
  intros Hf. pose proof Hf as (_ & _ & H). split.
  - induction 1 as [x Hx|x cls members m l Hn Hm Hl IH].
    + apply leaf_here. by rewrite <- (flattened_kind _ _ _ Hf).
    + destruct (H x) as [Heq|(c & ms & ms' & Hs & Hs' & Hms')].
      * rewrite Heq in Hn. by eapply leaf_member.
      * rewrite Hs' in Hn. injection Hn as -> ->.
        apply Hms' in Hm.
        assert (l = m) as ->; [|done].
        eapply leaf_of_plain_inv; [|done]. by eapply leaf_of_plain.
  - induction 1 as [x Hx|x cls members m l Hn Hm Hl IH].
    + apply leaf_here. by rewrite (flattened_kind _ _ _ Hf).
    + destruct (H x) as [Heq|(c & ms & ms' & Hs & Hs' & Hms')].
      * rewrite <- Heq in Hn. by eapply leaf_member.
      * apply (leaf_member s' x c ms' l l Hs').
        -- apply Hms'. exact (leaf_member s x cls members m l Hn Hm Hl).
        -- apply leaf_here. rewrite (flattened_kind _ _ _ Hf).
           by eapply leaf_of_plain.
Qed.

Lemma flattened_trans s1 s2 s3 :
  flattened s1 s2 → flattened s2 s3 → flattened s1 s3.
Proof.
  intros H12 H23.
  pose proof H12 as (Hs12 & Hl12 & Hn12). pose proof H23 as (Hs23 & Hl23 & Hn23).
  split_and!; [congruence|congruence|]. intros x.
  destruct (Hn23 x) as [Heq|(c & ms & ms' & Hs & Hs' & Hms')].
  - rewrite Heq. apply Hn12.
  - right. destruct (Hn12 x) as [Heq|(c0 & ms0 & ms0' & Hs0 & Hs0' & Hms0')].
    + exists c, ms, ms'. split_and!; [congruence|done|].
      intros l. by rewrite Hms', (flattened_leaf _ _ _ _ H12).
    + rewrite Hs0' in Hs. injection Hs as <- <-.
      exists c0, ms0, ms'. split_and!; [done|done|].
      intros l. by rewrite Hms', (flattened_leaf _ _ _ _ H12).
Qed.

Lemma bounded_plain d s x :
  is_PathCombination (node_at s x) = false → bounded d s x.
Proof. destruct d; simpl; by destruct (node_at s x). Qed.

Lemma bounded_S d s x : bounded d s x → bounded (S d) s x.
Proof.
  revert x. induction d as [|d IH]; intros x; simpl.
  - by destruct (node_at s x).
  - destruct (node_at s x); try done. intros H m Hm. apply IH. simpl. by apply H.
Qed.

Lemma bounded_le d d' s x : d ≤ d' → bounded d s x → bounded d' s x.
Proof. induction 1; [done|]. intros. by apply bounded_S, IHle. Qed.

Lemma bounded_member d s x cls members m :
  node_at s x = PathCombination cls members →
  bounded (S d) s x → m ∈ members → bounded d s m.
Proof. simpl. intros ->. auto. Qed.

Lemma flattened_bounded d s s' x :
  flattened s s' → bounded d s x → bounded d s' x.
Proof.
  intros Hf. pose proof Hf as (_ & _ & H). revert x.
  induction d as [|d IH]; intros x.
  - simpl. destruct (H x) as [->|(c & ms & ms' & -> & -> & _)]; done.
  - destruct (H x) as [Heq|(c & ms & ms' & Hs & Hs' & Hms')].
    + simpl. rewrite Heq. destruct (node_at s x); try done.
      intros Hb m Hm. by apply IH, Hb.
    + intros _. simpl. rewrite Hs'. intros m Hm%Hms'.
      apply bounded_plain. rewrite (flattened_kind _ _ _ Hf).
      by eapply leaf_of_plain.
Qed.

(** *** The recursive flattening *)

Lemma flatten_visit_plain fuel s cls recursive paths path :
  is_PathCombination (node_at s path) = false →
  flatten_visit fuel cls recursive paths path s = Done (paths ∪ {[path]}, s).
Proof.
  intros Hn. unfold flatten_visit.
  rewrite (M_bind_Done _ _ s (node_at s path) s) by done.
  rewrite Hn, andb_false_r, orb_false_r.
  destruct (isinstance_cls (node_at s path) cls) eqn:Hc; [|done].
  apply isinstance_cls_comb in Hc. congruence.
Qed.

Lemma flatten_visit_nested fuel s s' cls paths path c sub :
  is_PathCombination (node_at s path) = true →
  flatten_path_combination fuel path true s = Done (path, s') →
  node_at s' path = PathCombination c sub →
  flatten_visit fuel cls true paths path s = Done (paths ∪ sub, s').
Proof.
  intros Hn Hflat Hn'. unfold flatten_visit.
  rewrite (M_bind_Done _ _ s (node_at s path) s) by done.
  rewrite Hn, orb_true_r.
  rewrite (M_bind_Done _ _ _ _ _ Hflat).
  by rewrite (M_bind_Done _ _ _ _ _ (get_combination_Done _ _ _ _ Hn')).
Qed.

(** On a store where combinations nest at most [fuel] deep below [expr], the
    recursive flattening returns [expr] itself; afterwards the members of
    [expr] are exactly its leaves, and the rest of the store differs by
    flattening only. *)
Lemma flatten_all fuel s expr cls members :
  node_at s expr = PathCombination cls members →
  bounded fuel s expr →
  ∃ s' paths,
    flatten_path_combination fuel expr true s = Done (expr, s') ∧
    flattened s s' ∧
    node_at s' expr = PathCombination cls paths ∧
    ∀ l, l ∈ paths ↔ leaf_of s expr l.
Proof.
  revert s expr cls members.
  induction fuel as [|fuel IH]; intros s expr cls members Hn Hb.
  { simpl in Hb. by rewrite Hn in Hb. }
  rewrite (flatten_S _ _ _ _ _ _ Hn).
  destruct (for_in_inv
              (λ seen acc s1, flattened s s1 ∧
                 ∀ l, l ∈ acc ↔ ∃ m, m ∈ seen ∧ leaf_of s m l)
              (flatten_visit fuel cls true) (elements members))
    with (seen := @nil ref) (acc := (∅ : gset ref)) (s := s)
    as (paths & s1 & Hloop & Hf1 & Hpaths).
  - intros seen m acc s1 Hm%elem_of_elements [Hf1 Hacc].
    destruct (is_PathCombination (node_at s1 m)) eqn:Hk.
    + destruct (is_PathCombination_true _ Hk) as (c & ms & Hm1).
      destruct (IH s1 m c ms Hm1) as (s2 & sub & Hflat & Hf2 & Hm2 & Hsub).
      { apply (flattened_bounded _ _ _ _ Hf1).
        by apply (bounded_member _ _ _ _ _ _ Hn Hb). }
      exists (acc ∪ sub), s2. split; [by eapply flatten_visit_nested|].
      split; [by eapply flattened_trans|].
      intros l. rewrite elem_of_union, Hacc, Hsub, (flattened_leaf _ _ _ _ Hf1).
      setoid_rewrite elem_of_app. setoid_rewrite list_elem_of_singleton.
      split.
      * intros [(m' & ? & ?)|?]; [exists m'; auto|exists m; auto].
      * intros (m' & [?| ->] & ?); [left; eauto|by right].
    + exists (acc ∪ {[m]}), s1. split; [by apply flatten_visit_plain|].
      split; [done|].
      rewrite (flattened_kind _ _ _ Hf1) in Hk.
      intros l. rewrite elem_of_union, Hacc, elem_of_singleton.
      setoid_rewrite elem_of_app. setoid_rewrite list_elem_of_singleton.
      split.
      * intros [(m' & ? & ?)| ->]; [exists m'; auto|].
        exists m. split; [auto|]. by apply leaf_here.
      * intros (m' & [?| ->] & Hl); [left; eauto|right].
        by eapply leaf_of_plain_inv.
  - split; [apply flattened_refl|]. intros l. split; [set_solver|].
    by intros (m & ?%elem_of_nil & _).
  - simpl in Hpaths.
    assert (expr < length (nodes s1)) as Hlt.
    { destruct Hf1 as (_ & -> & _). apply node_at_allocated. by rewrite Hn. }
    eexists _, paths. split; [by rewrite (M_bind_Done _ _ _ _ _ Hloop)|].
    assert (∀ l, l ∈ paths ↔ leaf_of s expr l) as Hleaves.
    { intros l. rewrite Hpaths, (leaf_of_comb _ _ _ _ _ Hn).
      by setoid_rewrite elem_of_elements. }
    split_and!; [| by rewrite node_at_put, decide_True | done].
    destruct Hf1 as (Hsets & Hlen & Hnodes).
    split_and!; [done| by simpl; rewrite length_insert |].
    intros x. rewrite node_at_put by done. case_decide as Hx; [|apply Hnodes].
    subst x. right. by exists cls, members, paths.
Qed.

(** Flattening a combination whose members are all of another class, or no
    combinations at all, changes nothing, in either mode. *)
Lemma flatten_flat fuel s x cls members recursive :
  node_at s x = PathCombination cls members →
  (∀ m, m ∈ members →
        isinstance_cls (node_at s m) cls || recursive && is_PathCombination (node_at s m)
          = false) →
  flatten_path_combination (S fuel) x recursive s = Done (x, s).
Proof.
  intros Hn Hflat. rewrite (flatten_S _ _ _ _ _ _ Hn).
  destruct (for_in_inv
              (λ seen acc s1, s1 = s ∧ ∀ l, l ∈ acc ↔ l ∈ seen)
              (flatten_visit fuel cls recursive) (elements members))
    with (seen := @nil ref) (acc := (∅ : gset ref)) (s := s)
    as (paths & s1 & Hloop & -> & Hpaths).
  - intros seen m acc s1 Hm%elem_of_elements [-> Hacc].
    exists (acc ∪ {[m]}), s. split_and!; [|done|].
    + unfold flatten_visit.
      rewrite (M_bind_Done _ _ s (node_at s m) s) by done.
      by rewrite (Hflat m Hm).
    + intros l. rewrite elem_of_union, elem_of_app, Hacc, elem_of_singleton.
      by rewrite list_elem_of_singleton.
  - split; [done|]. intros l. split; [set_solver|by intros ?%elem_of_nil].
  - rewrite (M_bind_Done _ _ _ _ _ Hloop). simpl in Hpaths.
    assert (paths = members) as ->.
    { apply set_eq. intros l. by rewrite Hpaths, elem_of_elements. }
    unfold put_node, mbind, M_mbind, M_bind, mret, M_mret.
    rewrite list_insert_id; [by destruct s|].
    rewrite <- Hn. apply node_at_Some. by rewrite Hn.
Qed.

(** C2 (counterexample).  The disjunction [3] has one member, the
    conjunction [2] of the entity sets [0] and [1].  Flattened recursively,
    [3] holds [0] and [1]: the member of the opposite class is not kept. *)
Lemma C2_counterexample :
  node_at mixed_store 3 = PathCombination Disjunction {[2]} ∧
  node_at mixed_store 2 = PathCombination Conjunction {[0; 1]} ∧
  ∃ s', flatten_path_combination 2 3 true mixed_store = Done (3, s') ∧
        node_at s' 3 = PathCombination Disjunction {[0; 1]} ∧
        2 ∉ ({[0; 1]} : gset ref).
Proof.
  split_and!; [done|done|]. eexists. split_and!.
  - vm_compute. reflexivity.
  - vm_compute. reflexivity.
  - intros [Hx|Hx]%elem_of_union; by apply elem_of_singleton in Hx.
Qed.

(** C2 (amended).  The call returns the combination [x] it was given.
    Without [recursive], the new member set of [x] is one level of
    absorption: the members of the members of [x]'s own class, and every
    other member as a single element; no other node changes.  With
    [recursive], on a store where the combinations below [x] nest finitely,
    the new member set of [x] is the set of its leaves: combinations of
    either class are absorbed, at every depth. *)
Theorem C2_flatten_path_combination fuel s x cls members :
  node_at s x = PathCombination cls members →
  (∃ s' paths,
     flatten_path_combination (S fuel) x false s = Done (x, s') ∧
     node_at s' x = PathCombination cls paths ∧
     (∀ y, y ≠ x → node_at s' y = node_at s y) ∧
     ∀ m, m ∈ paths ↔ absorbed_once s cls members m) ∧
  (bounded (S fuel) s x →
   ∃ s' paths,
     flatten_path_combination (S fuel) x true s = Done (x, s') ∧
     node_at s' x = PathCombination cls paths ∧
     ∀ l, l ∈ paths ↔ leaf_of s x l).
Proof.
  intros Hn. split.
  - destruct (flatten_once fuel s x cls members Hn) as (paths & Hflat & Hpaths).
    assert (x < length (nodes s)) as Hlt
      by (apply node_at_allocated; by rewrite Hn).
    eexists _, paths. split_and!; [done| | |done].
    + by rewrite node_at_put, decide_True.
    + intros y Hy. by rewrite node_at_put, decide_False.
  - intros Hb.
    destruct (flatten_all (S fuel) s x cls members Hn Hb)
      as (s' & paths & Hflat & _ & Hx & Hpaths).
    by exists s', paths.
Qed.

Lemma C2_flatten_path_combination_witness :
  (∃ s' paths,
     flatten_path_combination 2 3 false mixed_store = Done (3, s') ∧
     node_at s' 3 = PathCombination Disjunction paths ∧
     (∀ y, y ≠ 3 → node_at s' y = node_at mixed_store y) ∧
     ∀ m, m ∈ paths ↔ absorbed_once mixed_store Disjunction {[2]} m) ∧
  (bounded 2 mixed_store 3 →
   ∃ s' paths,
     flatten_path_combination 2 3 true mixed_store = Done (3, s') ∧
     node_at s' 3 = PathCombination Disjunction paths ∧
     ∀ l, l ∈ paths ↔ leaf_of mixed_store 3 l).
Proof.
  apply (C2_flatten_path_combination 1 mixed_store 3 Disjunction {[2]}).
  reflexivity.
Defined.

(** C6 (counterexample).  Without [recursive], one application removes one
    level of nesting only: on three nested disjunctions around the entity set
    [0], the first application leaves the member [1], the second the member
    [2 → 1 → 0] one level further, [0]. *)
Lemma C6_counterexample :
  ∃ s1 s2,
    flatten_path_combination 1 3 false nested_store = Done (3, s1) ∧
    flatten_path_combination 1 3 false s1 = Done (3, s2) ∧
    node_at s1 3 = PathCombination Disjunction {[1]} ∧
    node_at s2 3 = PathCombination Disjunction {[0]} ∧
    ({[1]} : gset ref) ≠ {[0]}.
Proof.
  eexists _, _. split_and!.
  - vm_compute. reflexivity.
  - vm_compute. reflexivity.
  - vm_compute. reflexivity.
  - vm_compute. reflexivity.
  - intros H. assert (1 ∈ ({[0]} : gset ref)) as Hin
      by (rewrite <- H; by apply elem_of_singleton).
    by apply elem_of_singleton in Hin.
Qed.

(** C6 (amended).  Flattening a flat combination changes nothing: without
    [recursive], flat means no member of the combination's own class; with
    [recursive], no member that is a combination.  With [recursive],
    flattening twice is flattening once wherever combinations nest
    finitely.  Without [recursive], it is so when the members of the
    members of [x]'s own class are not of that class again. *)
Theorem C6_flatten_idempotence fuel s x cls members :
  node_at s x = PathCombination cls members →
  ((∀ m, m ∈ members → isinstance_cls (node_at s m) cls = false) →
   flatten_path_combination (S fuel) x false s = Done (x, s)) ∧
  ((∀ m, m ∈ members → is_PathCombination (node_at s m) = false) →
   flatten_path_combination (S fuel) x true s = Done (x, s)) ∧
  (bounded (S fuel) s x →
   ∃ s1, flatten_path_combination (S fuel) x true s = Done (x, s1) ∧
         flatten_path_combination (S fuel) x true s1 = Done (x, s1)) ∧
  ((∀ m sub m', m ∈ members → node_at s m = PathCombination cls sub →
                m' ∈ sub → isinstance_cls (node_at s m') cls = false) →
   ∃ s1, flatten_path_combination (S fuel) x false s = Done (x, s1) ∧
         flatten_path_combination (S fuel) x false s1 = Done (x, s1)).
Proof.
  intros Hn. split_and!.
  - intros Hflat. apply (flatten_flat _ _ _ _ _ _ Hn).
    intros m Hm. by rewrite (Hflat m Hm).
  - intros Hflat. apply (flatten_flat _ _ _ _ _ _ Hn).
    intros m Hm. rewrite (Hflat m Hm), andb_false_r, orb_false_r.
    destruct (isinstance_cls (node_at s m) cls) eqn:Hc; [|done].
    apply isinstance_cls_comb in Hc. by rewrite (Hflat m Hm) in Hc.
  - intros Hb.
    destruct (flatten_all (S fuel) s x cls members Hn Hb)
      as (s1 & paths & Hflat & Hf & Hx & Hpaths).
    exists s1. split; [done|].
    apply (flatten_flat _ _ _ _ _ _ Hx).
    intros l Hl%Hpaths%leaf_of_plain.
    rewrite <- (flattened_kind _ _ l Hf) in Hl. rewrite Hl, andb_false_r, orb_false_r.
    destruct (isinstance_cls (node_at s1 l) cls) eqn:Hc; [|done].
    apply isinstance_cls_comb in Hc. congruence.
  - intros Hshallow.
    destruct (flatten_once fuel s x cls members Hn) as (paths & Hflat & Hpaths).
    eexists. split; [done|].
    assert (x < length (nodes s)) as Hlt
      by (apply node_at_allocated; by rewrite Hn).
    eapply flatten_flat.
    { by rewrite node_at_put, decide_True. }
    intros m Hm%Hpaths. rewrite andb_false_l, orb_false_r.
    assert (isinstance_cls (node_at s m) cls = false) as Hm'.
    { destruct Hm as (m0 & Hm0 & [(sub & Hsub & Hin)|[Hc ->]]); [|done].
      by apply (Hshallow m0 sub m). }
    rewrite node_at_put by done. case_decide as Hmx; [|done].
    subst m. rewrite Hn in Hm'. simpl in Hm'. by rewrite bool_decide_eq_true_2 in Hm'.
Qed.

Lemma C6_flatten_idempotence_witness :
  ((∀ m, m ∈ ({[2]} : gset ref) →
         isinstance_cls (node_at mixed_store m) Disjunction = false) →
   flatten_path_combination 2 3 false mixed_store = Done (3, mixed_store)) ∧
  ((∀ m, m ∈ ({[2]} : gset ref) →
         is_PathCombination (node_at mixed_store m) = false) →
   flatten_path_combination 2 3 true mixed_store = Done (3, mixed_store)) ∧
  (bounded 2 mixed_store 3 →
   ∃ s1, flatten_path_combination 2 3 true mixed_store = Done (3, s1) ∧
         flatten_path_combination 2 3 true s1 = Done (3, s1)) ∧
  ((∀ m sub m', m ∈ ({[2]} : gset ref) →
                node_at mixed_store m = PathCombination Disjunction sub →
                m' ∈ sub → isinstance_cls (node_at mixed_store m') Disjunction = false) →
   ∃ s1, flatten_path_combination 2 3 false mixed_store = Done (3, s1) ∧
         flatten_path_combination 2 3 false s1 = Done (3, s1)).
Proof.
  apply (C6_flatten_idempotence 1 mixed_store 3 Disjunction {[2]}).
  reflexivity.
Defined.

(** ** [PathExtractor.combine_field_results] *)

Lemma plain_node_at s r :
  plain s r → r < length (nodes s) ∧ is_PathCombination (node_at s r) = false.
Proof.
  intros (n & Hr & Hn). split; [by eapply lookup_lt_Some|].
  unfold node_at. by rewrite Hr.
Qed.

Lemma as_result_object none r :
  is_result none r → as_result none (as_object none r) = r.
Proof.
  unfold is_result, as_result, as_object. destruct r as [p|]; simpl.
  - intros Hp. rewrite decide_False; [done|congruence].
  - intros _. by rewrite decide_True.
Qed.

Lemma as_object_inj none r1 r2 :
  is_result none r1 → is_result none r2 →
  as_object none r1 = as_object none r2 → r1 = r2.
Proof.
  intros H1 H2 Heq.
  by rewrite <- (as_result_object none r1 H1), <- (as_result_object none r2 H2), Heq.
Qed.

(** On results that are nodes, without [None], the function is
    [combine_field_results] on these nodes. *)
Lemma combine_field_results_any_nodes none self (rs : list ref) cls flatten s :
  none ∉ rs →
  combine_field_results_any none self (Some <$> rs) cls flatten s
    = combine_field_results self rs cls flatten s.
Proof.
  intros Hnone. unfold combine_field_results_any, combine_field_results.
  assert (as_object none <$> (Some <$> rs) = rs) as ->.
  { clear. induction rs as [|r rs IH]; [done|]. rewrite !fmap_cons. simpl.
    by f_equal. }
  case_bool_decide as Hone; [|done].
  apply size_1_elem_of in Hone as [p Hp]. apply leibniz_equiv in Hp.
  rewrite Hp, elements_singleton. simpl. unfold as_result.
  rewrite decide_False; [done|].
  intros ->. apply Hnone. apply (elem_of_list_to_set (C := gset ref)).
  rewrite Hp. by apply elem_of_singleton.
Qed.

(** C7 (counterexample).  Handed [None] and the entity set [Pet] (reference
    [2]; the [None] object is at [3]), the function does not drop [None] and
    return [Pet]: the set of results has two elements, and the result is a
    new conjunction with the members [None] and [Pet]. *)
Lemma C7_counterexample :
  none_object pet_store_with_none 3 ∧
  ∃ s',
    combine_field_results_any 3 (extractor false false) [None; Some 2]
        Conjunction true pet_store_with_none
      = Done (Some 4, s') ∧
    node_at s' 4 = PathCombination Conjunction {[3; 2]}.
Proof.
  split; [reflexivity|].
  eexists. split.
  - vm_compute. reflexivity.
  - vm_compute. reflexivity.
Qed.

(** C7 (amended).  The function drops nothing: [None] among the results is
    a result like any other.  With no result at all, the result is [None];
    when the results are all one and the same, a path or [None], that one is
    returned as it is and nothing is allocated; with [N > 1] distinct
    results, the paths among them plain, the result is a new combination of
    the requested class whose member set is exactly these [N] results, with
    [None] if it is one of them, flattened or not, and no node that existed
    before is touched. *)
Theorem C7_combine_field_results self none results cls flatten s :
  none_object s none →
  Forall (is_result none) results →
  (results = [] →
   combine_field_results_any none self results cls flatten s = Done (None, s)) ∧
  (∀ r, r ∈ results → (∀ x, x ∈ results → x = r) →
        combine_field_results_any none self results cls flatten s
          = Done (r, s)) ∧
  (1 < length results →
   NoDup results →
   Forall (λ r, ∀ p, r = Some p → plain s p) results →
   ∃ s' members,
     combine_field_results_any none self results cls flatten s
       = Done (Some (length (nodes s)), s') ∧
     node_at s' (length (nodes s)) = PathCombination cls members ∧
     (∀ x, x ∈ members ↔ as_result none x ∈ results) ∧
     size members = length results ∧
     ∀ y, y < length (nodes s) → node_at s' y = node_at s y).
Proof.
  intros Hnone Hwf. rewrite Forall_forall in Hwf.
  unfold combine_field_results_any. split_and!.
  - intros ->. by rewrite fmap_nil, list_to_set_nil, size_empty.
  - intros r Hr Hall.
    assert ((list_to_set (as_object none <$> results) : gset ref)
              = {[as_object none r]}) as ->.
    { apply set_eq. intros x.
      rewrite elem_of_list_to_set, list_elem_of_fmap, elem_of_singleton. split.
      - intros (y & -> & Hy). by rewrite (Hall y Hy).
      - intros ->. by exists r. }
    rewrite size_singleton, bool_decide_eq_true_2 by done.
    rewrite elements_singleton. simpl.
    by rewrite as_result_object by (by apply Hwf).
  - intros Hlen Hnodup Hplain.
    assert (NoDup (as_object none <$> results)) as Hnodup'.
    { apply NoDup_fmap_2_strong; [|done].
      intros x y Hx Hy. apply as_object_inj; by apply Hwf. }
    set (rs := as_object none <$> results) in *.
    assert (length rs = length results) as Hlen' by apply length_fmap.
    assert (∀ x, x ∈ rs ↔ as_result none x ∈ results) as Hmem.
    { intros x. unfold rs. rewrite list_elem_of_fmap. split.
      - intros (y & -> & Hy). by rewrite as_result_object by (by apply Hwf).
      - intros Hx. exists (as_result none x). split; [|done].
        unfold as_result, as_object. by case_decide. }
    rewrite (size_list_to_set rs Hnodup').
    rewrite bool_decide_eq_false_2 by lia.
    rewrite bool_decide_eq_false_2 by lia.
    set (s1 := Store (nodes s ++ [PathCombination cls (list_to_set rs)]) (sets s)).
    assert (alloc (PathCombination cls (list_to_set rs)) s
              = Done (length (nodes s), s1)) as Halloc by done.
    rewrite (M_bind_Done _ _ _ _ _ Halloc).
    assert (node_at s1 (length (nodes s))
              = PathCombination cls (list_to_set rs)) as Hnew.
    { unfold s1. by rewrite node_at_alloc, decide_True. }
    assert (∀ y, y < length (nodes s) → node_at s1 y = node_at s y) as Hold.
    { intros y Hy. unfold s1. rewrite node_at_alloc, decide_False; [done|lia]. }
    exists s1, (list_to_set rs).
    split_and!; [|done| |by rewrite size_list_to_set|done].
    + destruct flatten; [|done].
      rewrite (M_bind_Done _ _ _ (length (nodes s)) s1); [done|].
      apply (flatten_flat _ _ _ _ _ _ Hnew).
      intros m Hm%elem_of_list_to_set. rewrite andb_false_l, orb_false_r.
      assert (plain s m) as Hm_plain.
      { apply Hmem in Hm. unfold as_result in Hm. case_decide as Hmn.
        - subst. by exists Other.
        - rewrite Forall_forall in Hplain. by apply (Hplain _ Hm). }
      destruct (plain_node_at s m Hm_plain) as [Hlt Hk].
      rewrite (Hold m Hlt).
      destruct (isinstance_cls (node_at s m) cls) eqn:Hc; [|done].
      apply isinstance_cls_comb in Hc. congruence.
    + intros x. rewrite <- Hmem. apply elem_of_list_to_set.
Qed.

Lemma C7_combine_field_results_witness :
  ∃ s' members,
    combine_field_results_any 3 (extractor false false) [Some 0; None; Some 2]
        Conjunction true pet_store_with_none
      = Done (Some 4, s') ∧
    node_at s' 4 = PathCombination Conjunction members ∧
    (∀ x, x ∈ members ↔ as_result 3 x ∈ [Some 0; None; Some 2]) ∧
    size members = 3 ∧
    ∀ y, y < 4 → node_at s' y = node_at pet_store_with_none y.
Proof.
  apply (C7_combine_field_results (extractor false false) 3
           [Some 0; None; Some 2] Conjunction true pet_store_with_none).
  - reflexivity.
  - repeat constructor; discriminate.
  - simpl. lia.
  - apply (bool_decide_unpack _). vm_compute. exact I.
  - repeat constructor; intros p [= <-]; eexists; (split; [reflexivity|reflexivity]).
Defined.

(** ** [PathExtractor.visit_EntitySet] *)

Lemma attr_rlink_Done n s :
  has_rlink_attr n = true → attr_rlink n s = Done (rlink_of n, s).
Proof. by destruct n. Qed.

(** The loop walks the chain to its root and returns the nodes it met. *)
Lemma walk_rlinks_chain s path ancestors :
  rlink_chain s path ancestors →
  ∀ fuel paths, length ancestors < fuel →
    walk_rlinks fuel path paths s = Done (paths ++ ancestors, s).
Proof.
  induction 1 as [path Hattr Hroot|path l ln parent ancestors Hattr Hl Hln Hsrc _ IH];
    intros fuel paths Hfuel; (destruct fuel as [|fuel]; [simpl in Hfuel; lia|]);
    cbn [walk_rlinks];
    rewrite (M_bind_Done _ _ s (node_at s path) s) by done;
    rewrite (M_bind_Done _ _ _ _ _ (attr_rlink_Done _ s Hattr)).
  - rewrite Hroot. by rewrite app_nil_r.
  - rewrite Hl. rewrite (M_bind_Done _ _ s (node_at s l) s) by done.
    rewrite Hln. cbn [attr_source].
    rewrite (M_bind_Done _ _ s (el_source ln) s) by done.
    rewrite Hsrc, IH by (simpl in Hfuel; lia).
    by rewrite <- app_assoc.
Qed.

Lemma last_cons_default {A} (l : list A) (d d' : A) :
  List.last (d :: l) d' = default d (last l).
Proof.
  revert d. induction l as [|a l IH]; intros d; [done|].
  change (List.last (d :: a :: l) d') with (List.last (a :: l) d').
  rewrite IH, last_cons. by destruct (last l).
Qed.

Lemma rlink_chain_root s path ancestors :
  rlink_chain s path ancestors →
  rlink_of (node_at s (default path (last ancestors))) = None.
Proof.
  induction 1 as [|path l ln parent ancestors _ _ _ _ _ IH]; [done|].
  rewrite last_cons. by destruct (last ancestors).
Qed.

(** C3 (counterexample).  From the leaf [Pet] of [Person -> owns -> Pet], in
    reverse mode with [all_fragments] set, the result is not the root
    [Person] (reference [0]) but a new disjunction of [Pet] and [Person],
    though the chain has one root only. *)
Lemma C3_counterexample :
  rlink_chain pet_store 2 [0] ∧
  ∃ s', visit_EntitySet 2 (extractor true true) 2 pet_store = Done (3, s') ∧
        node_at s' 3 = PathCombination Disjunction {[2; 0]} ∧
        rlink_of (node_at s' 2) = Some 1.
Proof.
  split.
  - eapply chain_step; [done|done|done|done|]. by apply chain_root.
  - eexists. split_and!.
    + vm_compute. reflexivity.
    + vm_compute. reflexivity.
    + reflexivity.
Qed.

(** C3 (amended).  In reverse mode, on an entity set whose [rlink.source]
    chain ends in a root: when [all_fragments] is unset, or the entity set
    has no [rlink], the result is the root, and nothing is allocated; when
    [all_fragments] is set and the entity set has an [rlink], the result is
    a new disjunction of all the entity sets of the chain, from the one
    visited up to the root. *)
Theorem C3_visit_EntitySet_reverse fuel self s path ancestors :
  reverse self = true →
  rlink_chain s path ancestors →
  length ancestors < fuel →
  rlink_of (node_at s (default path (last ancestors))) = None ∧
  (all_fragments self = false ∨ ancestors = [] →
   visit_EntitySet fuel self path s = Done (default path (last ancestors), s)) ∧
  (all_fragments self = true → ancestors ≠ [] →
   visit_EntitySet fuel self path s
     = Done (length (nodes s),
             Store (nodes s ++ [PathCombination Disjunction
                                  (list_to_set (path :: ancestors))])
                   (sets s))).
Proof.
  intros Hrev Hchain Hfuel. split; [by apply rlink_chain_root|].
  unfold visit_EntitySet. rewrite Hrev.
  rewrite (M_bind_Done _ _ _ _ _ (walk_rlinks_chain _ _ _ Hchain fuel [path] Hfuel)).
  cbn [app length]. split.
  - intros Hroot.
    assert (bool_decide (S (length ancestors) = 1) || negb (all_fragments self)
              = true) as ->.
    { destruct Hroot as [->| ->]; [apply orb_true_r|done]. }
    by rewrite last_cons_default.
  - intros Hall Hne. rewrite Hall, orb_false_r.
    rewrite bool_decide_eq_false_2; [done|]. destruct ancestors; [done|simpl; lia].
Qed.

Lemma C3_visit_EntitySet_reverse_witness :
  rlink_of (node_at pet_store 0) = None ∧
  (false = false ∨ [0] = [] →
   visit_EntitySet 2 (extractor true false) 2 pet_store = Done (0, pet_store)) ∧
  (false = true → [0] ≠ [] →
   visit_EntitySet 2 (extractor true false) 2 pet_store
     = Done (3, Store (nodes pet_store ++ [PathCombination Disjunction
                                             (list_to_set [2; 0])])
                      (sets pet_store))).
Proof.
  apply (C3_visit_EntitySet_reverse 2 (extractor true false) pet_store 2 [0]).
  - reflexivity.
  - eapply chain_step; [reflexivity|reflexivity|reflexivity|reflexivity|].
    apply chain_root; reflexivity.
  - simpl. lia.
Defined.

(** ** [extract_prefixes] *)

(** A recognised wrapper is looked through ... *)
Lemma extract_prefixes_SubgraphRef get_id fuel s expr r prefixes :
  node_at s expr = SubgraphRef r →
  extract_prefixes get_id (S fuel) s expr (Some prefixes)
    = extract_prefixes get_id fuel s r (Some prefixes).
Proof. intros Hn. cbn [extract_prefixes]. by rewrite Hn. Qed.

(** ... an entity set with an identity is recorded ... *)
Lemma extract_prefixes_root_entity get_id fuel s expr e key prefixes :
  node_at s expr = EntitySet e →
  es_rlink e = None →
  get_id s expr = Done (IdStr key) →
  key ≠ "" →
  index_get prefixes (IdStr key) = None →
  extract_prefixes get_id (S fuel) s expr (Some prefixes)
    = Done (index_put prefixes (IdStr key) {[expr]}).
Proof.
  intros Hn Hroot Hid Hkey Hnew. cbn [extract_prefixes]. rewrite Hn, Hid.
  simpl. by rewrite bool_decide_eq_true_2, Hnew, Hroot.
Qed.

(** ... and a node of a class the function does not know stops it. *)
Lemma extract_prefixes_unexpected get_id fuel s expr prefixes :
  node_at s expr = Other →
  extract_prefixes get_id (S fuel) s expr prefixes
    = Fail (AssertionError UnexpectedNode).
Proof. intros Hn. cbn [extract_prefixes]. by rewrite Hn. Qed.

(** C10.  On a full query expression or a constant, [extract_prefixes]
    returns the index it was given, unchanged (and an empty index when it was
    given none). *)
Theorem C10_extract_prefixes_skips get_id fuel s expr prefixes :
  node_at s expr = GraphExpr ∨ node_at s expr = Constant →
  extract_prefixes get_id (S fuel) s expr (Some prefixes) = Done prefixes ∧
  extract_prefixes get_id (S fuel) s expr None = Done [].
Proof. intros [Hn|Hn]; cbn [extract_prefixes]; by rewrite Hn. Qed.

Lemma C10_extract_prefixes_skips_witness :
  extract_prefixes id_attr 1 query_store 0 (Some [(IdStr "Person", {[5]})])
    = Done [(IdStr "Person", {[5]})] ∧
  extract_prefixes id_attr 1 query_store 0 None = Done [].
Proof.
  apply (C10_extract_prefixes_skips id_attr 0 query_store 0).
  left. reflexivity.
Defined.

(** ** [copy_path] *)

(** The copy of a root entity set holds the very set of users of its
    source: the constructor is handed [path.users], not a copy. *)
Lemma copy_path_root_shares_users fuel s path e connect_to_origin :
  node_at s path = EntitySet e →
  es_rlink e = None →
  ∃ s' e',
    copy_path fuel path connect_to_origin s = Done (Some (length (nodes s)), s') ∧
    node_at s' (length (nodes s)) = EntitySet e' ∧
    es_users e' = es_users e ∧
    es_joins e' = es_joins e ∧
    es_rewrite_flags e' = length (sets s) ∧
    node_at s' path = EntitySet e.
Proof.
  intros Hn Hroot. unfold copy_path.
  rewrite (M_bind_Done _ _ s (node_at s path) s) by done. rewrite Hn.
  eexists _, _. split_and!.
  - unfold set_copy, alloc, mbind, M_mbind, M_bind. cbn [nodes sets].
    rewrite Hroot. by destruct fuel.
  - by rewrite node_at_alloc, decide_True.
  - done.
  - done.
  - done.
  - rewrite node_at_alloc, decide_False; [done|].
    assert (path < length (nodes s)); [|simpl; lia].
    apply node_at_allocated. by rewrite Hn.
Qed.

(** Hence, for every root entity set, a user added to the copy is a user of
    the source. *)
Lemma copy_path_root_mutation_visible fuel s path e connect_to_origin a :
  node_at s path = EntitySet e →
  es_rlink e = None →
  es_users e < length (sets s) →
  ∃ s1 s2 r,
    copy_path fuel path connect_to_origin s = Done (Some r, s1) ∧
    r ≠ path ∧
    users_add r a s1 = Done ((), s2) ∧
    users_of s1 path = users_of s path ∧
    users_of s2 path = {[a]} ∪ users_of s path.
Proof.
  intros Hn Hroot Hu.
  assert (path < length (nodes s)) as Hlt
    by (apply node_at_allocated; by rewrite Hn).
  unfold copy_path.
  rewrite (M_bind_Done _ _ s (node_at s path) s) by done. rewrite Hn.
  set (e' := copy_entity_set path e connect_to_origin None (length (sets s))).
  set (s1 := Store (nodes s ++ [EntitySet e']) (sets s ++ [set_at s (es_rewrite_flags e)])).
  assert (node_at s1 (length (nodes s)) = EntitySet e') as Hnew
    by (unfold s1; by rewrite node_at_alloc, decide_True).
  assert (node_at s1 path = EntitySet e) as Hold.
  { unfold s1. rewrite node_at_alloc, decide_False by lia. done. }
  assert (set_at s1 (es_users e) = set_at s (es_users e)) as Hset.
  { unfold set_at, s1. simpl. by rewrite lookup_app_l. }
  exists s1, (Store (nodes s1) (<[es_users e := {[a]} ∪ set_at s1 (es_users e)]> (sets s1))),
         (length (nodes s)).
  split_and!.
  - unfold set_copy, alloc, mbind, M_mbind, M_bind. cbn [nodes sets].
    rewrite Hroot. by destruct fuel.
  - lia.
  - unfold users_add. rewrite (M_bind_Done _ _ s1 (node_at s1 (length (nodes s))) s1) by done.
    by rewrite Hnew.
  - unfold users_of. by rewrite Hold, Hn.
  - unfold users_of. rewrite Hn.
    change (node_at (Store (nodes s1) _) path) with (node_at s1 path).
    rewrite Hold. cbn [attr_users]. unfold set_at at 1. cbn [sets].
    rewrite list_lookup_insert_eq; [by rewrite Hset|].
    unfold s1. simpl. rewrite length_app. lia.
Qed.

(** C1 (evaluation at the failing input).  Copying the leaf [Pet] of
    [Person -> owns -> Pet] gives the entity set [3], the link [4] and the
    ancestor [5].  The copies of the entity sets hold the same [users] set
    objects as their sources, so adding a user to the copy [3] shows up on
    the source [2]; the link and the rewrite flags were copied and are not
    affected. *)
Theorem C1_copy_path_shares_users :
  ∃ s1 s2 s3,
    copy_path 2 2 false pet_store = Done (Some 3, s1) ∧
    attr_users (node_at s1 3) = attr_users (node_at s1 2) ∧
    attr_users (node_at s1 5) = attr_users (node_at s1 0) ∧
    attr_users (node_at s1 4) ≠ attr_users (node_at s1 1) ∧
    attr_rewrite_flags (node_at s1 3) ≠ attr_rewrite_flags (node_at s1 2) ∧
    users_of s1 2 = {[9]} ∧
    users_add 3 99 s1 = Done ((), s2) ∧
    users_of s2 2 = {[9; 99]} ∧
    rewrite_flags_add 3 99 s1 = Done ((), s3) ∧
    rewrite_flags_of s3 2 = rewrite_flags_of s1 2.
Proof.
  eexists _, _, _. split_and!.
  - vm_compute. reflexivity.
  - reflexivity.
  - reflexivity.
  - vm_compute. congruence.
  - vm_compute. congruence.
  - vm_compute. reflexivity.
  - vm_compute. reflexivity.
  - vm_compute. reflexivity.
  - vm_compute. reflexivity.
  - vm_compute. reflexivity.
Qed.

End GraphFacts.

(** * Further facts about type inference *)

Module InferExtra.
Import Infer InferSpec InferFacts.

(** ** [infer_type] *)

(** What [infer_type] returns has passed its closing check: it is [None], a
    prototype, or a tuple or list with a prototype at position 1. *)
Theorem infer_type_postcondition schema n v :
  infer_type schema n = Ok v → acceptable v.
Proof. apply infer_type_acceptable. Qed.

Lemma infer_type_postcondition_witness :
  acceptable (Proto "std::bool").
Proof.
  apply (infer_type_postcondition (schema_with_rules asymmetric_rules)
           simple_comparison).
  reflexivity.
Defined.



(** The closing check lets through again what it let through once. *)
Lemma infer_type_check_again schema n :
  infer_type schema n ≫= check_result = infer_type schema n.
Proof.
  destruct (infer_type schema n) as [v|e] eqn:Hn; [|done].
  simpl. apply check_result_acceptable. by eapply infer_type_acceptable.
Qed.

(** Reference expressions, subquery references, constants with a
    replacement expression, one-column queries and non-empty combinations
    have the type of the expression they wrap (for a combination, of its
    first member), and fail as it fails. *)
Theorem infer_type_passes schema w e :
  passes_type w e → infer_type schema w = infer_type schema e.
Proof.
  intros Hw. destruct Hw; cbn [infer_type]; apply infer_type_check_again.
Qed.

Lemma infer_type_passes_witness :
  infer_type (schema_with_rules asymmetric_rules)
             (GraphExpr None [SelectorExpr simple_comparison] [] [])
    = infer_type (schema_with_rules asymmetric_rules) simple_comparison.
Proof. apply infer_type_passes. constructor. Defined.

Lemma mapM_ext {A B} (f g : A → result B) (l : list A) :
  (∀ x, f x = g x) → mapM f l = mapM g l.
Proof.
  intros Hfg. induction l as [|x l IH]; [done|]. cbn [mapM].
  by rewrite Hfg, IH.
Qed.

Local Ltac child_free Hf :=
  apply (op_free_incl _ _ _ Hf); cbn [descendants flat_map];
  intros k Hk;
  repeat first [rewrite elem_of_cons in Hk | rewrite elem_of_app in Hk];
  repeat first [rewrite elem_of_cons | rewrite elem_of_app]; tauto.

Local Ltac agree s1 s2 Hs :=
  repeat (simpl;
          first [ done
                | rewrite (same_schema_get _ _ _ Hs)
                | rewrite (same_resolve_pointer _ _ _ Hs)
                | rewrite (same_getptr _ _ _ Hs)
                | rewrite (same_nearest _ _ _ Hs)
                | rewrite (same_returntype _ _ _ Hs)
                | rewrite (same_from_subtypes _ _ _ Hs)
                | rewrite (mapM_ext (schema_get s1) (schema_get s2) _
                                    (same_schema_get _ _ _ Hs))
                | match goal with
                  | |- context [mbind _ ?m] =>
                      lazymatch m with
                      | context [s1] => fail
                      | _ => destruct m
                      end
                  end ]).

(** The type of an expression depends on the type rules of the operators
    that occur in it only: two schemas that differ in the rules of [op] give
    every expression free of [op] the same type. *)
Theorem infer_type_ignores_absent_rules op s1 s2 n :
  same_but_rules_of op s1 s2 → op_free op n →
  infer_type s1 n = infer_type s2 n.
Proof.
  intros Hs. induction n using infer_type_ind; intros Hfree; cbn [infer_type].
  - rewrite IHn; [done | child_free Hfree].
  - rewrite IHn; [done | child_free Hfree].
  - rewrite IHn; [done | child_free Hfree].
  - destruct (bool_like_operator op0); [by rewrite (same_schema_get _ _ _ Hs)|].
    rewrite IHn1, IHn2 by child_free Hfree.
    apply op_free_head in Hfree. cbn [operator_of] in Hfree.
    assert (op0 ≠ op) as Hne by congruence.
    destruct (infer_type s2 n1) as [tl|]; [|done].
    destruct (infer_type s2 n2) as [tr|]; [|done]. simpl.
    by rewrite !(same_get_result _ _ _ Hs).
  - rewrite IHn by child_free Hfree.
    apply op_free_head in Hfree. cbn [operator_of] in Hfree.
    assert (op0 ≠ op) as Hne by congruence.
    destruct (infer_type s2 n) as [t|]; [|done]. simpl.
    by rewrite (same_get_result _ _ _ Hs).
  - rewrite IHn; [done | child_free Hfree].
  - rewrite IHn; [done | child_free Hfree].
  - rewrite IHn; [done | child_free Hfree].
  - clear Hfree.
    destruct n as [r name|r name|r name|e|e|c els|name args|[e|] t i|l o r|o e
                  |c|lp|c [|p ps]|e mt [|st sts]|g sel grp srt|e|r|e|e|els|r e];
      simpl in H; try done; cbn [infer_type]; try (destruct r);
      try (destruct sel as [|s [|? ?]]; [|destruct s|]); simpl in H; try done;
      agree s1 s2 Hs.
Qed.

Lemma swap_direction_same_but op schema :
  same_but_rules_of op schema (swap_direction op schema).
Proof.
  split; try done. intros k args Hk. simpl.
  destruct k; simpl in Hk; by rewrite decide_False.
Qed.

Lemma infer_type_ignores_absent_rules_witness :
  infer_type (schema_with_rules asymmetric_rules) simple_comparison
    = infer_type (swap_direction plus (schema_with_rules asymmetric_rules))
                 simple_comparison.
Proof.
  apply (infer_type_ignores_absent_rules plus).
  - apply swap_direction_same_but.
  - intros m Hm. apply list_elem_of_In in Hm. simpl in Hm.
    destruct Hm as [<-|[<-|[<-|[<-|[]]]]]; discriminate.
Defined.

(** ** [infer_arg_types] *)

Lemma infer_arg_types_lookup find_children schema tree m :
  infer_arg_types find_children schema tree = Ok m →
  ∀ k t, m !! k = Some t ↔
         ∃ b, b ∈ find_children tree flt ∧
              arg_occurrence schema b = Ok (Some (k, t)).
Proof.
  unfold infer_arg_types. intros Hm k t. split.
  - intros Hk. destruct (infer_arg_loop_source _ _ _ _ _ _ Hm Hk) as [He|?]; [|done].
    by rewrite lookup_empty in He.
  - intros (b & Hb & Hocc). by eapply infer_arg_loop_lookup.
Qed.

(** A returned mapping holds exactly the types inferred at the scanned
    operators: nothing is missing and nothing is made up. *)
Theorem infer_arg_types_exact find_children schema tree m :
  infer_arg_types find_children schema tree = Ok m →
  ∀ k t, m !! k = Some t ↔
         ∃ b, b ∈ find_children tree flt ∧
              arg_occurrence schema b = Ok (Some (k, t)).
Proof. apply infer_arg_types_lookup. Qed.

Lemma infer_arg_types_exact_witness :
  ({[0 := SetType (Proto "std::int")]} : gmap nat pyval) !! 0
    = Some (SetType (Proto "std::int")) ↔
  ∃ b, b ∈ find_in_tree membership_tree flt ∧
       arg_occurrence (schema_with_rules asymmetric_rules) b
         = Ok (Some (0, SetType (Proto "std::int"))).
Proof.
  apply (infer_arg_types_exact find_in_tree (schema_with_rules asymmetric_rules)
           membership_tree).
  by vm_compute.
Defined.

Lemma infer_arg_loop_raises schema ops m b e :
  b ∈ ops → arg_occurrence schema b = Raise e →
  ∃ e', infer_arg_loop schema ops m = Raise e'.
Proof.
  revert m. induction ops as [|b0 ops IH]; intros m; [by intros ?%elem_of_nil|].
  intros [->|Hin]%elem_of_cons Hocc; simpl.
  - rewrite Hocc. eauto.
  - destruct (arg_occurrence schema b0) as [[[i t]|]|e0]; simpl; [| by apply IH | eauto].
    destruct (record_arg m i t) as [m1|e1]; simpl; [by apply IH|eauto].
Qed.

(** No error is swallowed: when the inference at one scanned operator
    raises, [infer_arg_types] raises. *)
Theorem infer_arg_types_propagates find_children schema tree b e :
  b ∈ find_children tree flt →
  arg_occurrence schema b = Raise e →
  ∃ e', infer_arg_types find_children schema tree = Raise e'.
Proof. apply infer_arg_loop_raises. Qed.

Lemma infer_arg_types_propagates_witness :
  ∃ e', infer_arg_types find_in_tree (schema_with_rules asymmetric_rules)
          unsupported_tree = Raise e'.
Proof.
  apply (infer_arg_types_propagates find_in_tree
           (schema_with_rules asymmetric_rules) unsupported_tree
           (BinOp (AtomicRefSimple person "name") odd_operator (param 1))
           (ValueError UnsupportedOperator)).
  - vm_compute. right. by left.
  - reflexivity.
Defined.

Lemma infer_arg_types_Ok_typed find_children schema tree m :
  infer_arg_types find_children schema tree = Ok m →
  Forall (λ b, ∃ o, arg_occurrence schema b = Ok o) (find_children tree flt).
Proof.
  intros Hm. apply Forall_forall. intros b Hb.
  destruct (arg_occurrence schema b) as [o|e] eqn:Hocc; [eauto|].
  destruct (infer_arg_loop_raises schema (find_children tree flt) ∅ b e Hb Hocc)
    as [e' He'].
  unfold infer_arg_types in Hm. congruence.
Qed.

(** The mapping does not depend on the order in which the operators are
    scanned: two traversals that find the same operators, in whatever
    order, give the same mapping. *)
Theorem infer_arg_types_order_independent find1 find2 schema tree m :
  find1 tree flt ≡ₚ find2 tree flt →
  infer_arg_types find1 schema tree = Ok m →
  infer_arg_types find2 schema tree = Ok m.
Proof.
  intros Hperm Hm.
  pose proof (infer_arg_types_Ok_typed _ _ _ _ Hm) as Htyped.
  pose proof (infer_arg_types_lookup _ _ _ _ Hm) as Hexact.
  destruct (infer_arg_types_agree find2 schema tree) as [m' Hm'].
  - by rewrite <- Hperm.
  - intros b1 b2 k t1 t2 H1 H2 Ho1 Ho2.
    rewrite <- Hperm in H1, H2.
    assert (m !! k = Some t1) by (apply Hexact; eauto).
    assert (m !! k = Some t2) by (apply Hexact; eauto).
    congruence.
  - rewrite Hm'. f_equal. apply map_eq. intros k.
    pose proof (infer_arg_types_lookup _ _ _ _ Hm') as Hexact'.
    destruct (m !! k) as [t|] eqn:Hk.
    + apply Hexact in Hk as (b & Hb & Hocc). apply Hexact'.
      exists b. by rewrite <- Hperm.
    + destruct (m' !! k) as [t|] eqn:Hk'; [|done].
      apply Hexact' in Hk' as (b & Hb & Hocc).
      assert (m !! k = Some t) as Hmk
        by (apply Hexact; exists b; by rewrite Hperm).
      congruence.
Qed.

Lemma infer_arg_types_order_independent_witness :
  infer_arg_types find_in_tree_rev (schema_with_rules asymmetric_rules)
    agreeing_tree = Ok {[0 := Proto "std::int"]}.
Proof.
  apply (infer_arg_types_order_independent find_in_tree find_in_tree_rev).
  - unfold find_in_tree_rev. by rewrite reverse_Permutation.
  - by vm_compute.
Defined.

End InferExtra.

(** * Further facts about path identities *)

Module LinearExtra.
Import Linear PathId PathJoin LinearFacts.

(** ** [LinearPath.__eq__] *)

(** [__eq__] is an equivalence on paths, of whatever shape. *)
Theorem LinearPath_eq_equivalence :
  (∀ p, LinearPath_eq p p = true) ∧
  (∀ p q, LinearPath_eq p q = true → LinearPath_eq q p = true) ∧
  (∀ p q r, LinearPath_eq p q = true → LinearPath_eq q r = true →
            LinearPath_eq p r = true).
Proof.
  split_and!.
  - apply LinearPath_eq_refl.
  - intros p q. by rewrite LinearPath_eq_sym.
  - intros p q r [Hpq H1]%LinearPath_eq_true [Hqr H2]%LinearPath_eq_true.
    apply LinearPath_eq_true. split; [congruence|].
    intros i Hi. rewrite H1 by done. apply H2. by rewrite <- Hpq.
Qed.

(** ** [LinearPath.add], [walk_path_towards_root], [get_path_id] *)

Lemma add_stored p l d t :
  add p l d t = match stored_link l with
                | Some l' => Ok (p ++ [Step l' d; t])
                | None => Raise IndexError
                end.
Proof.
  unfold add, stored_link. destruct (generic l); simpl; [done|].
  by destruct (bases l).
Qed.

(** Walking appends to the trail and never looks at what is on it. *)
Lemma walk_steps_app step t1 t2 :
  walk_steps step (t1 ++ t2) = p ← walk_steps step t2; Ok (t1 ++ p).
Proof.
  revert t2. induction step as [c d|c d l|c d l src IH]; intros t2; simpl.
  - done.
  - done.
  - rewrite !add_stored. destruct (stored_link l) as [l'|]; simpl; [|done].
    by rewrite <- app_assoc, IH.
Qed.

Lemma walk_steps_length step trail p :
  walk_steps step trail = Ok p →
  ∃ k, length p = length trail + 2 * k.
Proof.
  revert trail. induction step as [c d|c d l|c d l src IH]; intros trail; simpl.
  - intros [= <-]. exists 0. lia.
  - done.
  - rewrite add_stored. destruct (stored_link l) as [l'|]; simpl; [|done].
    intros [k Hk]%IH. exists (S k). rewrite length_app in Hk. simpl in Hk. lia.
Qed.

(** A path identity has odd length, with or without a join point. *)
Lemma get_path_id_odd node join p :
  get_path_id node join = Ok p → Nat.Odd (length p).
Proof.
  unfold get_path_id. simpl.
  destruct (walk_steps node [Node (sx_prototype node)]) as [p1|] eqn:H1; [|done].
  apply walk_steps_length in H1 as [k1 Hk1]. simpl in *.
  destruct join as [j|]; simpl.
  - destruct (item_name (List.last p1 Null)) as [name|]; simpl; [|done].
    destruct (j name) as [jp|]; simpl.
    + destruct (walk_steps jp p1) as [p2|] eqn:H2; simpl; [|done].
      apply walk_steps_length in H2 as [k2 Hk2].
      intros [= <-]. rewrite length_reverse. exists (k1 + k2). lia.
    + intros [= <-]. rewrite length_reverse. exists k1. lia.
  - intros [= <-]. rewrite length_reverse. exists k1. lia.
Qed.

(** So two path identities are equal for [__eq__] exactly when they are the
    same sequence: on what [get_path_id] builds, no element escapes the
    comparison. *)
Theorem get_path_id_eq_exact node join p q :
  get_path_id node join = Ok p →
  LinearPath_eq p q = true ↔ p = q.
Proof. intros Hp. apply LinearPath_eq_odd. by eapply get_path_id_odd. Qed.

Lemma get_path_id_eq_exact_witness :
  LinearPath_eq [Node "Person"; Step owns Outbound; Node "Pet"]
                [Node "Person"; Step likes Outbound; Node "Pet"] = true ↔
  [Node "Person"; Step owns Outbound; Node "Pet"]
    = [Node "Person"; Step likes Outbound; Node "Pet"].
Proof.
  apply (get_path_id_eq_exact pet_sx None). reflexivity.
Defined.

(** The identity of a step is the identity of its source, followed by the
    step: the stored link with the direction of the step's class, and the
    step's concept.  So the identity of every ancestor is a prefix of the
    identity of the node. *)
Theorem get_path_id_extends c d l l' source :
  stored_link l = Some l' →
  get_path_id (SxStep c d l source) None
    = p ← get_path_id source None; Ok (p ++ [Step l' d; Node c]).
Proof.
  intros Hl. unfold get_path_id. simpl. rewrite add_stored, Hl. simpl.
  pose proof (walk_steps_app source [Node c; Step l' d]
                [Node (sx_prototype source)]) as Happ.
  simpl in Happ. rewrite Happ.
  destruct (walk_steps source [Node (sx_prototype source)]) as [p|]; simpl; [|done].
  by rewrite !reverse_cons, <- app_assoc.
Qed.

Lemma get_path_id_extends_witness :
  get_path_id pet_sx None
    = p ← get_path_id person_sx None; Ok (p ++ [Step owns Outbound; Node "Pet"]).
Proof. apply get_path_id_extends. reflexivity. Defined.

(** The walk ends on the concept of the root of the chain. *)
Lemma walk_steps_last node trail p root :
  walk_steps node (trail ++ [Node (sx_prototype node)]) = Ok p →
  sx_root node = Some root →
  List.last p Null = Node root.
Proof.
  revert trail. induction node as [c d|c d l|c d l src IH]; intros trail; simpl.
  - intros [= <-] [= <-]. by rewrite List.last_last.
  - done.
  - rewrite add_stored. destruct (stored_link l) as [l'|]; simpl; [|done].
    intros Hwalk Hroot.
    apply (IH (trail ++ [Node c; Step l' d])); [|done].
    by rewrite <- !app_assoc in *.
Qed.

(** With a join point, the walk goes on from the root of the chain along
    the chain of the expression [join] finds for the root concept: the
    identity is that of the join point without its last element (the concept
    of the join point itself), followed by the identity the node has without
    join.  When [join] finds nothing the identity is the one without join. *)
Theorem get_path_id_join node join root pn :
  sx_root node = Some root →
  get_path_id node None = Ok pn →
  get_path_id node (Some join)
    = match join root with
      | Some j => pj ← get_path_id j None;
                  Ok (take (length pj - 1) pj ++ pn)
      | None => Ok pn
      end.
Proof.
  intros Hroot. unfold get_path_id. cbn [walk_path_towards_root].
  destruct (walk_steps node [Node (sx_prototype node)]) as [p1|] eqn:H1;
    simpl; [|done].
  intros [= <-].
  rewrite (walk_steps_last node [] p1 root H1 Hroot). simpl.
  destruct (join root) as [j|]; simpl; [|done].
  pose proof (walk_steps_app j p1 []) as Happ. rewrite app_nil_r in Happ.
  rewrite Happ.
  pose proof (walk_steps_app j [Node (sx_prototype j)] []) as Happ'.
  rewrite app_nil_r in Happ'. rewrite Happ'.
  destruct (walk_steps j []) as [w|]; simpl; [|done].
  rewrite reverse_app. do 2 f_equal.
  rewrite reverse_cons, length_app. simpl.
  rewrite Nat.add_sub. by rewrite take_app_length.
Qed.

Lemma get_path_id_join_witness :
  get_path_id pet_sx (Some join_person)
    = match join_person "Person" with
      | Some j => pj ← get_path_id j None;
                  Ok (take (length pj - 1) pj
                        ++ [Node "Person"; Step owns Outbound; Node "Pet"])
      | None => Ok [Node "Person"; Step owns Outbound; Node "Pet"]
      end.
Proof.
  apply (get_path_id_join pet_sx join_person "Person").
  - reflexivity.
  - reflexivity.
Defined.

(** ** [LinearPath.__str__] *)

Lemma range_step_odd_snoc n :
  Nat.Odd n → range_step 1 (n + 2 - 1) 2 = range_step 1 (n - 1) 2 ++ [n].
Proof.
  intros [k ->]. destruct k as [|k]; [done|]. unfold range_step.
  replace ((2 * S k + 1 + 2 - 1 - 1 + (2 - 1)) / 2) with (S (S k))
    by (apply (Nat.div_unique _ 2 (S (S k)) 0); lia).
  replace ((2 * S k + 1 - 1 - 1 + (2 - 1)) / 2) with (S k)
    by (apply (Nat.div_unique _ 2 (S k) 0); lia).
  rewrite (seq_S (S k)), fmap_app. simpl. do 3 f_equal. lia.
Qed.

Lemma str_loop_app ds self is1 is2 acc :
  str_loop ds self (is1 ++ is2) acc
    = acc' ← str_loop ds self is1 acc; str_loop ds self is2 acc'.
Proof.
  revert acc. induction is1 as [|i is1 IH]; intros acc; simpl; [done|].
  destruct (self !! i) as [x|]; simpl; [|done].
  destruct (step_parts x) as [[l d]|]; simpl; [|done].
  destruct (self !! (i + 1)) as [y|]; simpl; [|done]. apply IH.
Qed.

Lemma str_loop_ext ds self ext indices acc :
  (∀ i, i ∈ indices → i + 1 < length self) →
  str_loop ds (self ++ ext) indices acc = str_loop ds self indices acc.
Proof.
  revert acc. induction indices as [|i indices IH]; intros acc Hin;
    cbn [str_loop]; [done|].
  assert (i + 1 < length self) by (apply Hin; by left).
  unfold LinearPath. rewrite !(lookup_app_l self ext) by lia.
  destruct (self !! i) as [x|]; simpl; [|done].
  destruct (step_parts x) as [[l d]|]; simpl; [|done].
  destruct (self !! (i + 1)) as [y|]; simpl; [|done].
  apply IH. intros j Hj. apply Hin. by right.
Qed.

(** Printing follows the construction: the text of a path extended by a step
    is the text of the path followed by [[<direction><link>]<target>]. *)
Theorem LinearPath_str_extends direction_str p l d t :
  Nat.Odd (length p) →
  LinearPath_str direction_str (p ++ [Step l d; t])
    = s ← LinearPath_str direction_str p;
      Ok (s +:+ "[" +:+ direction_str d +:+ link_name l +:+ "]"
            +:+ concept_text direction_str t).
Proof.
  intros Hodd. destruct p as [|first p].
  { destruct Hodd as [k Hk]. simpl in Hk. lia. }
  set (self := first :: p) in *.
  assert (LinearPath_str direction_str (self ++ [Step l d; t])
          = name ← item_name first;
            str_loop direction_str (self ++ [Step l d; t])
              (range_step 1 (length self + 2 - 1) 2) name) as ->.
  { unfold LinearPath_str, self. cbn [app].
    change (first :: p ++ [Step l d; t]) with ((first :: p) ++ [Step l d; t]).
    by rewrite length_app. }
  assert (LinearPath_str direction_str self
          = name ← item_name first;
            str_loop direction_str self (range_step 1 (length self - 1) 2) name)
    as -> by done.
  destruct (item_name first) as [name|]; [|done]. cbn [mbind result_mbind result_bind].
  rewrite (range_step_odd_snoc _ Hodd), str_loop_app.
  rewrite str_loop_ext.
  2:{ intros i [[j ->] Hi]%elem_of_odd_indices. destruct Hodd as [k Hk]. lia. }
  destruct (str_loop direction_str self _ name) as [s|]; [|done].
  cbn [mbind result_mbind result_bind str_loop].
  unfold LinearPath.
  rewrite !(lookup_app_r self) by lia.
  replace (length self - length self) with 0 by lia.
  replace (length self + 1 - length self) with 1 by lia.
  done.
Qed.

Lemma LinearPath_str_extends_witness :
  LinearPath_str arrow ([Node "Person"] ++ [Step owns Outbound; Node "Pet"])
    = s ← LinearPath_str arrow [Node "Person"];
      Ok (s +:+ "[" +:+ arrow Outbound +:+ link_name owns +:+ "]"
            +:+ concept_text arrow (Node "Pet")).
Proof.
  apply (LinearPath_str_extends arrow [Node "Person"] owns Outbound (Node "Pet")).
  exists 0. reflexivity.
Defined.

End LinearExtra.

(** * Facts about [PathIndex] *)

Module IndexFacts.
Import Linear Graph Index GraphFacts.

Lemma index_get_put idx k v k' :
  index_get (index_put idx k v) k'
    = if decide (k' = k) then Some v else index_get idx k'.
Proof.
  induction idx as [|[k0 v0] idx IH]; simpl.
  - repeat case_decide; congruence.
  - destruct (decide (k0 = k)) as [->|Hne]; simpl.
    + repeat case_decide; congruence.
    + rewrite IH. repeat case_decide; congruence.
Qed.

(** Insertion and lookup: a key that is a path or a string is stored, with
    the value turned into a set, and found again; the other keys keep what
    they had.  Any other key is refused with [TypeError]. *)
Theorem PathIndex_setitem_lookup idx key value :
  if valid_key key then
    ∃ idx', PathIndex_setitem_value idx key value = Done idx' ∧
            index_get idx' key = Some (as_set value) ∧
            ∀ k, k ≠ key → index_get idx' k = index_get idx k
  else PathIndex_setitem_value idx key value = Fail TypeError.
Proof.
  unfold PathIndex_setitem_value, PathIndex_setitem.
  destruct key; simpl; try done.
  all: eexists; split_and!; [done| |].
  all: try (rewrite index_get_put; by rewrite decide_True).
  all: intros k Hk; rewrite index_get_put; by rewrite decide_False.
Qed.

Lemma obj_get_put idx k v k' :
  obj_get (obj_put idx k v) k'
    = if decide (k' = k) then Some v else obj_get idx k'.
Proof.
  induction idx as [|[k0 v0] idx IH]; simpl.
  - repeat case_decide; congruence.
  - destruct (decide (k0 = k)) as [->|Hne]; simpl.
    + repeat case_decide; congruence.
    + rewrite IH. repeat case_decide; congruence.
Qed.

Lemma obj_put_new idx k v :
  obj_get idx k = None → obj_put idx k v = idx ++ [(k, v)].
Proof.
  induction idx as [|[k0 v0] idx IH]; simpl; [done|].
  case_decide; [done|]. intros Hk. by rewrite IH.
Qed.

Lemma obj_get_elem idx k c : obj_get idx k = Some c → c ∈ idx.*2.
Proof.
  induction idx as [|[k0 v0] idx IH]; simpl; [done|].
  case_decide.
  - intros [= ->]. by left.
  - intros Hk. right. by apply IH.
Qed.

Lemma obj_get_None idx k : k ∉ idx.*1 → obj_get idx k = None.
Proof.
  induction idx as [|[k0 v0] idx IH]; simpl; [done|].
  intros [Hne Hk]%not_elem_of_cons. rewrite decide_False by done. by apply IH.
Qed.

(** Keys with set objects of their own: one object, one key. *)
Lemma obj_get_inj idx k1 k2 c :
  NoDup idx.*2 →
  obj_get idx k1 = Some c → obj_get idx k2 = Some c → k1 = k2.
Proof.
  induction idx as [|[k0 v0] idx IH]; simpl; [done|].
  intros [Hnotin Hnodup]%NoDup_cons.
  destruct (decide (k0 = k1)) as [E1|H1]; destruct (decide (k0 = k2)) as [E2|H2].
  - congruence.
  - intros [= ->] Hc%obj_get_elem. done.
  - intros Hc%obj_get_elem [= ->]. done.
  - by apply IH.
Qed.

Lemma set_at_insert s r x y :
  r < length (sets s) →
  set_at (Store (nodes s) (<[r := x]> (sets s))) y
    = if decide (y = r) then x else set_at s y.
Proof.
  intros Hr. unfold set_at. simpl. case_decide as Hy.
  - subst. by rewrite list_lookup_insert_eq.
  - by rewrite list_lookup_insert_ne.
Qed.

(** Merging two indices whose keys all have a set object of their own unites
    them key by key: a key of both keeps its set object, now holding the
    union of the two sets; a key of [other] only gets the very set object of
    [other]; every other key keeps its set.  Nothing is overwritten and
    nothing is lost. *)
Theorem PathIndex_update_merges self other s :
  Forall (λ kv, valid_key kv.1 = true) other →
  NoDup other.*1 →
  NoDup (self.*2 ++ other.*2) →
  Forall (λ r, r < length (sets s)) (self.*2 ++ other.*2) →
  ∃ idx' s',
    PathIndex_update self other s = Done (idx', s') ∧
    (∀ k, contents s' idx' k
          = merge (contents s self k) (contents s other k)) ∧
    (∀ k, obj_get idx' k = match obj_get self k with
                           | Some c => Some c
                           | None => obj_get other k
                           end).
Proof.
  unfold PathIndex_update. revert self s.
  induction other as [|[k v] other IH]; intros self s Hvalid Hkeys Hobjs Halloc.
  - exists self, s. split; [done|]. split; intros k.
    + unfold contents. simpl. by destruct (obj_get self k).
    + simpl. by destruct (obj_get self k).
  - apply Forall_cons in Hvalid as [Hk Hvalid]. simpl in Hk.
    apply NoDup_cons in Hkeys as [Hnotin Hkeys].
    cbn [for_in fmap list_fmap snd] in *.
    assert (NoDup (self.*2 ++ other.*2)) as Hobjs'.
    { apply NoDup_app in Hobjs as (Hs & Hcross & Ho).
      apply NoDup_cons in Ho as [Hvo Ho].
      apply NoDup_app. split_and!; [done| |done].
      intros x Hx Hxo. apply (Hcross x Hx). by right. }
    assert (obj_get other k = None) as Hother_k by (by apply obj_get_None).
    destruct (obj_get self k) as [c|] eqn:Hself_k.
    + assert (c < length (sets s)) as Hc.
      { rewrite Forall_forall in Halloc. apply Halloc.
        apply elem_of_app. left. by eapply obj_get_elem. }
      set (s1 := Store (nodes s) (<[c := set_at s c ∪ set_at s v]> (sets s))).
      assert ((set_update c v;; mret self) s = Done (self, s1)) as Hstep by done.
      rewrite (M_bind_Done _ _ _ _ _ Hstep).
      destruct (IH self s1 Hvalid Hkeys Hobjs') as (idx' & s' & Hrun & Hcont & Hobj).
      { unfold s1. cbn [sets]. rewrite length_insert.
        rewrite Forall_app in Halloc. destruct Halloc as [Hs Ho].
        apply Forall_cons in Ho as [_ Ho]. by apply Forall_app. }
      exists idx', s'. split; [done|]. split; intros k'.
      * rewrite Hcont. unfold contents. simpl.
        destruct (decide (k = k')) as [<-|Hne].
        -- rewrite Hself_k, Hother_k. simpl. unfold s1.
           by rewrite set_at_insert, decide_True.
        -- assert (set_at s1 <$> obj_get self k' = set_at s <$> obj_get self k')
             as ->.
           { destruct (obj_get self k') as [c'|] eqn:Hk'; [|done]. simpl.
             unfold s1. rewrite set_at_insert, decide_False; [done| |done].
             intros ->. apply Hne.
             apply NoDup_app in Hobjs' as (Hs & _ & _).
             by apply (obj_get_inj self k k' c). }
           assert (set_at s1 <$> obj_get other k' = set_at s <$> obj_get other k')
             as ->.
           { destruct (obj_get other k') as [v'|] eqn:Hk'; [|done]. simpl.
             unfold s1. rewrite set_at_insert, decide_False; [done| |done].
             intros ->. apply NoDup_app in Hobjs' as (_ & Hcross & _).
             apply (Hcross c); by eapply obj_get_elem. }
           done.
      * rewrite Hobj. simpl. destruct (obj_get self k') as [c'|] eqn:Hk'; [done|].
        case_decide; [|done]. subst. congruence.
    + assert (PathIndex_setitem_obj self k v s = Done (self ++ [(k, v)], s))
        as Hstep.
      { unfold PathIndex_setitem_obj. rewrite obj_put_new by done.
        by destruct k. }
      rewrite (M_bind_Done _ _ _ _ _ Hstep).
      assert (∀ k', obj_get (self ++ [(k, v)]) k'
                    = if decide (k' = k) then Some v else obj_get self k')
        as Hget.
      { intros k'. pose proof (obj_get_put self k v k') as Hp.
        by rewrite (obj_put_new self k v Hself_k) in Hp. }
      destruct (IH (self ++ [(k, v)]) s Hvalid Hkeys) as
        (idx' & s' & Hrun & Hcont & Hobj).
      { rewrite fmap_app. simpl. rewrite <- app_assoc. simpl.
        apply NoDup_app in Hobjs as (Hs & Hcross & Ho).
        apply NoDup_app. split_and!; [done|done|done]. }
      { rewrite fmap_app. simpl. rewrite <- app_assoc. done. }
      exists idx', s'. split; [done|]. split; intros k'.
      * rewrite Hcont. unfold contents. rewrite Hget. simpl.
        destruct (decide (k = k')) as [<-|Hne].
        -- rewrite decide_True by done. rewrite Hself_k, Hother_k. done.
        -- rewrite decide_False by done. done.
      * rewrite Hobj, Hget. simpl.
        destruct (decide (k = k')) as [<-|Hne].
        -- rewrite decide_True by done. by rewrite Hself_k.
        -- rewrite decide_False by done. done.
Qed.

Lemma PathIndex_update_merges_witness :
  ∃ idx' s',
    PathIndex_update [(IdStr "Person", 0)]
                     [(IdStr "Person", 1); (IdStr "Pet", 2)] three_sets
      = Done (idx', s') ∧
    (∀ k, contents s' idx' k
          = merge (contents three_sets [(IdStr "Person", 0)] k)
                  (contents three_sets
                            [(IdStr "Person", 1); (IdStr "Pet", 2)] k)) ∧
    (∀ k, obj_get idx' k
          = match obj_get [(IdStr "Person", 0)] k with
            | Some c => Some c
            | None => obj_get [(IdStr "Person", 1); (IdStr "Pet", 2)] k
            end).
Proof.
  apply (PathIndex_update_merges
           [(IdStr "Person", 0)]
           [(IdStr "Person", 1); (IdStr "Pet", 2)] three_sets).
  - repeat constructor.
  - apply (bool_decide_unpack _). vm_compute. exact I.
  - apply (bool_decide_unpack _). vm_compute. exact I.
  - repeat constructor; simpl; lia.
Defined.

(** Two keys that hold one and the same set object change together: after
    [idx[a] = x; idx[b] = x], an update for [a] shows under [b] as well. *)
Example PathIndex_update_aliased :
  ∃ s', PathIndex_update [(IdStr "a", 0); (IdStr "b", 0)] [(IdStr "a", 1)]
          two_sets
        = Done ([(IdStr "a", 0); (IdStr "b", 0)], s') ∧
        contents two_sets [(IdStr "a", 0); (IdStr "b", 0)] (IdStr "b")
          = Some {[7]} ∧
        contents s' [(IdStr "a", 0); (IdStr "b", 0)] (IdStr "b")
          = Some ({[7]} ∪ {[5]}).
Proof. eexists. split_and!; reflexivity. Qed.

End IndexFacts.

(** * More facts about the path utilities *)

Module GraphExtra.
Import Linear Graph GraphSpec Index GraphMore GraphFacts.

(** ** [visit_EntityLink] *)

Lemma to_root_chain s path ancestors :
  rlink_chain s path ancestors →
  ∀ fuel, length ancestors < fuel →
    to_root fuel path s = Done (default path (last ancestors), s).
Proof.
  induction 1 as [path Hattr Hroot|path l ln parent ancestors Hattr Hl Hln Hsrc _ IH];
    intros fuel Hfuel; (destruct fuel as [|fuel]; [simpl in Hfuel; lia|]);
    cbn [to_root];
    rewrite (M_bind_Done _ _ s (node_at s path) s) by done;
    rewrite (M_bind_Done _ _ _ _ _ (attr_rlink_Done _ s Hattr)).
  - by rewrite Hroot.
  - rewrite Hl. rewrite (M_bind_Done _ _ s (node_at s l) s) by done.
    rewrite Hln. cbn [attr_source].
    rewrite (M_bind_Done _ _ s (Some parent) s) by (by rewrite Hsrc).
    rewrite IH by (simpl in Hfuel; lia).
    rewrite last_cons. by destruct (last ancestors).
Qed.

(** In reverse mode, visiting a link whose source starts a chain of
    [rlink.source] steps gives the root of that chain, whatever
    [all_fragments] says, and allocates nothing: [visit_EntityLink] never
    builds the disjunction that [visit_EntitySet] builds. *)
Theorem visit_EntityLink_root fuel self s path l src ancestors :
  reverse self = true →
  node_at s path = EntityLink l →
  el_source l = Some src →
  rlink_chain s src ancestors →
  length ancestors < fuel →
  visit_EntityLink fuel self path s = Done (default src (last ancestors), s) ∧
  rlink_of (node_at s (default src (last ancestors))) = None.
Proof.
  intros Hrev Hn Hsrc Hchain Hfuel. split; [|by apply rlink_chain_root].
  unfold visit_EntityLink. rewrite Hrev.
  rewrite (M_bind_Done _ _ s (node_at s path) s) by done. rewrite Hn.
  cbn [attr_source].
  rewrite (M_bind_Done _ _ s (Some src) s) by (by rewrite Hsrc).
  by apply to_root_chain.
Qed.

Lemma visit_EntityLink_root_witness :
  visit_EntityLink 2 (extractor true true) 3 toy_store = Done (0, toy_store) ∧
  rlink_of (node_at toy_store 0) = None.
Proof.
  eapply (visit_EntityLink_root 2 (extractor true true) toy_store 3 _ 2 [0]).
  - reflexivity.
  - reflexivity.
  - reflexivity.
  - eapply chain_step; [reflexivity..|]. apply chain_root; reflexivity.
  - simpl. lia.
Defined.

(** ** [extend_binop] *)

Lemma denotes_extend s s' old r t :
  denotes s old r t →
  (∀ x, x < length (nodes s) → node_at s' x = node_at s x) →
  denotes s' old r t.
Proof.
  intros Hd Hext. induction Hd as [r Hr|r lhs op rhs tl tr Hr Hn _ IHl _ IHr].
  - by apply denotes_leaf.
  - eapply denotes_bin; [done| |done|done].
    rewrite Hext; [done|]. apply node_at_allocated. by rewrite Hn.
Qed.

Lemma take_weaken {A} (l k l' : list A) :
  take (length (l ++ k)) l' = l ++ k → take (length l) l' = l.
Proof.
  intros H. apply (f_equal (take (length l))) in H.
  rewrite take_take, Nat.min_l in H by (rewrite length_app; lia).
  by rewrite take_app_length in H.
Qed.

(** Once the chain is a new node, every further expression extends it. *)
Lemma extend_loop_fresh (op : string) (reversed : bool) (old : nat) exprs :
  Forall (λ e, e < old) exprs →
  ∀ s c t,
    old ≤ c → c < length (nodes s) →
    denotes s old c t →
    ∃ r s',
      for_in exprs
        (λ (binop expr : ref),
           if decide (expr ≠ binop) then
             if reversed then alloc (BinOp expr op binop)
             else alloc (BinOp binop op expr)
           else mret binop) c s = Done (r, s') ∧
      take (length (nodes s)) (nodes s') = nodes s ∧
      sets s' = sets s ∧
      length (nodes s') = length (nodes s) + length exprs ∧
      denotes s' old r
        (foldl (λ acc e, if reversed then Bin (Leaf e) op acc
                         else Bin acc op (Leaf e)) t exprs).
Proof.
  induction 1 as [|e exprs He _ IH]; intros s c t Hold Hc Hd.
  - exists c, s. split_and!; [done| |done|simpl; lia|done].
    by rewrite firstn_all.
  - cbn [for_in]. rewrite decide_True by lia.
    set (n := if reversed then BinOp e op c else BinOp c op e).
    set (s1 := Store (nodes s ++ [n]) (sets s)).
    assert ((if reversed then alloc (BinOp e op c) else alloc (BinOp c op e)) s
              = Done (length (nodes s), s1)) as Halloc
      by (unfold s1, n; by destruct reversed).
    rewrite (M_bind_Done _ _ _ _ _ Halloc).
    assert (∀ x, x < length (nodes s) → node_at s1 x = node_at s x) as Hext.
    { intros x Hx. unfold s1. rewrite node_at_alloc, decide_False; [done|lia]. }
    assert (node_at s1 (length (nodes s)) = n) as Hnew
      by (unfold s1; by rewrite node_at_alloc, decide_True).
    destruct (IH s1 (length (nodes s))
                (if reversed then Bin (Leaf e) op t else Bin t op (Leaf e)))
      as (r & s' & Hloop & Htake & Hsets & Hlen & Hden).
    + lia.
    + unfold s1. simpl. rewrite length_app. simpl. lia.
    + pose proof (denotes_extend _ _ _ _ _ Hd Hext) as Hd1.
      unfold n in Hnew. destruct reversed.
      * eapply denotes_bin; [lia|done|by apply denotes_leaf|done].
      * eapply denotes_bin; [lia|done|done|by apply denotes_leaf].
    + exists r, s'. split_and!; [done| |done| |done].
      * unfold s1 in Htake. simpl in Htake. by eapply take_weaken.
      * rewrite Hlen. unfold s1. simpl. rewrite length_app. simpl. lia.
Qed.

Lemma extend_binop_spine s b exprs (op : string) (reversed : bool) :
  b < length (nodes s) →
  Forall (λ e, e < length (nodes s)) exprs →
  ∃ r s',
    extend_binop BinOp (Some b) exprs op reversed s = Done (r, s') ∧
    take (length (nodes s)) (nodes s') = nodes s ∧
    sets s' = sets s ∧
    length (nodes s') = length (nodes s) + length (skip_same b exprs) ∧
    denotes s' (length (nodes s)) r (chain op reversed b (skip_same b exprs)).
Proof.
  intros Hb Hexprs. unfold extend_binop.
  rewrite (M_bind_Done _ _ s (b, exprs) s) by done.
  induction Hexprs as [|e exprs He Hexprs IH].
  - exists b, s. split_and!; [done| |done|simpl; lia|by apply denotes_leaf].
    by rewrite firstn_all.
  - cbn [for_in skip_same]. destruct (decide (e = b)) as [->|Hne].
    + rewrite (decide_True (P := b = b)) by done.
      rewrite decide_False by (intros Hne; by apply Hne).
      rewrite (M_bind_Done _ _ s b s) by done. exact IH.
    + rewrite (decide_False (P := e = b)) by done.
      rewrite decide_True by done.
      set (n := if reversed then BinOp e op b else BinOp b op e).
      set (s1 := Store (nodes s ++ [n]) (sets s)).
      assert ((if reversed then alloc (BinOp e op b) else alloc (BinOp b op e)) s
                = Done (length (nodes s), s1)) as Halloc
        by (unfold s1, n; by destruct reversed).
      rewrite (M_bind_Done _ _ _ _ _ Halloc).
      assert (node_at s1 (length (nodes s)) = n) as Hnew
        by (unfold s1; by rewrite node_at_alloc, decide_True).
      destruct (extend_loop_fresh op reversed (length (nodes s)) exprs Hexprs
                  s1 (length (nodes s))
                  (if reversed then Bin (Leaf e) op (Leaf b)
                   else Bin (Leaf b) op (Leaf e)))
        as (r & s' & Hloop & Htake & Hsets & Hlen & Hden).
      * lia.
      * unfold s1. simpl. rewrite length_app. simpl. lia.
      * unfold n in Hnew. destruct reversed;
          (eapply denotes_bin; [lia|done|by apply denotes_leaf..]).
      * exists r, s'. split_and!; [done| |done| |done].
        -- unfold s1 in Htake. simpl in Htake. by eapply take_weaken.
        -- rewrite Hlen. unfold s1. simpl. rewrite length_app. simpl.
           unfold ref in *. lia.
Qed.

(** Extending an expression [b] by expressions that exist builds the chain
    [((b op e1) op e2) ...] (or [... (e2 op (e1 op b))] when reversed) over
    the expressions that are left once the leading occurrences of [b] itself
    are skipped: one new node for each of them, no existing node changed.
    Later occurrences of [b] are not skipped. *)
Theorem extend_binop_chain s b exprs (op : string) (reversed : bool) :
  b < length (nodes s) →
  Forall (λ e, e < length (nodes s)) exprs →
  ∃ r s',
    extend_binop BinOp (Some b) exprs op reversed s = Done (r, s') ∧
    take (length (nodes s)) (nodes s') = nodes s ∧
    sets s' = sets s ∧
    length (nodes s') = length (nodes s) + length (skip_same b exprs) ∧
    denotes s' (length (nodes s)) r (chain op reversed b (skip_same b exprs)).
Proof. apply extend_binop_spine. Qed.

Lemma extend_binop_chain_witness :
  ∃ r s',
    extend_binop BinOp (Some 0) [0; 1; 0; 2] "and" false operand_store
      = Done (r, s') ∧
    take 3 (nodes s') = nodes operand_store ∧
    sets s' = sets operand_store ∧
    length (nodes s') = 3 + 3 ∧
    denotes s' 3 r
      (Bin (Bin (Bin (Leaf 0) "and" (Leaf 1)) "and" (Leaf 0)) "and" (Leaf 2)).
Proof.
  apply (extend_binop_chain operand_store 0 [0; 1; 0; 2] "and" false).
  - simpl. lia.
  - repeat constructor.
Defined.

(** Without an expression to start from, the first of [exprs] starts the
    chain and the others extend it; with no expression at all the call raises
    [IndexError]. *)
Theorem extend_binop_from_first s exprs (op : string) (reversed : bool) :
  Forall (λ e, e < length (nodes s)) exprs →
  match exprs with
  | [] => extend_binop BinOp None exprs op reversed s = Fail IndexError
  | e :: rest =>
      ∃ r s',
        extend_binop BinOp None exprs op reversed s = Done (r, s') ∧
        take (length (nodes s)) (nodes s') = nodes s ∧
        sets s' = sets s ∧
        denotes s' (length (nodes s)) r (chain op reversed e (skip_same e rest))
  end.
Proof.
  intros Hexprs. destruct exprs as [|e rest]; [done|].
  apply Forall_cons in Hexprs as [He Hrest].
  destruct (extend_binop_spine s e rest op reversed He Hrest)
    as (r & s' & Hrun & Htake & Hsets & _ & Hden).
  by exists r, s'.
Qed.

Lemma extend_binop_from_first_witness :
  ∃ r s',
    extend_binop BinOp None [1; 2] "or" true operand_store = Done (r, s') ∧
    take 3 (nodes s') = nodes operand_store ∧
    sets s' = sets operand_store ∧
    denotes s' 3 r (Bin (Leaf 2) "or" (Leaf 1)).
Proof.
  apply (extend_binop_from_first operand_store [1; 2] "or" true).
  repeat constructor.
Defined.

(** ** [combine_field_results], flattening *)

(** With more than one distinct result and [flatten] set, the new
    combination absorbs, one level deep, the members of the results that are
    combinations of the requested class; results of the other class and
    plain paths stay members.  The results themselves are left as they
    were. *)
Theorem combine_field_results_absorbs self (results : list ref) cls s :
  1 < size (list_to_set results : gset ref) →
  Forall (λ r, r < length (nodes s)) results →
  ∃ s' members,
    combine_field_results self results cls true s
      = Done (Some (length (nodes s)), s') ∧
    node_at s' (length (nodes s)) = PathCombination cls members ∧
    (∀ x, x ∈ members ↔ absorbed_once s cls (list_to_set results) x) ∧
    (∀ y, y < length (nodes s) → node_at s' y = node_at s y) ∧
    sets s' = sets s.
Proof.
  intros Hsize Hexist. unfold combine_field_results.
  rewrite bool_decide_eq_false_2 by lia.
  rewrite bool_decide_eq_false_2 by lia.
  set (rs := list_to_set results : gset ref).
  set (s1 := Store (nodes s ++ [PathCombination cls rs]) (sets s)).
  assert (alloc (PathCombination cls rs) s = Done (length (nodes s), s1))
    as Halloc by done.
  rewrite (M_bind_Done _ _ _ _ _ Halloc).
  assert (node_at s1 (length (nodes s)) = PathCombination cls rs) as Hnew
    by (unfold s1; by rewrite node_at_alloc, decide_True).
  assert (∀ y, y < length (nodes s) → node_at s1 y = node_at s y) as Hold.
  { intros y Hy. unfold s1. rewrite node_at_alloc, decide_False; [done|lia]. }
  destruct (flatten_once 0 s1 _ _ _ Hnew) as (paths & Hflat & Hpaths).
  rewrite (M_bind_Done _ _ _ _ _ Hflat).
  eexists _, paths. split_and!; [done| | | |done].
  - rewrite node_at_put, decide_True; [done..|].
    unfold s1. simpl. rewrite length_app. simpl. lia.
  - intros x. rewrite Hpaths. unfold absorbed_once.
    split; intros (m & Hm & Hcase); exists m; (split; [done|]).
    + rewrite <- Hold; [done|].
      apply elem_of_list_to_set in Hm.
      by apply (proj1 (Forall_forall _ _) Hexist).
    + rewrite Hold; [done|].
      apply elem_of_list_to_set in Hm.
      by apply (proj1 (Forall_forall _ _) Hexist).
  - intros y Hy. rewrite node_at_put, decide_False; [by apply Hold|lia|].
    unfold s1. simpl. rewrite length_app. simpl. lia.
Qed.

Lemma combine_field_results_absorbs_witness :
  ∃ s' members,
    combine_field_results (extractor false false) [0; 2] Conjunction true
        mixed_store
      = Done (Some 4, s') ∧
    node_at s' 4 = PathCombination Conjunction members ∧
    (∀ x, x ∈ members
          ↔ absorbed_once mixed_store Conjunction (list_to_set [0; 2]) x) ∧
    (∀ y, y < 4 → node_at s' y = node_at mixed_store y) ∧
    sets s' = sets mixed_store.
Proof.
  apply (combine_field_results_absorbs (extractor false false) [0; 2]
           Conjunction mixed_store).
  - vm_compute. lia.
  - repeat constructor; simpl; lia.
Defined.

End GraphExtra.

(** * More facts about [extract_prefixes] *)

Module PrefixFacts.
Import Linear Graph GraphSpec Index GraphMore GraphFacts IndexFacts.

Lemma outcome_bind_inv {A B} (m : outcome A) (f : A → outcome B) b :
  (m ≫= f) = Done b → ∃ a, m = Done a ∧ f a = Done b.
Proof.
  unfold mbind, outcome_mbind, outcome_bind. destruct m as [a| |]; [eauto|done..].
Qed.

Lemma index_le_refl p : index_le p p.
Proof. intros k v Hk. by exists v. Qed.

Lemma index_le_trans p q r : index_le p q → index_le q r → index_le p r.
Proof.
  intros Hpq Hqr k v Hk.
  destruct (Hpq k v Hk) as (v1 & Hk1 & Hsub1).
  destruct (Hqr k v1 Hk1) as (v2 & Hk2 & Hsub2).
  exists v2. split; [done|]. set_solver.
Qed.

Lemma for_each_grows {A} (xs : list A) (body : PathIndex → A → outcome PathIndex) :
  (∀ p x q, body p x = Done q → index_le p q) →
  ∀ p q, for_each xs body p = Done q → index_le p q.
Proof.
  intros Hbody. induction xs as [|x xs IH]; intros p q Hrun; simpl in Hrun.
  - injection Hrun as <-. apply index_le_refl.
  - apply outcome_bind_inv in Hrun as (p1 & Hx & Hrest).
    eapply index_le_trans; [by eapply Hbody|by apply IH].
Qed.

(** Recording a node under its identity keeps what the index held. *)
Lemma record_grows (p : PathIndex) key (expr : ref) q :
  match index_get p key with
  | None => PathIndex_setitem p key {[expr]}
  | Some v => Done (index_put p key (v ∪ {[expr]}))
  end = Done q →
  index_le p q ∧ ∃ v, index_get q key = Some v ∧ expr ∈ v.
Proof.
  intros Hrun. destruct (index_get p key) as [v|] eqn:Hget.
  - injection Hrun as <-. split.
    + intros k w Hk. rewrite index_get_put. case_decide as Hkey.
      * subst. exists (v ∪ {[expr]}). split; [done|]. set_solver.
      * by exists w.
    + exists (v ∪ {[expr]}). rewrite index_get_put, decide_True by done.
      split; [done|]. set_solver.
  - assert (q = index_put p key {[expr]}) as ->.
    { unfold PathIndex_setitem in Hrun. destruct key; by inversion Hrun. }
    split.
    + intros k w Hk. rewrite index_get_put. case_decide as Hkey.
      * subst. congruence.
      * by exists w.
    + exists {[expr]}. rewrite index_get_put, decide_True by done.
      split; [done|]. set_solver.
Qed.

Lemma extract_prefixes_grows_aux get_id fuel :
  ∀ s expr prefixes p',
    extract_prefixes get_id fuel s expr prefixes = Done p' →
    index_le (default [] prefixes) p'.
Proof.
  induction fuel as [|fuel IH]; intros s expr prefixes p' Hrun; [done|].
  cbn [extract_prefixes] in Hrun.
  generalize dependent (default [] prefixes). clear prefixes. intros p Hrun.
  assert (∀ p e q,
            match e with
            | Some r => extract_prefixes get_id fuel s r (Some p)
            | None => Fail (AssertionError UnexpectedNode)
            end = Done q → index_le p q) as Hrecur.
  { intros p0 [r|] q Hq; [|done]. by apply IH in Hq. }
  assert (∀ p q,
            (key ← get_id s expr;
             if id_truthy key then
               match index_get p key with
               | None => PathIndex_setitem p key {[expr]}
               | Some v => Done (index_put p key (v ∪ {[expr]}))
               end
             else Done p) = Done q → index_le p q) as Hrecord.
  { intros p0 q Hq. apply outcome_bind_inv in Hq as (key & _ & Hq).
    destruct (id_truthy key).
    - by apply record_grows in Hq as [Hq _].
    - injection Hq as <-. apply index_le_refl. }
  assert (∀ xs p q,
            for_each xs (λ p path, extract_prefixes get_id fuel s path (Some p)) p
              = Done q → index_le p q) as Hloop.
  { intros xs. apply for_each_grows. intros p0 x q Hq. by apply IH in Hq. }
  destruct (node_at s expr) as
    [e|l|b|cls paths|lhs op rhs|e|e|r e|r e|args agg_sort agg_filter partition
    |e|e|e|elements_|elements_| | |r|] eqn:Hn.
  - apply outcome_bind_inv in Hrun as (p1 & H1 & Hrun).
    apply Hrecord in H1. eapply index_le_trans; [done|].
    destruct (es_rlink e) as [rl|].
    + destruct (node_at s rl); try done. by apply Hrecur in Hrun.
    + injection Hrun as <-. apply index_le_refl.
  - by apply Hrecur in Hrun.
  - destruct (br_class b).
    + apply outcome_bind_inv in Hrun as (p1 & H1 & Hrun).
      apply Hrecord in H1. apply Hrecur in Hrun. by eapply index_le_trans.
    + by apply Hrecur in Hrun.
    + by apply Hrecur in Hrun.
    + by apply Hrecur in Hrun.
  - by apply Hloop in Hrun.
  - apply outcome_bind_inv in Hrun as (p1 & H1 & Hrun).
    apply IH in H1. apply IH in Hrun. by eapply index_le_trans.
  - by apply IH in Hrun.
  - by apply IH in Hrun.
  - apply outcome_bind_inv in Hrun as (p1 & H1 & Hrun).
    apply IH in H1. apply IH in Hrun. by eapply index_le_trans.
  - apply outcome_bind_inv in Hrun as (p1 & H1 & Hrun).
    apply IH in H1. apply IH in Hrun. by eapply index_le_trans.
  - apply outcome_bind_inv in Hrun as (p1 & H1 & Hrun).
    apply outcome_bind_inv in Hrun as (p2 & H2 & Hrun).
    apply outcome_bind_inv in Hrun as (p3 & H3 & Hrun).
    apply Hloop in H1. apply Hloop in Hrun.
    assert (index_le p1 p2) as H12.
    { revert H2. apply for_each_grows. intros p0 x q Hq.
      apply outcome_bind_inv in Hq as (e & _ & Hq). by apply Hrecur in Hq. }
    assert (index_le p2 p3) as H23.
    { destruct agg_filter as [f|].
      - by apply IH in H3.
      - injection H3 as <-. apply index_le_refl. }
    eauto using index_le_trans.
  - done.
  - by apply IH in Hrun.
  - by apply IH in Hrun.
  - by apply Hloop in Hrun.
  - by apply Hloop in Hrun.
  - injection Hrun as <-. apply index_le_refl.
  - injection Hrun as <-. apply index_le_refl.
  - by apply IH in Hrun.
  - done.
Qed.

(** [extract_prefixes] only adds to the index it is given: on every node,
    whenever it returns, each entry of the index handed in is still there,
    with at least the nodes it had. *)
Theorem extract_prefixes_grows get_id fuel s expr prefixes p' :
  extract_prefixes get_id fuel s expr (Some prefixes) = Done p' →
  index_le prefixes p'.
Proof. apply extract_prefixes_grows_aux. Qed.

Lemma extract_prefixes_grows_witness :
  ∃ p',
    extract_prefixes id_attr 2 pet_store 2 (Some [(IdStr "Person", {[5]})])
      = Done p' ∧
    index_le [(IdStr "Person", {[5]})] p'.
Proof.
  eexists. split.
  - vm_compute. reflexivity.
  - apply (extract_prefixes_grows id_attr 2 pet_store 2). vm_compute. reflexivity.
Defined.

(** The step that records [expr] under its identity. *)
Lemma record_id_runs (get_id : store → ref → outcome path_id) s (expr : ref)
    (p : PathIndex) k :
  get_id s expr = Done k →
  (id_truthy k = true → valid_key k = true) →
  ∃ q,
    (key ← get_id s expr;
     if id_truthy key then
       match index_get p key with
       | None => PathIndex_setitem p key {[expr]}
       | Some v => Done (index_put p key (v ∪ {[expr]}))
       end
     else Done p) = Done q ∧
    index_le p q ∧
    (id_truthy k = true → ∃ v, index_get q k = Some v ∧ expr ∈ v).
Proof.
  intros Hid Hvalid. rewrite Hid. cbn [mbind outcome_mbind outcome_bind].
  destruct (id_truthy k) eqn:Htruthy.
  - assert (∃ q, match index_get p k with
                 | None => PathIndex_setitem p k {[expr]}
                 | Some v => Done (index_put p k (v ∪ {[expr]}))
                 end = Done q) as [q Hq].
    { destruct (index_get p k); [by eexists|].
      specialize (Hvalid eq_refl). unfold PathIndex_setitem.
      destruct k; try done; by eexists. }
    exists q. split; [done|]. apply record_grows in Hq as [Hle Hin]. by split.
  - exists p. split; [done|]. split; [apply index_le_refl|done].
Qed.

(** On an entity set, [extract_prefixes] indexes the whole chain of entity
    sets reached through [rlink.source], up to the root: every one of them
    whose identity is non-empty is found under that identity in the index
    returned, and the entries the index held are kept. *)
Theorem extract_prefixes_chain get_id s path ancestors fuel prefixes :
  rlink_chain s path ancestors →
  Forall (λ x, is_EntitySet (node_at s x) = true) (path :: ancestors) →
  Forall (λ x, ∃ k, get_id s x = Done k ∧
                    (id_truthy k = true → valid_key k = true))
         (path :: ancestors) →
  length ancestors < fuel →
  ∃ p',
    extract_prefixes get_id fuel s path prefixes = Done p' ∧
    index_le (default [] prefixes) p' ∧
    ∀ x k, x ∈ path :: ancestors → get_id s x = Done k → id_truthy k = true →
           ∃ v, index_get p' k = Some v ∧ x ∈ v.
Proof.
  intros Hchain. revert fuel prefixes.
  induction Hchain as [path Hattr Hroot|path l ln parent ancestors Hattr Hl Hln Hsrc _ IH];
    intros fuel prefixes Hent Hids Hfuel;
    (destruct fuel as [|fuel]; [simpl in Hfuel; lia|]);
    apply Forall_cons in Hent as [Hpath Hent];
    apply Forall_cons in Hids as [(k & Hid & Hvalid) Hids];
    destruct (node_at s path) as [e| | | | | | | | | | | | | | | | | | ] eqn:Hn;
    try done; simpl in Hroot || simpl in Hl;
    destruct (record_id_runs get_id s path (default [] prefixes) k Hid Hvalid)
      as (q & Hrec & Hle & Hin);
    cbn [extract_prefixes]; rewrite Hn, Hrec;
    cbn [mbind outcome_mbind outcome_bind].
  - rewrite Hroot. exists q. split_and!; [done..|].
    intros x k' Hx%list_elem_of_singleton Hid' Htruthy. subst x.
    rewrite Hid in Hid'. injection Hid' as <-. by apply Hin.
  - rewrite Hl, Hln, Hsrc.
    destruct (IH fuel (Some q) Hent Hids) as (p' & Hrun & Hle' & Hcover);
      [simpl in Hfuel; lia|].
    exists p'. split_and!; [done|by eapply index_le_trans|].
    intros x k' Hx Hid' Htruthy. apply elem_of_cons in Hx as [->|Hx].
    + rewrite Hid in Hid'. injection Hid' as <-.
      destruct (Hin Htruthy) as (v & Hv & Hpath_in).
      destruct (Hle' k v Hv) as (v' & Hv' & Hsub).
      exists v'. split; [done|]. by apply Hsub.
    + by apply Hcover.
Qed.

Lemma extract_prefixes_chain_witness :
  ∃ p',
    extract_prefixes id_attr 3 toy_store 4 None = Done p' ∧
    index_le [] p' ∧
    ∀ x k, x ∈ [4; 2; 0] → id_attr toy_store x = Done k → id_truthy k = true →
           ∃ v, index_get p' k = Some v ∧ x ∈ v.
Proof.
  apply (extract_prefixes_chain id_attr toy_store 4 [2; 0] 3 None).
  - eapply chain_step; [reflexivity..|].
    eapply chain_step; [reflexivity..|].
    apply chain_root; reflexivity.
  - repeat constructor.
  - repeat constructor; eexists; (split; [reflexivity|reflexivity]).
  - simpl. lia.
Defined.

End PrefixFacts.

(** * More facts about [copy_path] *)

Module CopyFacts.
Import Linear Graph GraphSpec Index GraphMore GraphFacts.

Lemma node_at_same_nodes s ss x :
  node_at (Store (nodes s) ss) x = node_at s x.
Proof. done. Qed.

Lemma set_at_app_l s (extra : list (gset atom)) y :
  y < length (sets s) →
  default ∅ ((sets s ++ extra) !! y) = set_at s y.
Proof. intros Hy. unfold set_at. by rewrite lookup_app_l. Qed.

Lemma with_rlink_same n :
  has_rlink_attr n = true → with_rlink n (rlink_of n) = n.
Proof. destruct n as [e| |b| | | | | | | | | | | | | | | | ]; try done; by destruct e || destruct b. Qed.

(** One iteration of the loop over a link with a source that is an entity
    set. *)
Lemma copy_links_step cto res cur l s1 r parent pe :
  node_at s1 l = EntityLink r →
  el_source r = Some parent →
  node_at s1 parent = EntitySet pe →
  cur < length (nodes s1) →
  ∃ s1',
    (∀ fuel,
       copy_links (S fuel) cto (Some res) (Some cur) (Some l) s1
         = copy_links fuel cto (Some res) (Some (S (length (nodes s1))))
                      (es_rlink pe) s1') ∧
    length (nodes s1') = length (nodes s1) + 3 ∧
    length (sets s1') = length (sets s1) + 3 ∧
    (∀ y, y < length (sets s1) → set_at s1' y = set_at s1 y) ∧
    (∀ x, x < length (nodes s1) → x ≠ cur → node_at s1' x = node_at s1 x) ∧
    node_at s1' cur = with_rlink (node_at s1 cur) (Some (length (nodes s1))) ∧
    (∃ ln, node_at s1' (length (nodes s1)) = EntityLink ln ∧
           el_source ln = Some (S (length (nodes s1))) ∧
           el_target ln = Some cur ∧
           el_link_proto ln = el_link_proto r) ∧
    (∃ disj, node_at s1' (S (length (nodes s1)))
             = EntitySet (copy_entity_set parent pe cto disj
                                          (length (sets s1) + 2))) ∧
    (es_rewrite_flags pe < length (sets s1) →
     set_at s1' (length (sets s1) + 2) = set_at s1 (es_rewrite_flags pe)).
Proof.
  intros Hl Hsrc Hparent Hcur.
  set (n := length (nodes s1)). set (m := length (sets s1)).
  set (sa := Store (nodes s1) (sets s1 ++ [set_at s1 (el_users r)])).
  set (sb := Store (nodes sa) (sets sa ++ [set_at sa (el_rewrite_flags r)])).
  set (L := EntityLink
              {| el_context := el_context r; el_target := Some cur;
                 el_source := None;
                 el_link_proto := el_link_proto r;
                 el_direction := el_direction r;
                 el_propfilter := el_propfilter r;
                 el_users := m;
                 el_pathvar := el_pathvar r; el_anchor := el_anchor r;
                 el_show_as_anchor := el_show_as_anchor r;
                 el_rewrite_flags := S m;
                 el_pathspec_trigger := el_pathspec_trigger r |}).
  set (sc := Store (nodes sb ++ [L]) (sets sb)).
  set (sd := Store (nodes sc) (sets sc ++ [set_at sc (es_rewrite_flags pe)])).
  set (P0 := EntitySet (copy_entity_set parent pe false None (S (S m)))).
  set (se := Store (nodes sd ++ [P0]) (sets sd)).
  set (D := PathCombination Disjunction {[n]}).
  set (sf := Store (nodes se ++ [D]) (sets se)).
  set (P1 := EntitySet (copy_entity_set parent pe cto (Some (S (S n))) (S (S m)))).
  set (sg := Store (<[S n := P1]> (nodes sf)) (sets sf)).
  assert (length (nodes sf) = n + 3) as Hlen_sf.
  { unfold sf, se, sd, sc, sb, sa. simpl. rewrite !length_app. simpl. unfold n. lia. }
  assert (length (nodes sb) = n) as Hlen_sb by done.
  assert (length (nodes sd) = n + 1) as Hlen_sd.
  { unfold sd, sc, sb, sa. simpl. rewrite !length_app. simpl. unfold n. lia. }
  assert (length (nodes se) = n + 2) as Hlen_se.
  { unfold se, sd, sc, sb, sa. simpl. rewrite !length_app. simpl. unfold n. lia. }
  assert (node_at sc n = L) as HL.
  { unfold sc. by rewrite node_at_alloc, decide_True. }
  assert (node_at sg n = L) as HLg.
  { unfold sg. rewrite node_at_put, decide_False by lia.
    unfold sf. rewrite node_at_alloc, decide_False by lia.
    unfold se. rewrite node_at_alloc, decide_False by lia.
    done. }
  set (L1 := EntityLink
               (with_source
                  {| el_context := el_context r; el_target := Some cur;
                     el_source := None;
                     el_link_proto := el_link_proto r;
                     el_direction := el_direction r;
                     el_propfilter := el_propfilter r;
                     el_users := m;
                     el_pathvar := el_pathvar r; el_anchor := el_anchor r;
                     el_show_as_anchor := el_show_as_anchor r;
                     el_rewrite_flags := S m;
                     el_pathspec_trigger := el_pathspec_trigger r |}
                  (Some (S n)))).
  set (sh := Store (<[n := L1]> (nodes sg)) (sets sg)).
  set (C1 := with_rlink (node_at sh cur) (Some n)).
  set (si := Store (<[cur := C1]> (nodes sh)) (sets sh)).
  assert (length (nodes sg) = n + 3) as Hlen_sg.
  { unfold sg. simpl. by rewrite length_insert. }
  assert (length (nodes sh) = n + 3) as Hlen_sh.
  { unfold sh. simpl. by rewrite length_insert. }
  assert (∀ x, x < n → node_at sh x = node_at s1 x) as Hold.
  { intros x Hx. unfold sh. rewrite node_at_put, decide_False by lia.
    unfold sg. rewrite node_at_put, decide_False by lia.
    unfold sf. rewrite node_at_alloc, decide_False by lia.
    unfold se. rewrite node_at_alloc, decide_False by lia.
    unfold sd. rewrite node_at_same_nodes.
    unfold sc. rewrite node_at_alloc, decide_False by lia.
    done. }
  assert (sets si = ((sets s1 ++ [set_at s1 (el_users r)])
                       ++ [set_at sa (el_rewrite_flags r)])
                      ++ [set_at sc (es_rewrite_flags pe)]) as Hsets by done.
  exists si. split_and!.
  - intros fuel. cbn [copy_links].
    rewrite (M_bind_Done _ _ s1 (node_at s1 l) s1) by done. rewrite Hl.
    rewrite (M_bind_Done _ _ s1 m sa) by done.
    rewrite (M_bind_Done _ _ sa (S m) sb)
      by (unfold set_copy, sb, sa; simpl; rewrite length_app; simpl;
          unfold m; repeat f_equal; lia).
    rewrite (M_bind_Done _ _ sb n sc) by done.
    rewrite Hsrc.
    rewrite (M_bind_Done _ _ sc (node_at sc parent) sc) by done.
    assert (node_at sc parent = EntitySet pe) as ->.
    { unfold sc. rewrite node_at_alloc, decide_False; [done|].
      assert (parent < length (nodes s1)); [|simpl; lia].
      apply node_at_allocated. by rewrite Hparent. }
    rewrite (M_bind_Done _ _ sc (S (S m)) sd)
      by (unfold set_copy, sd, sc, sb, sa; simpl; rewrite !length_app; simpl;
          unfold m; repeat f_equal; lia).
    rewrite (M_bind_Done _ _ sd (S n) se)
      by (unfold alloc, se, sd, sc, sb, sa; simpl; rewrite !length_app; simpl;
          unfold n; repeat f_equal; lia).
    rewrite (M_bind_Done _ _ se (S (S n)) sf)
      by (unfold alloc, sf, se, sd, sc, sb, sa; simpl; rewrite !length_app; simpl;
          unfold n; repeat f_equal; lia).
    rewrite (M_bind_Done _ _ sf () sg) by done.
    rewrite (M_bind_Done _ _ sg (node_at sg n) sg) by done. rewrite HLg.
    rewrite (M_bind_Done _ _ sg () sh) by done.
    rewrite (M_bind_Done _ _ sh () si).
    2:{ by rewrite (M_bind_Done _ _ sh (node_at sh cur) sh). }
    done.
  - unfold si. cbn [nodes]. rewrite length_insert. lia.
  - rewrite Hsets, !length_app. simpl. lia.
  - intros y Hy. unfold set_at at 1. rewrite Hsets.
    rewrite !lookup_app_l; [done|..]; rewrite ?length_app; simpl; lia.
  - intros x Hx Hne. unfold si. rewrite node_at_put, decide_False by lia.
    by apply Hold.
  - unfold si. rewrite node_at_put, decide_True by (done || lia).
    unfold C1. by rewrite Hold.
  - exists (with_source
              {| el_context := el_context r; el_target := Some cur;
                 el_source := None;
                 el_link_proto := el_link_proto r;
                 el_direction := el_direction r;
                 el_propfilter := el_propfilter r;
                 el_users := m;
                 el_pathvar := el_pathvar r; el_anchor := el_anchor r;
                 el_show_as_anchor := el_show_as_anchor r;
                 el_rewrite_flags := S m;
                 el_pathspec_trigger := el_pathspec_trigger r |}
              (Some (S n))).
    split; [|done].
    unfold si. rewrite node_at_put, decide_False by lia.
    unfold sh. rewrite node_at_put, decide_True by (done || lia). done.
  - exists (Some (S (S n))).
    unfold si. rewrite node_at_put, decide_False by lia.
    unfold sh. rewrite node_at_put, decide_False by lia.
    unfold sg. rewrite node_at_put, decide_True by (done || lia).
    unfold P1. do 2 f_equal. lia.
  - intros Hflags. unfold set_at at 1. rewrite Hsets.
    rewrite lookup_app_r by (rewrite !length_app; simpl; lia).
    replace (m + 2 - length ((sets s1 ++ [set_at s1 (el_users r)])
                               ++ [set_at sa (el_rewrite_flags r)])) with 0
      by (rewrite !length_app; simpl; fold m; lia).
    simpl. unfold set_at. unfold sc, sb, sa. cbn [sets].
    by rewrite !lookup_app_l by (rewrite ?length_app; simpl; lia).
Qed.

Lemma has_rlink_attr_with_rlink n rl :
  has_rlink_attr (with_rlink n rl) = has_rlink_attr n.
Proof. by destruct n. Qed.

Lemma rlink_of_with_rlink n rl :
  has_rlink_attr n = true → rlink_of (with_rlink n rl) = rl.
Proof. by destruct n. Qed.

(** The loop of [copy_path] along a chain of entity sets: it copies every
    ancestor, links the copies as their sources are linked, and writes to no
    node but the copies. *)
Lemma copy_links_chain cto s0 res p ancestors :
  rlink_chain s0 p ancestors →
  Forall (λ x, is_EntitySet (node_at s0 x) = true) ancestors →
  Forall (flags_allocated s0) ancestors →
  ∀ fuel s1 cur,
    length ancestors ≤ fuel →
    extends s0 s1 →
    length (nodes s0) ≤ cur →
    cur < length (nodes s1) →
    has_rlink_attr (node_at s1 cur) = true →
    rlink_of (node_at s1 cur) = None →
    ∃ s2 ancestors',
      copy_links fuel cto (Some res) (Some cur) (rlink_of (node_at s0 p)) s1
        = Done (Some res, s2) ∧
      length (nodes s1) ≤ length (nodes s2) ∧
      length (sets s1) ≤ length (sets s2) ∧
      (∀ x, x < length (nodes s1) → x ≠ cur → node_at s2 x = node_at s1 x) ∧
      (∀ y, y < length (sets s1) → set_at s2 y = set_at s1 y) ∧
      (∃ rl, node_at s2 cur = with_rlink (node_at s1 cur) rl) ∧
      rlink_chain s2 cur ancestors' ∧
      Forall2 (copy_of cto s0 s2) ancestors ancestors' ∧
      Forall (λ x, length (nodes s1) ≤ x) ancestors'.
Proof.
  induction 1 as [p Hattr Hroot|p l ln parent ancestors Hattr Hl Hln Hsrc Hchain IH];
    intros Hent Hflags fuel s1 cur Hfuel Hext Hfresh Hcur Hcur_attr Hcur_root.
  - rewrite Hroot. exists s1, []. split_and!; try done.
    + by destruct fuel.
    + exists None. rewrite <- Hcur_root. by rewrite with_rlink_same.
    + by apply chain_root.
  - apply Forall_cons in Hent as [Hparent Hent].
    apply Forall_cons in Hflags as [Hpflags Hflags].
    destruct fuel as [|fuel]; [simpl in Hfuel; lia|].
    destruct Hext as (Hlen_n & Hlen_s & Hnodes & Hsets).
    destruct (node_at s0 parent) as [pe| | | | | | | | | | | | | | | | | | ] eqn:Hpe;
      try done.
    assert (l < length (nodes s0)) as Hl_lt
      by (apply node_at_allocated; by rewrite Hln).
    assert (parent < length (nodes s0)) as Hp_lt
      by (apply node_at_allocated; by rewrite Hpe).
    assert (node_at s1 l = EntityLink ln) as Hln1 by (by rewrite Hnodes).
    assert (node_at s1 parent = EntitySet pe) as Hpe1 by (by rewrite Hnodes).
    destruct (copy_links_step cto res cur l s1 ln parent pe Hln1 Hsrc Hpe1 Hcur)
      as (s1' & Hstep & Hlen1 & Hlens1 & Hsets1 & Hold1 & Hcur1 &
          (ln' & Hlink1 & Hlsrc & _ & _) & (disj & Hparent1) & Hflags1).
    unfold flags_allocated in Hpflags. rewrite Hpe in Hpflags.
    set (n := length (nodes s1)) in *. set (m := length (sets s1)) in *.
    destruct (IH Hent Hflags fuel s1' (S n)) as
      (s2 & anc & Hrun & Hlen2 & Hlens2 & Hold2 & Hsets2 & (rl & Hparent2) &
       Hchain2 & Hcopies & Hnew).
    + simpl in Hfuel. lia.
    + split_and!; [lia|lia| |].
      * intros x Hx. rewrite Hold1 by lia. by apply Hnodes.
      * intros y Hy. rewrite Hsets1 by lia. by apply Hsets.
    + lia.
    + lia.
    + by rewrite Hparent1.
    + by rewrite Hparent1.
    + rewrite Hparent1 in Hparent2.
      assert (node_at s2 cur = with_rlink (node_at s1 cur) (Some n)) as Hcur2.
      { rewrite Hold2 by lia. done. }
      assert (node_at s2 n = EntityLink ln') as Hlink2.
      { rewrite Hold2 by lia. done. }
      exists s2, (S n :: anc). rewrite Hl, Hstep.
      split_and!; [exact Hrun|lia|lia| | | | | |].
      * intros x Hx Hne. rewrite Hold2 by lia. by apply Hold1.
      * intros y Hy. rewrite Hsets2 by lia. by apply Hsets1.
      * by exists (Some n).
      * apply (chain_step s2 cur n ln' (S n) anc);
          [| |exact Hlink2|exact Hlsrc|exact Hchain2].
        -- by rewrite Hcur2, has_rlink_attr_with_rlink.
        -- by rewrite Hcur2, rlink_of_with_rlink.
      * constructor; [|done].
        eexists pe, _. split_and!; [done|exact Hparent2|lia|done..| | |].
        -- simpl. lia.
        -- simpl. rewrite Hsets2 by lia. rewrite Hflags1 by lia.
           by apply Hsets.
        -- simpl. destruct cto; [|done]. by destruct (es_origin pe).
      * apply Forall_cons. split; [lia|].
        eapply Forall_impl; [exact Hnew|]. simpl. intros x Hx. lia.
Qed.

(** Copying an entity set that ends a chain of entity sets gives a new chain
    of the same length: every entity set of the chain has its copy at the
    same place of the new chain, each copy a new node with the same identity
    and concept, sharing the sets of users and joins of its source and
    holding a new set of rewrite flags with the same elements.  Every node
    and set that was there before the call is as it was. *)
Theorem copy_path_chain fuel cto s path ancestors :
  rlink_chain s path ancestors →
  Forall (λ x, is_EntitySet (node_at s x) = true) (path :: ancestors) →
  Forall (flags_allocated s) (path :: ancestors) →
  length ancestors ≤ fuel →
  ∃ s' ancestors',
    copy_path fuel path cto s = Done (Some (length (nodes s)), s') ∧
    extends s s' ∧
    rlink_chain s' (length (nodes s)) ancestors' ∧
    Forall2 (copy_of cto s s') (path :: ancestors)
            (length (nodes s) :: ancestors').
Proof.
  intros Hchain Hent Hflags Hfuel.
  apply Forall_cons in Hent as [Hpath Hent].
  apply Forall_cons in Hflags as [Hpflags Hflags].
  destruct (node_at s path) as [e| | | | | | | | | | | | | | | | | | ] eqn:Hn;
    try done.
  unfold flags_allocated in Hpflags. rewrite Hn in Hpflags.
  set (n := length (nodes s)). set (m := length (sets s)).
  set (sa := Store (nodes s) (sets s ++ [set_at s (es_rewrite_flags e)])).
  set (C := EntitySet (copy_entity_set path e cto None m)).
  set (sb := Store (nodes sa ++ [C]) (sets sa)).
  assert (node_at sb n = C) as Hnew
    by (unfold sb; by rewrite node_at_alloc, decide_True).
  assert (∀ x, x < n → node_at sb x = node_at s x) as Hold.
  { intros x Hx. unfold sb. rewrite node_at_alloc, decide_False; [done|].
    unfold n in Hx. simpl. lia. }
  assert (∀ y, y < m → set_at sb y = set_at s y) as Hsets.
  { intros y Hy. unfold set_at, sb, sa. cbn [sets]. by rewrite lookup_app_l. }
  assert (length (nodes sb) = n + 1) as Hlen
    by (unfold sb, sa; cbn [nodes]; rewrite length_app; simpl; unfold n; lia).
  assert (length (sets sb) = m + 1) as Hlens
    by (unfold sb, sa; cbn [sets]; rewrite length_app; simpl; unfold m; lia).
  destruct (copy_links_chain cto s n path ancestors Hchain Hent Hflags
              fuel sb n Hfuel) as
    (s2 & anc & Hrun & Hlen2 & Hlens2 & Hold2 & Hsets2 & (rl & Hcopy) &
     Hchain2 & Hcopies & Hfresh).
  - split_and!; [fold n; lia|fold m; lia|done|done].
  - done.
  - lia.
  - by rewrite Hnew.
  - by rewrite Hnew.
  - exists s2, anc. split_and!.
    + unfold copy_path.
      rewrite (M_bind_Done _ _ s (node_at s path) s) by done. rewrite Hn.
      rewrite (M_bind_Done _ _ s m sa) by done.
      rewrite (M_bind_Done _ _ sa n sb) by done.
      assert (rlink_of (node_at s path) = es_rlink e) as <- by (by rewrite Hn).
      exact Hrun.
    + split_and!; [fold n; lia|fold m; lia| |].
      * intros x Hx. fold n in Hx. rewrite Hold2 by lia. by apply Hold.
      * intros y Hy. fold m in Hy. rewrite Hsets2 by lia. by apply Hsets.
    + done.
    + constructor; [|done].
      rewrite Hnew in Hcopy.
      eexists e, _. split_and!; [done|exact Hcopy|done..| | |].
      * simpl. fold m. lia.
      * simpl. rewrite Hsets2 by lia.
        unfold set_at at 1, sb, sa. cbn [sets].
        rewrite lookup_app_r by (fold m; lia).
        by replace (m - length (sets s)) with 0 by (fold m; lia).
      * simpl. destruct cto; [|done]. by destruct (es_origin e).
Qed.

Lemma copy_path_chain_witness :
  ∃ s' ancestors',
    copy_path 2 4 true toy_store = Done (Some 5, s') ∧
    extends toy_store s' ∧
    rlink_chain s' 5 ancestors' ∧
    Forall2 (copy_of true toy_store s') [4; 2; 0] (5 :: ancestors').
Proof.
  apply (copy_path_chain 2 true toy_store 4 [2; 0]).
  - eapply chain_step; [reflexivity..|].
    eapply chain_step; [reflexivity..|].
    apply chain_root; reflexivity.
  - repeat constructor.
  - repeat constructor; unfold flags_allocated; simpl; lia.
  - simpl. lia.
Defined.

(** *** What [copy_path] never does *)

Lemma keeps_refl base s : keeps_below base s s.
Proof. by split_and!. Qed.

Lemma keeps_trans base s1 s2 s3 :
  keeps_below base s1 s2 → keeps_below base s2 s3 → keeps_below base s1 s3.
Proof.
  intros (Hn1 & Hs1 & Hx1 & Hy1) (Hn2 & Hs2 & Hx2 & Hy2).
  split_and!; [lia|lia| |].
  - intros x Hx. rewrite Hx2 by done. by apply Hx1.
  - intros y Hy. rewrite Hy2 by lia. by apply Hy1.
Qed.

Lemma keeps_set_copy base s r a s' :
  set_copy r s = Done (a, s') → nodes s' = nodes s ∧ keeps_below base s s'.
Proof.
  intros [= <- <-]. split; [done|]. split_and!; [done| |done|].
  - cbn [sets]. rewrite length_app. lia.
  - intros y Hy. unfold set_at. cbn [sets]. by rewrite lookup_app_l.
Qed.

Lemma keeps_alloc base s n a s' :
  alloc n s = Done (a, s') →
  base ≤ length (nodes s) →
  a = length (nodes s) ∧ length (nodes s') = S (length (nodes s)) ∧
  keeps_below base s s'.
Proof.
  intros [= <- <-] Hbase. split; [done|]. cbn [nodes]. rewrite length_app. simpl.
  split; [lia|].
  split_and!; cbn [nodes sets]; [rewrite length_app; lia|done| |done].
  intros x Hx. rewrite node_at_alloc, decide_False; [done|lia].
Qed.

Lemma keeps_put_node base s r n a s' :
  put_node r n s = Done (a, s') →
  base ≤ r →
  length (nodes s') = length (nodes s) ∧ keeps_below base s s'.
Proof.
  intros Hput Hbase. unfold put_node in Hput. inversion Hput; subst; clear Hput.
  cbn [nodes]. rewrite length_insert. split; [done|].
  split_and!; cbn [nodes sets]; [by rewrite length_insert|done| |done].
  intros x Hx. unfold node_at. cbn [nodes].
  by rewrite list_lookup_insert_ne by lia.
Qed.

Lemma get_node_inv r s a s' : get_node r s = Done (a, s') → a = node_at s r ∧ s' = s.
Proof. by intros [= <- <-]. Qed.

Tactic Notation "inv_bind" hyp(H) ident(a) ident(s') ident(Ha) :=
  apply M_bind_inv in H as (a & s' & Ha & H).

Lemma copy_links_frame base fuel cto :
  ∀ res cur rlink s1 r s2,
    copy_links fuel cto res cur rlink s1 = Done (r, s2) →
    base ≤ length (nodes s1) →
    (∀ c, cur = Some c → base ≤ c) →
    keeps_below base s1 s2 ∧
    r = match res, rlink with
        | Some x, _ => Some x
        | None, Some _ => Some (length (nodes s1))
        | None, None => None
        end.
Proof.
  induction fuel as [|fuel IH]; intros res cur rlink s1 r s2 Hrun Hbase Hcur.
  { destruct rlink as [rl|]; [done|]. injection Hrun as <- <-.
    split; [apply keeps_refl|by destruct res]. }
  destruct rlink as [rl|]; cbn [copy_links] in Hrun.
  2:{ injection Hrun as <- <-. split; [apply keeps_refl|by destruct res]. }
  inv_bind Hrun n sx Hn. apply get_node_inv in Hn as [-> ->].
  destruct (node_at s1 rl) as [|lk| | | | | | | | | | | | | | | | | ]; try done.
  inv_bind Hrun users sA HsA. apply (keeps_set_copy base) in HsA as [Hna Hka].
  inv_bind Hrun flags sB HsB. apply (keeps_set_copy base) in HsB as [Hnb Hkb].
  inv_bind Hrun link sC HsC.
  apply (keeps_alloc base) in HsC as (-> & Hlc & Hkc); [|rewrite Hnb, Hna; lia].
  rewrite Hnb, Hna in Hlc, Hrun.
  assert (keeps_below base s1 sC) as H1c by eauto using keeps_trans.
  set (result := match res with
                 | Some _ => res
                 | None => Some (length (nodes s1))
                 end) in *.
  assert (result = match res with
                   | Some x => Some x
                   | None => Some (length (nodes s1))
                   end) as Hresult by (unfold result; by destruct res).
  destruct (el_source lk) as [parent_path|].
  2:{ injection Hrun as <- <-. by split. }
  inv_bind Hrun pn sx Hpn. apply get_node_inv in Hpn as [-> ->].
  destruct (node_at sC parent_path) as [pe| | | | | | | | | | | | | | | | | | ];
    try done.
  inv_bind Hrun pflags sD HsD. apply (keeps_set_copy base) in HsD as [Hnd Hkd].
  inv_bind Hrun parent sE HsE.
  apply (keeps_alloc base) in HsE as (-> & Hle & Hke); [|rewrite Hnd, Hlc; lia].
  rewrite Hnd, Hlc in Hle, Hrun.
  inv_bind Hrun disjunction sF HsF.
  apply (keeps_alloc base) in HsF as (-> & Hlf & Hkf); [|rewrite Hle; lia].
  rewrite Hle in Hlf, Hrun.
  inv_bind Hrun u sG HsG.
  apply (keeps_put_node base) in HsG as [Hlg Hkg]; [|lia].
  inv_bind Hrun ln sx Hln. apply get_node_inv in Hln as [-> ->].
  inv_bind Hrun u2 sH HsH.
  assert (length (nodes sH) = length (nodes sG) ∧ keeps_below base sG sH)
    as [Hlh Hkh].
  { destruct (node_at sG (length (nodes s1))); try done.
    apply (keeps_put_node base) in HsH; [done|lia]. }
  inv_bind Hrun u3 sI HsI.
  assert (length (nodes sI) = length (nodes sH) ∧ keeps_below base sH sI)
    as [Hli Hki].
  { destruct cur as [c|].
    - inv_bind HsI cn sx Hcn. apply get_node_inv in Hcn as [-> ->].
      apply (keeps_put_node base) in HsI; [done|by apply Hcur].
    - injection HsI as <- <-. split; [done|apply keeps_refl]. }
  apply IH in Hrun as [Hk2 ->]; [|lia|intros c [= <-]; lia].
  split; [|try subst result; by destruct res].
  eauto 10 using keeps_trans.
Qed.

(** Whatever [copy_path] is given, when it returns it has written to no node
    and to no set that was there before the call, and what it returns is a
    node the call has made: the first one. *)
Theorem copy_path_frame fuel path cto s r s' :
  copy_path fuel path cto s = Done (r, s') →
  r = Some (length (nodes s)) ∧ extends s s'.
Proof.
  intros Hrun. unfold copy_path in Hrun.
  inv_bind Hrun n sx Hn. apply get_node_inv in Hn as [-> ->].
  assert (∀ s2, keeps_below (length (nodes s)) s s2 → extends s s2) as Hext
    by (by intros s2 (? & ? & ? & ?)).
  destruct (node_at s path) as [e| |b| | | | | | | | | | | | | | | | ].
  1,3: inv_bind Hrun flags sA HsA;
       apply (keeps_set_copy (length (nodes s))) in HsA as [Hna Hka];
       inv_bind Hrun result sB HsB;
       apply (keeps_alloc (length (nodes s))) in HsB as (-> & Hlb & Hkb); [|rewrite Hna; lia];
       rewrite Hna in Hlb, Hrun;
       apply (copy_links_frame (length (nodes s))) in Hrun as [Hk ->];
         [|lia|intros c [= <-]; lia];
       (split; [done|]); apply Hext; eauto using keeps_trans.
  all: apply (copy_links_frame (length (nodes s))) in Hrun as [Hk ->]; [|lia|done];
       (split; [done|]); by apply Hext.
Qed.

Lemma copy_path_frame_witness :
  ∃ s',
    copy_path 2 3 false toy_store = Done (Some 5, s') ∧
    Some 5 = Some (length (nodes toy_store)) ∧ extends toy_store s'.
Proof.
  eexists. split.
  - vm_compute. reflexivity.
  - apply (copy_path_frame 2 3 false toy_store). vm_compute. reflexivity.
Defined.

End CopyFacts.
